(** * Fused cross-entropy loss kernels (unsloth/kernels/cross_entropy_loss.py)

    A shallow embedding of the three Triton kernels
    [_cross_entropy_forward], [_chunked_cross_entropy_forward] and
    [_cross_entropy_backward], of the autograd function
    [Fast_CrossEntropyLoss] that launches them, and of the entry point
    [fast_cross_entropy_loss].  Of [patch_llama_for_causal_lm] it covers
    the loss code of the [replacement] text and the text the function
    builds for [exec].

    Arithmetic is exact: a tensor element is an extended real ([fval]):
    a real number, one of the two infinities, or NaN.  Finite values are
    combined with the operations of [R] (no rounding, no overflow); the
    special values follow the IEEE-754 rules the kernels rely on
    (a masked lane is loaded as minus infinity, [exp] of it is 0, and
    0/0 is NaN); zero has no sign.  Device buffers are lists addressed by
    integer offsets; a load or store outside a buffer is a fault ([None]).
    The programs of a launch grid are run one after the other. *)

From Stdlib Require Import Reals Lra ZArith Lia.
From Stdlib Require Ascii String.
From stdpp Require Import base option list.

Local Open Scope Z_scope.

(** * The model *)

(** ** Extended reals *)

Inductive fval : Type :=
| NaN
| NInf
| PInf
| Fin (r : R).

Definition is_finite (v : fval) : Prop :=
  match v with Fin _ => True | _ => False end.

(** Sign of a real, as a [comparison] with 0. *)
Definition Rsign (x : R) : comparison :=
  if Rlt_dec x 0 then Lt else if Rlt_dec 0 x then Gt else Eq.

(** The infinity of a given sign; sign [Eq] is the invalid product 0 * inf. *)
Definition inf_of (c : comparison) : fval :=
  match c with Lt => NInf | Eq => NaN | Gt => PInf end.

Definition fadd (a b : fval) : fval :=
  match a, b with
  | NaN, _ | _, NaN => NaN
  | Fin x, Fin y => Fin (x + y)
  | PInf, NInf | NInf, PInf => NaN
  | PInf, _ | _, PInf => PInf
  | NInf, _ | _, NInf => NInf
  end.

Definition fneg (a : fval) : fval :=
  match a with
  | NaN => NaN
  | NInf => PInf
  | PInf => NInf
  | Fin x => Fin (- x)
  end.

Definition fsub (a b : fval) : fval := fadd a (fneg b).

Definition fmul (a b : fval) : fval :=
  match a, b with
  | NaN, _ | _, NaN => NaN
  | Fin x, Fin y => Fin (x * y)
  | Fin x, PInf | PInf, Fin x => inf_of (Rsign x)
  | Fin x, NInf | NInf, Fin x => inf_of (CompOpp (Rsign x))
  | PInf, PInf | NInf, NInf => PInf
  | PInf, NInf | NInf, PInf => NInf
  end.

(** Division: x/0 is an infinity of the sign of x, and 0/0 is NaN. *)
Definition fdiv (a b : fval) : fval :=
  match a, b with
  | NaN, _ | _, NaN => NaN
  | Fin x, Fin y => if Req_dec_T y 0 then inf_of (Rsign x) else Fin (x / y)
  | Fin _, PInf | Fin _, NInf => Fin 0
  | PInf, Fin y => if Rlt_dec y 0 then NInf else PInf
  | NInf, Fin y => if Rlt_dec y 0 then PInf else NInf
  | PInf, PInf | PInf, NInf | NInf, PInf | NInf, NInf => NaN
  end.

Definition fexp (a : fval) : fval :=
  match a with
  | NaN => NaN
  | NInf => Fin 0
  | PInf => PInf
  | Fin x => Fin (exp x)
  end.

Definition flog (a : fval) : fval :=
  match a with
  | NaN | NInf => NaN
  | PInf => PInf
  | Fin x => if Rlt_dec 0 x then Fin (ln x)
             else if Req_dec_T x 0 then NInf else NaN
  end.

(** Maximum of two lanes; a NaN lane makes the maximum NaN. *)
Definition fmax (a b : fval) : fval :=
  match a, b with
  | NaN, _ | _, NaN => NaN
  | PInf, _ | _, PInf => PInf
  | NInf, v | v, NInf => v
  | Fin x, Fin y => Fin (Rmax x y)
  end.

(** Modelled from the spec: [triton_tanh] is imported from [.utils], which
    is not part of the sources at hand; the spec (4.2) describes the softcap
    as [t * tanh(x / t)], so it is the hyperbolic tangent, saturating at the
    infinities. *)
Definition triton_tanh (a : fval) : fval :=
  match a with
  | NaN => NaN
  | NInf => Fin (-1)
  | PInf => Fin 1
  | Fin x => Fin (tanh x)
  end.

(** [x.to(tl.float32)]: a cast between float widths is the identity in
    exact arithmetic. *)
Definition to_float32 (a : fval) : fval := a.

(** [x.to(tl.int32)] on an integer: two's-complement wrap to 32 bits. *)
Definition to_int32 (z : Z) : Z := (z + 2 ^ 31) mod 2 ^ 32 - 2 ^ 31.

Definition int32_range (z : Z) : Prop := - 2 ^ 31 <= z < 2 ^ 31.

(** ** Block reductions *)

(** [tl.max(v, 0)] and [tl.sum(v, 0)] over the lanes of a block. *)
Definition tl_max (v : list fval) : fval := foldr fmax NInf v.
Definition tl_sum (v : list fval) : fval := foldr fadd (Fin 0) v.

(** The stable log-sum-exp, [c + log(sum(exp(x - c)))] with [c = max(x)]
    (spec 4.1).  The kernels spell this expression out. *)
Definition logsumexp_stable (v : list fval) : fval :=
  let c := tl_max v in
  fadd c (flog (tl_sum (map (fun x => fexp (fsub x c)) v))).

(** [torch.logsumexp(m, dim = 1)]: one stable log-sum-exp per row.  The
    library function is taken in the form the spec gives it (4.1, glossary);
    on real entries, the only case the results below rest on, this is its
    value. *)
Definition torch_logsumexp (m : list (list fval)) : list fval :=
  map logsumexp_stable m.

(** ** Sums of exponentials *)

(** Sum of the exponentials of the lanes of a block; a lane holding minus
    infinity contributes nothing. *)
Definition exp_term (v : fval) : R :=
  match v with Fin x => exp x | _ => 0%R end.

Definition expsum (v : list fval) : R :=
  foldr (fun x acc => (exp_term x + acc)%R) 0%R v.

(** A lane is "low" when it is a real or minus infinity. *)
Definition low (v : fval) : Prop :=
  match v with Fin _ | NInf => True | _ => False end.

Create HintDb fval.

Arguments expsum : simpl never.

(** ** Device buffers *)

(** A buffer is a list addressed from 0; a pointer is an integer offset into
    it.  Accesses outside the buffer fault. *)
Definition load {A : Type} (buf : list A) (addr : Z) : option A :=
  if addr <? 0 then None else buf !! Z.to_nat addr.

Definition store {A : Type} (buf : list A) (addr : Z) (v : A) : option (list A) :=
  if (0 <=? addr) && (addr <? Z.of_nat (length buf))
  then Some (<[Z.to_nat addr := v]> buf)
  else None.

(** [tl.load(ptr + offsets, mask = mask, other = other)]: a masked-off lane
    is not accessed and yields [other]. *)
Definition tl_load_masked (buf : list fval) (ptr : Z) (offsets : list Z)
    (mask : list bool) (other : fval) : option (list fval) :=
  mapM (fun om : Z * bool =>
          if om.2 then load buf (ptr + om.1) else Some other)
       (zip offsets mask).

(** [tl.store(ptr + offsets, vals, mask = mask)]: a masked-off lane is not
    written. *)
Fixpoint tl_store_masked (buf : list fval) (ptr : Z) (offsets : list Z)
    (vals : list fval) (mask : list bool) : option (list fval) :=
  match offsets, vals, mask with
  | o :: offsets', v :: vals', m :: mask' =>
      buf' ← (if m : bool then store buf (ptr + o) v else Some buf);
      tl_store_masked buf' ptr offsets' vals' mask'
  | _, _, _ => Some buf
  end.

(** Running the program instances of a launch grid one after the other.
    Instances of one launch touch disjoint output cells, so any order is a
    schedule of the parallel launch. *)
Fixpoint run_programs {S : Type} (prog : Z -> S -> option S) (ids : list Z)
    (s : S) : option S :=
  match ids with
  | [] => Some s
  | i :: ids' => s' ← prog i s; run_programs prog ids' s'
  end.

Definition launch_grid1 {S : Type} (n0 : Z) (prog : Z -> S -> option S)
    (s : S) : option S :=
  run_programs prog (seqZ 0 n0) s.

Definition launch_grid2 {S : Type} (n0 n1 : Z) (prog : Z -> Z -> S -> option S)
    (s : S) : option S :=
  run_programs (fun i => run_programs (prog i) (seqZ 0 n1)) (seqZ 0 n0) s.

(** ** The kernels *)

(** The compile-time transform parameters of a kernel. *)
Record config : Type := mk_config {
  DO_SOFTCAPPING : bool;
  SOFTCAP : R;
  DO_LOGIT_SCALING : bool;
  LOGIT_SCALE : R
}.

Definition IGNORE : Z := -100.

Definition _cross_entropy_forward
    (logits : list fval) (logits_row_stride : Z)
    (labels : list Z)
    (VOCAB_SIZE BLOCK_SIZE : Z) (cfg : config)
    (row_idx : Z) (out : list fval * list fval)
  : option (list fval * list fval) :=
  let '(loss_buf, logsumexp_buf) := out in
  let logits_ptr := row_idx * logits_row_stride in
  let loss_ptr := row_idx in
  let logsumexp_ptr := row_idx in
  let labels_ptr := row_idx in
  let col_offsets := seqZ 0 BLOCK_SIZE in
  let mask := map (fun c => c <? VOCAB_SIZE) col_offsets in
  label ← load labels labels_ptr;
  let label_idx := to_int32 label in
  logits_v ← tl_load_masked logits logits_ptr col_offsets mask NInf;
  let logits_v :=
    if DO_LOGIT_SCALING cfg
    then map (fun x => fmul (Fin (LOGIT_SCALE cfg)) x) logits_v
    else logits_v in
  let logits_v :=
    if DO_SOFTCAPPING cfg
    then map (fun x => fmul (Fin (SOFTCAP cfg))
                         (triton_tanh (fdiv x (Fin (SOFTCAP cfg))))) logits_v
    else logits_v in
  let logits_v := map to_float32 logits_v in
  let c := tl_max logits_v in
  let logsumexp :=
    fadd c (flog (tl_sum (map (fun x => fexp (fsub x c)) logits_v))) in
  loss ←
    (if negb (label_idx =? IGNORE) then
       x ← load logits (logits_ptr + label_idx);
       let x := if DO_LOGIT_SCALING cfg
                then fmul (Fin (LOGIT_SCALE cfg)) x else x in
       let x := if DO_SOFTCAPPING cfg
                then fmul (Fin (SOFTCAP cfg))
                       (triton_tanh (fdiv x (Fin (SOFTCAP cfg))))
                else x in
       Some (fsub logsumexp (to_float32 x))
     else Some (Fin 0));
  logsumexp_buf' ← store logsumexp_buf logsumexp_ptr logsumexp;
  loss_buf' ← store loss_buf loss_ptr loss;
  Some (loss_buf', logsumexp_buf').

Definition _chunked_cross_entropy_forward
    (logits : list fval) (logits_row_stride : Z)
    (labels : list Z)
    (VOCAB_SIZE N_CHUNKS BLOCK_SIZE : Z) (cfg : config)
    (row_idx chunk_idx : Z) (out : list fval * list fval)
  : option (list fval * list fval) :=
  let '(loss_buf, logsumexp_buf) := out in
  let logits_ptr := row_idx * logits_row_stride in
  let loss_ptr := row_idx in
  let logsumexp_ptr := row_idx * N_CHUNKS + chunk_idx in
  let labels_ptr := row_idx in
  let col_offsets := map (Z.add (chunk_idx * BLOCK_SIZE)) (seqZ 0 BLOCK_SIZE) in
  let mask := map (fun c => c <? VOCAB_SIZE) col_offsets in
  label ← load labels labels_ptr;
  let label_idx := to_int32 label in
  logits_v ← tl_load_masked logits logits_ptr col_offsets mask NInf;
  let logits_v :=
    if DO_LOGIT_SCALING cfg
    then map (fun x => fmul (Fin (LOGIT_SCALE cfg)) x) logits_v
    else logits_v in
  let logits_v :=
    if DO_SOFTCAPPING cfg
    then map (fun x => fmul (Fin (SOFTCAP cfg))
                         (triton_tanh (fdiv x (Fin (SOFTCAP cfg))))) logits_v
    else logits_v in
  let logits_v := map to_float32 logits_v in
  let c := tl_max logits_v in
  let logsumexp :=
    fadd c (flog (tl_sum (map (fun x => fexp (fsub x c)) logits_v))) in
  loss_buf' ←
    (if chunk_idx =? 0 then
       loss ←
         (if negb (label_idx =? IGNORE) then
            x ← load logits (logits_ptr + label_idx);
            let x := to_float32 x in
            let x := if DO_LOGIT_SCALING cfg
                     then fmul (Fin (LOGIT_SCALE cfg)) x else x in
            let x := if DO_SOFTCAPPING cfg
                     then fmul (Fin (SOFTCAP cfg))
                            (triton_tanh (fdiv x (Fin (SOFTCAP cfg))))
                     else x in
            Some (fmul (Fin (-1)) (to_float32 x))
          else Some (Fin 0));
       store loss_buf loss_ptr loss
     else Some loss_buf);
  logsumexp_buf' ← store logsumexp_buf logsumexp_ptr logsumexp;
  Some (loss_buf', logsumexp_buf').

(** The backward kernel overwrites the logits buffer, which is the state
    threaded through the launch.  The source computes [partial] under
    [DO_SOFTCAPPING] only, and uses it under [DO_SOFTCAPPING] only; here it
    is a pure [let], read in that case alone. *)
Definition _cross_entropy_backward
    (logits_row_stride : Z)
    (dloss : list fval) (dloss_row_stride : Z)
    (logsumexp_buf : list fval)
    (labels : list Z)
    (VOCAB_SIZE BLOCK_SIZE : Z) (cfg : config)
    (row_idx block_idx : Z) (logits : list fval)
  : option (list fval) :=
  let logits_ptr := row_idx * logits_row_stride in
  let dloss_ptr := row_idx * dloss_row_stride in
  let col_offsets := map (Z.add (block_idx * BLOCK_SIZE)) (seqZ 0 BLOCK_SIZE) in
  let mask := map (fun c => c <? VOCAB_SIZE) col_offsets in
  label ← load labels row_idx;
  let label_idx := to_int32 label in
  dloss_v ← (if negb (label_idx =? IGNORE) then load dloss dloss_ptr
             else Some (Fin 0));
  x ← tl_load_masked logits logits_ptr col_offsets mask NInf;
  let x := if DO_LOGIT_SCALING cfg
           then map (fun v => fmul v (Fin (LOGIT_SCALE cfg))) x else x in
  let partial := map (fun v => triton_tanh (fdiv v (Fin (SOFTCAP cfg)))) x in
  let x := if DO_SOFTCAPPING cfg
           then map (fun p => fmul (Fin (SOFTCAP cfg)) p) partial else x in
  logsumexp ← load logsumexp_buf row_idx;
  let y := map (fun v => fexp (fsub (to_float32 v) logsumexp)) x in
  let y := zip_with (fun c v => if c =? label_idx then fsub v (Fin 1) else v)
             col_offsets y in
  let y := if DO_LOGIT_SCALING cfg
           then map (fun v => fmul v (Fin (LOGIT_SCALE cfg))) y else y in
  let y := if DO_SOFTCAPPING cfg
           then zip_with (fun v p => fmul v (fsub (Fin 1) (fmul p p))) y partial
           else y in
  tl_store_masked logits logits_ptr col_offsets
    (map (fun v => fmul dloss_v v) y) mask.

(** ** The autograd function and the entry point *)

Definition MAX_FUSED_SIZE : Z := 65536.

Inductive error : Type :=
| AssertionError
| RuntimeError
| DeviceFault.

Inductive outcome (A : Type) : Type :=
| Ok (a : A)
| Raised (e : error).
Arguments Ok {A} a.
Arguments Raised {A} e.

(** A two-dimensional tensor: its shape, the stride of dimension 0 and its
    storage (dimension 1 is contiguous). *)
Record tensor : Type := mk_tensor {
  shape0 : Z;
  shape1 : Z;
  stride0 : Z;
  storage : list fval
}.

(** [torch.empty(n)]: the cells are uninitialised; they are modelled as NaN.
    Every cell the code reads has been stored to before, except when
    [vocab_size = 0], where no chunk program runs. *)
Definition torch_empty (n : Z) : list fval := replicate (Z.to_nat n) NaN.

(** Modelled from the spec: [calculate_settings] is imported from [.utils],
    which is not part of the sources at hand; the spec (section 9) gives the
    block width as the power-of-two ceiling of the row width, bounded by
    the fixed capacity.  The warp count is a tuning hint and is left out. *)
Definition next_power_of_2 (n : Z) : Z := 2 ^ Z.log2_up n.

Definition calculate_settings (n : Z) : outcome Z :=
  let BLOCK_SIZE := next_power_of_2 n in
  if BLOCK_SIZE >? MAX_FUSED_SIZE then Raised RuntimeError else Ok BLOCK_SIZE.

(** [n != 0] on a real parameter. *)
Definition nonzero (x : R) : bool := if Req_dec_T x 0 then false else true.

(** Python's [div + (mod != 0)] after [div, mod = divmod(n, d)]. *)
Definition ceil_div (n d : Z) : Z :=
  let div := n / d in
  let mod_ := n mod d in
  div + (if mod_ =? 0 then 0 else 1).

(** Rows of a flat row-major matrix with [n_cols] columns. *)
Definition rows_of (flat : list fval) (n_rows n_cols : Z) : list (list fval) :=
  map (fun r => take (Z.to_nat n_cols) (drop (Z.to_nat (r * n_cols)) flat))
      (seqZ 0 n_rows).

(** [t.masked_fill_(mask, v)] *)
Definition masked_fill (t : list fval) (mask : list bool) (v : fval) : list fval :=
  zip_with (fun x (m : bool) => if m then v else x) t mask.

(** What [ctx] holds after [forward]. *)
Record context : Type := mk_context {
  saved_logits : tensor;
  saved_logsumexp : list fval;
  saved_labels : list Z;
  ctx_DO_SOFTCAPPING : bool;
  ctx_logit_softcapping : R;
  ctx_DO_LOGIT_SCALING : bool;
  ctx_logit_scaling : R
}.

(** The single-pass branch of [forward]. *)
Definition single_pass_path (logits : tensor) (labels : list Z)
    (BLOCK_SIZE : Z) (cfg : config) (losses : list fval)
  : option (list fval * list fval) :=
  let n_rows := shape0 logits in
  let vocab_size := shape1 logits in
  let logsumexp := torch_empty n_rows in
  launch_grid1 n_rows
    (_cross_entropy_forward (storage logits) (stride0 logits) labels
       vocab_size BLOCK_SIZE cfg)
    (losses, logsumexp).

(** The chunked branch of [forward]: the chunk kernel, then the reduction
    over the chunks, the addition to the loss slots and the masking of the
    ignored rows. *)
Definition chunked_path (logits : tensor) (labels : list Z)
    (n_chunks BLOCK_SIZE : Z) (cfg : config) (losses : list fval)
  : option (list fval * list fval) :=
  let n_rows := shape0 logits in
  let vocab_size := shape1 logits in
  let logsumexp := torch_empty (n_rows * n_chunks) in
  '(losses, logsumexp) ←
    launch_grid2 n_rows n_chunks
      (_chunked_cross_entropy_forward (storage logits) (stride0 logits) labels
         vocab_size n_chunks BLOCK_SIZE cfg)
      (losses, logsumexp);
  let logsumexp := torch_logsumexp (rows_of logsumexp n_rows n_chunks) in
  let losses := zip_with fadd losses logsumexp in
  let losses := masked_fill losses (map (fun l => l =? IGNORE) labels) (Fin 0) in
  Some (losses, logsumexp).

Definition Fast_CrossEntropyLoss_forward (logits : tensor) (labels : list Z)
    (logit_softcapping logit_scaling : R)
  : outcome (list fval * context) :=
  let n_rows := shape0 logits in
  let vocab_size := shape1 logits in
  let n_chunks := ceil_div vocab_size MAX_FUSED_SIZE in
  let losses := torch_empty n_rows in
  let DO_SOFTCAPPING := nonzero logit_softcapping in
  let DO_LOGIT_SCALING := nonzero logit_scaling in
  let cfg := mk_config DO_SOFTCAPPING logit_softcapping
                       DO_LOGIT_SCALING logit_scaling in
  let save logsumexp :=
    mk_context logits logsumexp labels
               DO_SOFTCAPPING logit_softcapping
               DO_LOGIT_SCALING logit_scaling in
  if n_chunks =? 1 then
    match calculate_settings vocab_size with
    | Raised e => Raised e
    | Ok BLOCK_SIZE =>
        match single_pass_path logits labels BLOCK_SIZE cfg losses with
        | None => Raised DeviceFault
        | Some (losses, logsumexp) => Ok (losses, save logsumexp)
        end
    end
  else
    match chunked_path logits labels n_chunks MAX_FUSED_SIZE cfg losses with
    | None => Raised DeviceFault
    | Some (losses, logsumexp) => Ok (losses, save logsumexp)
    end.

(** [backward] returns the logits tensor, whose storage now holds the
    gradient.  [dlosses] is given by its storage and its stride. *)
Definition Fast_CrossEntropyLoss_backward (ctx : context)
    (dlosses : list fval) (dlosses_stride : Z) : outcome tensor :=
  let logits := saved_logits ctx in
  let logsumexp := saved_logsumexp ctx in
  let labels := saved_labels ctx in
  let n_rows := shape0 logits in
  let vocab_size := shape1 logits in
  let BLOCK_SIZE := 4096 in
  let n_blocks := ceil_div vocab_size BLOCK_SIZE in
  let cfg := mk_config (ctx_DO_SOFTCAPPING ctx) (ctx_logit_softcapping ctx)
                       (ctx_DO_LOGIT_SCALING ctx) (ctx_logit_scaling ctx) in
  match launch_grid2 n_rows n_blocks
          (_cross_entropy_backward (stride0 logits) dlosses dlosses_stride
             logsumexp labels vocab_size BLOCK_SIZE cfg)
          (storage logits) with
  | None => Raised DeviceFault
  | Some grad => Ok (mk_tensor (shape0 logits) (shape1 logits) (stride0 logits) grad)
  end.

(** A contiguous [(batch, seq_len, d)] tensor and a contiguous
    [(batch, seq_len)] integer tensor. *)
Record tensor3 : Type := mk_tensor3 {
  t3_shape : Z * Z * Z;
  t3_storage : list fval
}.

Record labels2 : Type := mk_labels2 {
  l2_shape : Z * Z;
  l2_storage : list Z
}.

Definition torch_sum (t : list fval) : fval := foldr fadd (Fin 0) t.

(** [torch.count_nonzero(labels != -100)] *)
Definition count_nonzero_not_ignored (labels : list Z) : Z :=
  Z.of_nat (length (filter (fun l => l <> IGNORE) labels)).

Definition fast_cross_entropy_loss (logits : tensor3) (labels : labels2)
    (logit_softcapping logit_scaling : R) : outcome fval :=
  let '(batch, seq_len, d) := t3_shape logits in
  if negb (bool_decide (l2_shape labels = (batch, seq_len)))
  then Raised AssertionError
  else
    match Fast_CrossEntropyLoss_forward
            (mk_tensor (batch * seq_len) d d (t3_storage logits))
            (l2_storage labels)
            logit_softcapping logit_scaling with
    | Raised e => Raised e
    | Ok (loss, _) =>
        let n_items := count_nonzero_not_ignored (l2_storage labels) in
        Ok (fdiv (torch_sum loss) (Fin (IZR n_items)))
    end.

(** ** Rows, blocks and the pre-transform *)

(** The pre-transform of spec 4.2: scale first, softcap second. *)
Definition pre_transform (cfg : config) (x : fval) : fval :=
  let x := if DO_LOGIT_SCALING cfg then fmul (Fin (LOGIT_SCALE cfg)) x else x in
  if DO_SOFTCAPPING cfg
  then fmul (Fin (SOFTCAP cfg)) (triton_tanh (fdiv x (Fin (SOFTCAP cfg))))
  else x.

(** The configuration [forward] derives from its two parameters: a transform
    is active exactly when its parameter is nonzero. *)
Definition forward_config (logit_softcapping logit_scaling : R) : config :=
  mk_config (nonzero logit_softcapping) logit_softcapping
            (nonzero logit_scaling) logit_scaling.

(** Row [r] of a tensor, as the list of its [shape1] values. *)
Definition row_of (t : tensor) (r : Z) : list fval :=
  take (Z.to_nat (shape1 t)) (drop (Z.to_nat (r * stride0 t)) (storage t)).

(** Every row of the tensor lies inside its storage. *)
Definition rows_in_bounds (t : tensor) : Prop :=
  0 <= shape1 t /\
  forall r, 0 <= r < shape0 t ->
    0 <= r * stride0 t /\
    r * stride0 t + shape1 t <= Z.of_nat (length (storage t)).

(** A row padded with minus infinity up to [n] lanes. *)
Definition padded (row : list fval) (n : Z) : list fval :=
  row ++ replicate (Z.to_nat n - length row) NInf.

(** Lanes of block [k] of width [B] of a row of [n] padded lanes. *)
Definition block_of (row : list fval) (n k B : Z) : list fval :=
  take (Z.to_nat B) (drop (Z.to_nat (k * B)) (padded row n)).

Definition valid_label (V l : Z) : Prop := l = IGNORE \/ 0 <= l < V.

#[global] Instance fval_inhabited : Inhabited fval := populate NaN.

(** Spec 4.3, per row: the log-sum-exp of the transformed lanes of the
    block, and the loss of the row. *)
Definition row_logsumexp (cfg : config) (row : list fval) (BLOCK_SIZE : Z) : fval :=
  logsumexp_stable (map (pre_transform cfg) (padded row BLOCK_SIZE)).

Definition row_loss (cfg : config) (row : list fval) (BLOCK_SIZE : Z)
    (label : Z) : fval :=
  if label =? IGNORE then Fin 0
  else fsub (row_logsumexp cfg row BLOCK_SIZE)
            (pre_transform cfg (row !!! Z.to_nat label)).

(** ** Per-row values of the chunked path *)

(** Spec 4.4, per row: the log-sum-exp of chunk [k], the reduction over the
    [n] chunks and the loss of the row. *)
Definition chunk_logsumexp (cfg : config) (row : list fval) (n B k : Z) : fval :=
  logsumexp_stable (map (pre_transform cfg) (block_of row (n * B) k B)).

Definition chunked_row_logsumexp (cfg : config) (row : list fval) (n B : Z) : fval :=
  logsumexp_stable (map (chunk_logsumexp cfg row n B) (seqZ 0 n)).

(** What chunk 0 leaves in the loss slot. *)
Definition label_term (cfg : config) (row : list fval) (label : Z) : fval :=
  if label =? IGNORE then Fin 0
  else fmul (Fin (-1)) (pre_transform cfg (row !!! Z.to_nat label)).

Definition chunked_row_loss (cfg : config) (row : list fval) (n B : Z)
    (label : Z) : fval :=
  if label =? IGNORE then Fin 0
  else fadd (label_term cfg row label) (chunked_row_logsumexp cfg row n B).

(** The context [forward] saves, given the row log-sum-exp values. *)
Definition saved_context (t : tensor) (labels : list Z) (softcap scale : R)
    (logsumexp : list fval) : context :=
  mk_context t logsumexp labels (nonzero softcap) softcap (nonzero scale) scale.

(** ** Per-lane values of the backward kernel *)

(** Spec 4.5, per lane: the softmax entry from the saved log-sum-exp, minus
    one at the label column, then the derivative factors of the active
    transforms, then the upstream gradient. *)
Definition scaled_logit (cfg : config) (x : fval) : fval :=
  if DO_LOGIT_SCALING cfg then fmul (Fin (LOGIT_SCALE cfg)) x else x.

Definition grad_entry (cfg : config) (x lse dloss : fval) (at_label : bool) : fval :=
  let x' := pre_transform cfg x in
  let y := fexp (fsub x' lse) in
  let y := if at_label then fsub y (Fin 1) else y in
  let y := if DO_LOGIT_SCALING cfg then fmul y (Fin (LOGIT_SCALE cfg)) else y in
  let y := if DO_SOFTCAPPING cfg
           then let th := triton_tanh (fdiv (scaled_logit cfg x) (Fin (SOFTCAP cfg))) in
                fmul y (fsub (Fin 1) (fmul th th))
           else y in
  fmul dloss y.

(** The upstream gradient a program uses for its row. *)
Definition effective_dloss (label : Z) (dloss : fval) : fval :=
  if label =? IGNORE then Fin 0 else dloss.

(** ** Usable configurations *)

(** A configuration is usable when an active softcap is nonzero;
    [forward] only builds such configurations. *)
Definition softcap_ok (cfg : config) : Prop :=
  DO_SOFTCAPPING cfg = true -> SOFTCAP cfg <> 0%R.

(** The padding survives the pre-transform as a real or as minus infinity. *)
Definition pad_low (cfg : config) : Prop := low (pre_transform cfg NInf).

(** The pre-transform on reals. *)
Definition pre_R (cfg : config) (x : R) : R :=
  let y := if DO_LOGIT_SCALING cfg then (LOGIT_SCALE cfg * x)%R else x in
  if DO_SOFTCAPPING cfg then (SOFTCAP cfg * tanh (y / SOFTCAP cfg))%R else y.

(** ** The loss [forward] stores for a row *)

Definition forward_row_loss (softcap scale : R) (V : Z) (row : list fval)
    (label : Z) : fval :=
  let cfg := forward_config softcap scale in
  if V <=? MAX_FUSED_SIZE
  then row_loss cfg row (next_power_of_2 V) label
  else chunked_row_loss cfg row (ceil_div V MAX_FUSED_SIZE) MAX_FUSED_SIZE label.

Definition forward_row_logsumexp (softcap scale : R) (V : Z) (row : list fval)
  : fval :=
  let cfg := forward_config softcap scale in
  if V <=? MAX_FUSED_SIZE
  then row_logsumexp cfg row (next_power_of_2 V)
  else chunked_row_logsumexp cfg row (ceil_div V MAX_FUSED_SIZE) MAX_FUSED_SIZE.

(** ** Chunks, saved state and test rows *)


(** The configuration [backward] reads back from the context. *)
Definition context_config (ctx : context) : config :=
  mk_config (ctx_DO_SOFTCAPPING ctx) (ctx_logit_softcapping ctx)
            (ctx_DO_LOGIT_SCALING ctx) (ctx_logit_scaling ctx).

(** The upstream gradient can be read for every row that is not ignored. *)
Definition dloss_readable (labels : list Z) (dloss : list fval) (dstride : Z) : Prop :=
  forall (r : nat) label, labels !! r = Some label -> label <> IGNORE ->
    is_Some (load dloss (Z.of_nat r * dstride)).

(** The saved state fits the saved logits. *)
Definition context_wf (ctx : context) : Prop :=
  rows_in_bounds (saved_logits ctx) /\
  shape1 (saved_logits ctx) <= stride0 (saved_logits ctx) /\
  Z.of_nat (length (saved_labels ctx)) = shape0 (saved_logits ctx) /\
  Forall int32_range (saved_labels ctx) /\
  Z.of_nat (length (saved_logsumexp ctx)) = shape0 (saved_logits ctx).

(** One row of [V] zero logits. *)
Definition zero_row_logits (V : Z) : tensor :=
  mk_tensor 1 V V (replicate (Z.to_nat V) (Fin 0)).

(** ** Cross-entropy and softmax on real vectors *)

Definition Rsum (l : list R) : R := foldr Rplus 0%R l.

(** The cross-entropy of a row of real scores at a label:
    [log (sum (exp x)) - x_label]. *)
Definition cross_entropy (xs : list R) (label : nat) : R :=
  (ln (Rsum (map exp xs)) - nth label xs 0)%R.

Definition softmax (xs : list R) (c : nat) : R :=
  (exp (nth c xs 0) / Rsum (map exp xs))%R.

(** The factor the scaling multiplies by: the scale when it is on, else 1. *)
Definition scale_factor (scale : R) : R := if nonzero scale then scale else 1%R.

(** Number of lanes [forward] reduces over for a row of width [V]: the
    block width of the single-pass kernel, or all the lanes of the chunks. *)
Definition forward_lanes (V : Z) : Z :=
  if V <=? MAX_FUSED_SIZE then next_power_of_2 V
  else ceil_div V MAX_FUSED_SIZE * MAX_FUSED_SIZE.

(** The derivative factors of the backward kernel on reals. *)
Definition scaling_factor (cfg : config) : R :=
  if DO_LOGIT_SCALING cfg then LOGIT_SCALE cfg else 1%R.

Definition softcap_factor (cfg : config) (x : R) : R :=
  if DO_SOFTCAPPING cfg
  then let th := tanh ((if DO_LOGIT_SCALING cfg then LOGIT_SCALE cfg * x else x)
                       / SOFTCAP cfg) in
       (1 - th * th)%R
  else 1%R.

(** Row [r] of a contiguous array of rows of width [d]. *)
Definition real_row (d : Z) (data : list R) (r : nat) : list R :=
  take (Z.to_nat d) (drop (r * Z.to_nat d) data).

(** The mean, over the rows whose label is not -100, of the cross-entropy
    of the row's logits times [s] against the row's label. *)
Definition mean_cross_entropy (d : Z) (data : list R) (labels : list Z)
    (s : R) : R :=
  Rsum (imap (fun r label =>
                if label =? IGNORE then 0%R
                else cross_entropy (map (Rmult s) (real_row d data r))
                                   (Z.to_nat label)) labels)
  / IZR (count_nonzero_not_ignored labels).

(** ** The loss code the patch installs

    [patch_llama_for_causal_lm] replaces the loss computation of
    [LlamaForCausalLM.forward] by the code of its [replacement] text.  The
    code reads [self.max_seq_length] and the two values of [self.config],
    and creates the attribute [self.extra_ignored_labels] when it is
    missing. *)








(** The logits with [z] in place of the logit of row [r], column [c]. *)
Definition with_logit (t : tensor) (r c : Z) (z : fval) : tensor :=
  mk_tensor (shape0 t) (shape1 t) (stride0 t)
    (<[Z.to_nat (r * stride0 t + c) := z]> (storage t)).

(** ** The text of the patched class

    [patch_llama_for_causal_lm] builds the source text of a subclass of
    [LlamaForCausalLM] from the source text of [LlamaForCausalLM.forward]
    (what [inspect.getsource] returns, here the argument [source]) with
    Python's string operations, and hands it to [exec].  A text is the list
    of its characters; [None] stands for the exception of a failed
    [re.match]. *)

Module Patch.
Import String.StringSyntax.
Local Open Scope string_scope.

(** A Python string literal. *)
Definition lit (s : String.string) : list Ascii.ascii :=
  String.list_ascii_of_string s.

Definition nl : Ascii.ascii := Ascii.ascii_of_nat 10.
Definition sp : Ascii.ascii := Ascii.ascii_of_nat 32.
Definition dq : Ascii.ascii := Ascii.ascii_of_nat 34.

(** [s.startswith(p)] *)
Fixpoint is_prefix (p s : list Ascii.ascii) : bool :=
  match p, s with
  | [], _ => true
  | _ :: _, [] => false
  | a :: p', b :: s' => Ascii.eqb a b && is_prefix p' s'
  end.

Fixpoint find_from (sub s : list Ascii.ascii) (i : Z) : Z :=
  if is_prefix sub s then i
  else match s with
       | [] => -1
       | _ :: s' => find_from sub s' (i + 1)
       end.

(** [s.find(sub)]: the lowest index at which [sub] occurs, or -1. *)
Definition find (sub s : list Ascii.ascii) : Z := find_from sub s 0.

(** The position a slice bound [k] denotes in [s]: a negative bound counts
    from the end, and bounds are clipped to the text. *)
Definition slice_index (s : list Ascii.ascii) (k : Z) : nat :=
  Z.to_nat (if k <? 0 then Z.max (Z.of_nat (length s) + k) 0 else k).

(** [s[k:]] and [s[:k]] *)
Definition slice_from (s : list Ascii.ascii) (k : Z) : list Ascii.ascii :=
  drop (slice_index s k) s.
Definition slice_to (s : list Ascii.ascii) (k : Z) : list Ascii.ascii :=
  take (slice_index s k) s.

(** [s.split("\n")]: never the empty list. *)
Fixpoint split_nl (s : list Ascii.ascii) : list (list Ascii.ascii) :=
  match s with
  | [] => [[]]
  | c :: s' =>
      if Ascii.eqb c nl then [] :: split_nl s'
      else match split_nl s' with
           | l :: ls => (c :: l) :: ls
           | [] => [[c]]
           end
  end.

(** ["\n".join(ls)] *)
Definition join_nl (ls : list (list Ascii.ascii)) : list Ascii.ascii :=
  match ls with
  | [] => []
  | l :: ls => l ++ concat (map (cons nl) ls)
  end.

Fixpoint leading_spaces (s : list Ascii.ascii) : nat :=
  match s with
  | c :: s' => if Ascii.eqb c sp then S (leading_spaces s') else 0%nat
  | [] => 0%nat
  end.

(** [re.match(r"[ ]{1,}", s).span(0)[1]]: the number of leading spaces;
    without a leading space the match is [None] and [.span] raises. *)
Definition re_match_spaces_end (s : list Ascii.ascii) : option Z :=
  let n := leading_spaces s in
  if (n =? 0)%nat then None else Some (Z.of_nat n).

(** [s.replace(old, new)] for a non-empty [old]: the occurrences of [old]
    are replaced from left to right, without overlap.  [skip] counts the
    characters of a replaced occurrence still to pass over. *)
Fixpoint replace_from (old new s : list Ascii.ascii) (skip : nat) : list Ascii.ascii :=
  match s with
  | [] => []
  | c :: s' =>
      match skip with
      | S k => replace_from old new s' k
      | O =>
          if is_prefix old s
          then new ++ replace_from old new s' (length old - 1)
          else c :: replace_from old new s' 0
      end
  end.

Definition replace (old new s : list Ascii.ascii) : list Ascii.ascii :=
  replace_from old new s 0.

(** The text of [replacement]; its last line is four spaces. *)
Definition replacement : list Ascii.ascii :=
  join_nl [
    lit "    loss = None";
    lit "    logit_softcapping = getattr(self.config, " ++ [dq] ++
      lit "final_logit_softcapping" ++ [dq] ++ lit ", 0)";
    lit "    logit_scaling     = getattr(self.config, " ++ [dq] ++
      lit "logit_scale" ++ [dq] ++ lit ", 0)";
    lit "    if labels is not None:";
    lit "        shift_logits = logits";
    lit "        if not hasattr(self, " ++ [dq] ++ lit "extra_ignored_labels" ++
      [dq] ++ lit "):";
    lit "            # Fixes https://github.com/unslothai/unsloth/issues/10";
    lit "            self.extra_ignored_labels = torch.full((self.max_seq_length, 1), -100, device = "
      ++ [dq] ++ lit "cuda:0" ++ [dq] ++ lit ")";
    lit "        pass";
    lit "        ";
    lit "        shift_labels = torch.hstack((labels[..., 1:], self.extra_ignored_labels[:labels.shape[0]]))";
    lit "        loss = fast_cross_entropy_loss(";
    lit "            logits = shift_logits,";
    lit "            labels = shift_labels,";
    lit "            logit_softcapping = logit_softcapping,";
    lit "            logit_scaling     = logit_scaling,";
    lit "        )";
    lit "    else:";
    lit "        if logit_scaling != 0:";
    lit "            if logits.requires_grad:";
    lit "                logits = logit_scaling * logits";
    lit "            else:";
    lit "                logits *= logit_scaling";
    lit "            pass";
    lit "        pass";
    lit "        if logit_softcapping != 0:";
    lit "            if logits.requires_grad:";
    lit "                logits = (1.0 / logit_softcapping) * logits";
    lit "                logits = torch.tanh(logits)";
    lit "                logits = logit_softcapping * logits";
    lit "            else:";
    lit "                logits *= (1.0 / logit_softcapping)";
    lit "                torch.tanh(logits, out = logits)";
    lit "                logits *= logit_softcapping";
    lit "            pass";
    lit "        pass";
    lit "    pass";
    lit "    "
  ].

Definition def_forward : list Ascii.ascii := lit "def forward".
Definition loss_marker : list Ascii.ascii := lit "    loss = None".
Definition return_marker : list Ascii.ascii := lit "    if not return_dict".
Definition float_cast : list Ascii.ascii := lit "logits = logits.float()".
Definition class_header : list Ascii.ascii :=
  lit "class Unsloth_LlamaForCausalLM(LlamaForCausalLM):".

(** The lines of [source] without the indentation of the first line. *)
Definition function_dedented (source : list Ascii.ascii) : option (list Ascii.ascii) :=
  let function := split_nl source in
  match re_match_spaces_end (hd [] function) with
  | None => None
  | Some i =>
      let function := map (fun x => slice_from x i) function in
      Some (join_nl function)
  end.

(** [function[function.find("def forward"):]] *)
Definition function_from_def (function : list Ascii.ascii) : list Ascii.ascii :=
  slice_from function (find def_forward function).

(** The text up to the first marker, [replacement], the text from the
    second marker on. *)
Definition function_spliced (function : list Ascii.ascii) : list Ascii.ascii :=
  slice_to function (find loss_marker function) ++
  replacement ++
  slice_from function (find return_marker function).

(** [function.replace("logits = logits.float()", "\n")] *)
Definition function_without_float (function : list Ascii.ascii) : list Ascii.ascii :=
  replace float_cast [nl] function.

(** Four spaces before every line. *)
Definition function_indented (function : list Ascii.ascii) : list Ascii.ascii :=
  let function := split_nl function in
  let function := map (fun x => repeat sp 4 ++ x) function in
  join_nl function.

(** The text of the method before it is indented. *)
Definition patched_body (source : list Ascii.ascii) : option (list Ascii.ascii) :=
  match function_dedented source with
  | None => None
  | Some function =>
      Some (function_without_float
              (function_spliced (function_from_def function)))
  end.

(** The text handed to [exec]. *)
Definition patched_function (source : list Ascii.ascii) : option (list Ascii.ascii) :=
  match patched_body source with
  | None => None
  | Some function =>
      let function := function_indented function in
      Some (class_header ++ [nl] ++ repeat sp 4 ++ function ++ [nl])
  end.

(** [sub] occurs in [s] at index [n] and at no lower index. *)
Definition first_at (sub s : list Ascii.ascii) (n : nat) : Prop :=
  is_prefix sub (drop n s) = true /\
  forall j, (j < n)%nat -> is_prefix sub (drop j s) = false.

End Patch.

(** * Properties of the model *)

Lemma low_Fin x : low (Fin x).
Proof. exact I. Qed.

Lemma low_NInf : low NInf.
Proof. exact I. Qed.

Lemma finite_low v : is_finite v -> low v.
Proof. destruct v; simpl; tauto. Qed.

#[global] Hint Resolve low_Fin low_NInf finite_low : fval.

Lemma expsum_nil : expsum [] = 0%R.
Proof. reflexivity. Qed.

Lemma expsum_cons x v : expsum (x :: v) = (exp_term x + expsum v)%R.
Proof. reflexivity. Qed.

Lemma expsum_app u v : expsum (u ++ v) = (expsum u + expsum v)%R.
Proof.
  induction u as [|x u IH].
  - rewrite app_nil_l, expsum_nil. lra.
  - change ((x :: u) ++ v) with (x :: (u ++ v)).
    rewrite !expsum_cons, IH. lra.
Qed.

Lemma exp_term_nonneg x : (0 <= exp_term x)%R.
Proof.
  destruct x; simpl; try lra. left. apply exp_pos.
Qed.

Lemma expsum_nonneg v : (0 <= expsum v)%R.
Proof.
  induction v as [|x v IH]; [rewrite expsum_nil; lra|].
  rewrite expsum_cons. pose proof (exp_term_nonneg x). lra.
Qed.

Lemma expsum_pos v : Exists is_finite v -> (0 < expsum v)%R.
Proof.
  induction 1 as [x v Hx | x v _ IH]; rewrite expsum_cons.
  - destruct x; simpl in Hx; try tauto. simpl.
    pose proof (exp_pos r). pose proof (expsum_nonneg v). lra.
  - pose proof (exp_term_nonneg x). lra.
Qed.

Lemma expsum_concat (vs : list (list fval)) :
  expsum (concat vs) = foldr Rplus 0%R (map expsum vs).
Proof.
  induction vs as [|v vs IH]; [reflexivity|].
  change (concat (v :: vs)) with (v ++ concat vs).
  rewrite expsum_app, IH. reflexivity.
Qed.

(** The maximum of a block of low lanes: minus infinity when no lane is
    real, otherwise a real bound that dominates every real lane. *)
Lemma tl_max_low v :
  Forall low v ->
  (tl_max v = NInf /\ Forall (fun x => x = NInf) v) \/
  (exists m, tl_max v = Fin m /\
             Forall (fun x => match x with Fin r => (r <= m)%R | _ => True end) v).
Proof.
  induction 1 as [|x v Hx _ IH]; simpl.
  - left. split; [reflexivity | constructor].
  - unfold tl_max in *. simpl.
    destruct IH as [[Hm Hall] | [m [Hm Hall]]]; rewrite Hm.
    + destruct x; simpl in Hx; try tauto.
      * left. split; [reflexivity | constructor; auto].
      * right. exists r. split; [reflexivity|].
        constructor; [lra|].
        eapply Forall_impl; [exact Hall|]. intros y ->. exact I.
    + destruct x; simpl in Hx; try tauto.
      * right. exists m. split; [reflexivity|]. constructor; auto.
      * right. exists (Rmax r m). split; [reflexivity|].
        constructor; [apply Rmax_l|].
        eapply Forall_impl; [exact Hall|]. intros [| | |y]; auto.
        intros Hy. pose proof (Rmax_r r m). lra.
Qed.

Lemma tl_max_finite v :
  Forall low v -> Exists is_finite v -> exists m, tl_max v = Fin m.
Proof.
  intros Hl Hex. destruct (tl_max_low v Hl) as [[_ Hall] | [m [Hm _]]].
  - exfalso. apply Exists_exists in Hex. destruct Hex as [x [Hin Hx]].
    rewrite Forall_forall in Hall. rewrite (Hall x Hin) in Hx. exact Hx.
  - eauto.
Qed.

Lemma tl_sum_shifted v m :
  Forall low v ->
  tl_sum (map (fun x => fexp (fsub x (Fin m))) v) = Fin (expsum v * exp (- m)).
Proof.
  induction 1 as [|x v Hx _ IH]; unfold tl_sum in *; simpl.
  - rewrite expsum_nil. f_equal. lra.
  - rewrite IH, expsum_cons.
    destruct x; simpl in Hx; try tauto; simpl; f_equal.
    + lra.
    + unfold Rminus. rewrite exp_plus. lra.
Qed.

(** Exact value of the stable log-sum-exp of a block with at least one real
    lane: the logarithm of the sum of exponentials. *)
Lemma logsumexp_stable_low v :
  Forall low v -> Exists is_finite v ->
  logsumexp_stable v = Fin (ln (expsum v)).
Proof.
  intros Hl Hex. unfold logsumexp_stable.
  destruct (tl_max_finite v Hl Hex) as [m Hm]. rewrite Hm.
  rewrite tl_sum_shifted by exact Hl.
  pose proof (expsum_pos v Hex) as Hpos.
  pose proof (exp_pos (- m)) as Hem.
  assert (0 < expsum v * exp (- m))%R as Hprod
    by (apply Rmult_lt_0_compat; assumption).
  unfold flog. destruct (Rlt_dec _ _) as [_|Hn]; [|contradiction].
  simpl. f_equal. rewrite ln_mult by assumption. rewrite ln_exp. lra.
Qed.

Lemma Forall_low_map_Fin (l : list R) : Forall low (map Fin l).
Proof. induction l; simpl; constructor; auto with fval. Qed.

Lemma Exists_finite_map_Fin (l : list R) : l <> [] -> Exists is_finite (map Fin l).
Proof. destruct l; [congruence|]. intros _. simpl. left. exact I. Qed.

(** ** Log-sum-exp of per-chunk log-sum-exp values *)

(** C4. For every finite real vector cut into contiguous non-empty chunks
    (of any widths, so also with a shorter last chunk), the stable
    log-sum-exp of the whole vector equals the stable log-sum-exp of the
    vector of the chunks' stable log-sum-exp values. *)
Theorem logsumexp_of_chunks (chunks : list (list R)) :
  Forall (fun c => c <> []) chunks ->
  logsumexp_stable (map Fin (concat chunks)) =
  logsumexp_stable (map (fun c => logsumexp_stable (map Fin c)) chunks).
Proof.
  intros Hne.
  destruct chunks as [|c0 chunks]; [reflexivity|].
  assert (Hval : forall cs : list (list R), Forall (fun c => c <> []) cs ->
            map (fun c => logsumexp_stable (map Fin c)) cs =
            map (fun c => Fin (ln (expsum (map Fin c)))) cs).
  { intros cs Hcs. induction Hcs as [|c cs Hc _ IH]; simpl; [reflexivity|].
    rewrite IH. f_equal.
    apply logsumexp_stable_low;
      [apply Forall_low_map_Fin | apply Exists_finite_map_Fin; exact Hc]. }
  rewrite (Hval _ Hne).
  assert (Hc0 : c0 <> []) by (inversion Hne; assumption).
  rewrite logsumexp_stable_low.
  2: apply Forall_low_map_Fin.
  2: { apply Exists_finite_map_Fin. simpl. destruct c0; [congruence|]. discriminate. }
  rewrite logsumexp_stable_low.
  2: { clear. generalize (c0 :: chunks). intros cs.
       induction cs; simpl; constructor; auto with fval. }
  2: { simpl. left. exact I. }
  f_equal. f_equal.
  clear Hval Hc0. induction Hne as [|c cs Hc _ IH]; [reflexivity|].
  simpl. rewrite map_app, expsum_app, expsum_cons, IH. simpl.
  rewrite exp_ln; [reflexivity|].
  apply expsum_pos, Exists_finite_map_Fin, Hc.
Qed.

Lemma logsumexp_of_chunks_witness :
  logsumexp_stable (map Fin (concat [[1%R; 2%R]; [3%R]])) =
  logsumexp_stable (map (fun c => logsumexp_stable (map Fin c)) [[1%R; 2%R]; [3%R]]).
Proof.
  apply (logsumexp_of_chunks [[1%R; 2%R]; [3%R]]).
  repeat constructor; discriminate.
Defined.

(** ** Buffers: loads and stores *)

Lemma load_Some {A} (buf : list A) a v :
  load buf a = Some v <-> 0 <= a /\ buf !! Z.to_nat a = Some v.
Proof.
  unfold load. destruct (Z.ltb_spec a 0); split.
  - discriminate.
  - intros [? _]. lia.
  - intros. split; [lia | assumption].
  - intros [_ ?]. assumption.
Qed.

Lemma load_nat {A} (buf : list A) (i : nat) : load buf (Z.of_nat i) = buf !! i.
Proof.
  unfold load. destruct (Z.ltb_spec (Z.of_nat i) 0); [lia|].
  rewrite Nat2Z.id. reflexivity.
Qed.

Lemma load_in_bounds {A} (buf : list A) a :
  0 <= a < Z.of_nat (length buf) -> exists v, load buf a = Some v.
Proof.
  intros Ha.
  destruct (lookup_lt_is_Some_2 buf (Z.to_nat a)) as [v Hv]; [lia|].
  exists v. apply load_Some. split; [lia | exact Hv].
Qed.

Lemma store_in_bounds {A} (buf : list A) a v :
  0 <= a < Z.of_nat (length buf) ->
  store buf a v = Some (<[Z.to_nat a := v]> buf).
Proof.
  intros Ha. unfold store.
  destruct (Z.leb_spec 0 a); [|lia].
  destruct (Z.ltb_spec a (Z.of_nat (length buf))); [|lia]. reflexivity.
Qed.

Lemma load_insert_eq {A} (buf : list A) a v :
  0 <= a < Z.of_nat (length buf) ->
  load (<[Z.to_nat a := v]> buf) a = Some v.
Proof.
  intros Ha. apply load_Some. split; [lia|].
  apply list_lookup_insert_eq. lia.
Qed.

Lemma load_insert_ne {A} (buf : list A) a b v :
  0 <= a -> a <> b -> load (<[Z.to_nat a := v]> buf) b = load buf b.
Proof.
  intros Ha Hab. unfold load. destruct (Z.ltb_spec b 0); [reflexivity|].
  apply list_lookup_insert_ne. lia.
Qed.

(** ** Launch grids *)

Section Programs.
Context {St : Type} (prog : Z -> St -> option St).

(** Hoare-style rule for a launch: an invariant indexed by the number of
    programs already run. *)
Lemma run_programs_inv (Inv : nat -> St -> Prop) (ids : list Z) (s : St) :
  Inv 0%nat s ->
  (forall k i s0, ids !! k = Some i -> Inv k s0 ->
     exists s1, prog i s0 = Some s1 /\ Inv (S k) s1) ->
  exists s', run_programs prog ids s = Some s' /\ Inv (length ids) s'.
Proof.
  revert Inv s. induction ids as [|i ids IH]; intros Inv s H0 Hstep.
  - exists s. split; [reflexivity | exact H0].
  - destruct (Hstep 0%nat i s eq_refl H0) as [s1 [Hp H1]].
    destruct (IH (fun k => Inv (S k)) s1 H1) as [s' [Hr Hs']].
    + intros k j s0 Hk Hinv. apply (Hstep (S k) j s0); assumption.
    + exists s'. split; [|exact Hs']. simpl. rewrite Hp. exact Hr.
Qed.

(** A program that faults in every state makes the launch fault. *)
Lemma run_programs_fault (ids : list Z) (i : Z) :
  i ∈ ids -> (forall s, prog i s = None) ->
  forall s, run_programs prog ids s = None.
Proof.
  intros Hin Hfault. induction ids as [|j ids IH]; intros s.
  - inversion Hin.
  - simpl. destruct (decide (j = i)) as [->|Hne].
    + rewrite Hfault. reflexivity.
    + destruct (prog j s) as [s'|]; [|reflexivity]. simpl.
      apply IH. inversion Hin; subst; [contradiction | assumption].
Qed.

End Programs.

Lemma lookup_seqZ_0 (n : Z) (k : nat) (i : Z) :
  seqZ 0 n !! k = Some i -> i = Z.of_nat k /\ Z.of_nat k < n.
Proof. intros H. apply lookup_seqZ in H. lia. Qed.

(** ** Masked block loads *)

Lemma tl_load_masked_map buf ptr offs (p : Z -> bool) other (f : Z -> fval) :
  (forall o, o ∈ offs -> p o = true -> load buf (ptr + o) = Some (f o)) ->
  tl_load_masked buf ptr offs (map p offs) other =
  Some (map (fun o => if p o then f o else other) offs).
Proof.
  unfold tl_load_masked. induction offs as [|o offs IH]; intros Hload.
  - reflexivity.
  - simpl. destruct (p o) eqn:Hp.
    + rewrite (Hload o) by (try assumption; left).
      simpl. rewrite IH; [reflexivity|].
      intros o' Ho'. apply Hload. right. exact Ho'.
    + simpl. rewrite IH; [reflexivity|].
      intros o' Ho'. apply Hload. right. exact Ho'.
Qed.

Lemma row_of_length t r :
  rows_in_bounds t -> 0 <= r < shape0 t ->
  Z.of_nat (length (row_of t r)) = shape1 t.
Proof.
  intros [HV Hb] Hr. destruct (Hb r Hr) as [H0 H1].
  unfold row_of. rewrite length_take, length_drop. lia.
Qed.

Lemma row_of_load t r j :
  rows_in_bounds t -> 0 <= r < shape0 t -> 0 <= j < shape1 t ->
  load (storage t) (r * stride0 t + j) = row_of t r !! Z.to_nat j.
Proof.
  intros [HV Hb] Hr Hj. destruct (Hb r Hr) as [H0 H1].
  unfold load, row_of.
  destruct (Z.ltb_spec (r * stride0 t + j) 0); [lia|].
  rewrite lookup_take. destruct (decide _) as [_|Hn]; [|lia].
  rewrite lookup_drop. f_equal. lia.
Qed.

Lemma padded_length row n :
  Z.of_nat (length row) <= n -> Z.of_nat (length (padded row n)) = n.
Proof.
  intros H. unfold padded. rewrite length_app, length_replicate. lia.
Qed.

Lemma padded_lookup row n (c : Z) :
  0 <= c < n -> Z.of_nat (length row) <= n ->
  padded row n !! Z.to_nat c =
  Some (if c <? Z.of_nat (length row) then default NInf (row !! Z.to_nat c) else NInf).
Proof.
  intros Hc Hn. unfold padded.
  destruct (Z.ltb_spec c (Z.of_nat (length row))).
  - rewrite lookup_app_l by lia.
    destruct (lookup_lt_is_Some_2 row (Z.to_nat c)) as [v Hv]; [lia|].
    rewrite Hv. reflexivity.
  - rewrite lookup_app_r by lia. apply lookup_replicate. split; [reflexivity | lia].
Qed.

(** The lanes a program loads for block [k]: the matching slice of the
    padded row. *)
Lemma load_block t r k B n :
  rows_in_bounds t -> 0 <= r < shape0 t ->
  0 <= k -> 0 <= B -> (k + 1) * B <= n -> shape1 t <= n ->
  tl_load_masked (storage t) (r * stride0 t)
    (map (Z.add (k * B)) (seqZ 0 B))
    (map (fun c => c <? shape1 t) (map (Z.add (k * B)) (seqZ 0 B))) NInf =
  Some (block_of (row_of t r) n k B).
Proof.
  intros Hwf Hr Hk HB Hn HV.
  pose proof (row_of_length t r Hwf Hr) as Hlen.
  rewrite (tl_load_masked_map _ _ _ _ _
             (fun c => default NInf (row_of t r !! Z.to_nat c))).
  - f_equal. unfold block_of. apply list_eq. intros i.
    rewrite list_lookup_fmap, list_lookup_fmap.
    rewrite lookup_take. destruct (decide (i < Z.to_nat B)%nat) as [Hi|Hi].
    + rewrite lookup_drop.
      assert (seqZ 0 B !! i = Some (Z.of_nat i)) as ->
        by (apply lookup_seqZ; lia).
      simpl.
      replace (Z.to_nat (k * B) + i)%nat with (Z.to_nat (k * B + Z.of_nat i)) by nia.
      rewrite padded_lookup by nia. rewrite Hlen. reflexivity.
    + rewrite lookup_ge_None_2; [reflexivity|]. rewrite length_seqZ. lia.
  - intros o Ho Hlt. apply Z.ltb_lt in Hlt.
    apply list_elem_of_fmap in Ho. destruct Ho as [j [-> Hj]].
    apply elem_of_seqZ in Hj.
    rewrite row_of_load by (try assumption; nia).
    destruct (lookup_lt_is_Some_2 (row_of t r) (Z.to_nat (k * B + j))) as [v Hv];
      [nia|]. rewrite Hv. reflexivity.
Qed.

Lemma block_of_0 row n :
  Z.of_nat (length row) <= n -> block_of row n 0 n = padded row n.
Proof.
  intros H. unfold block_of. simpl. rewrite drop_0.
  apply take_ge. pose proof (padded_length row n H). lia.
Qed.

(** ** The single-pass forward kernel *)

Lemma to_int32_id z : int32_range z -> to_int32 z = z.
Proof.
  unfold int32_range, to_int32. intros H.
  rewrite Z.mod_small by lia. lia.
Qed.

Lemma valid_label_int32 V l :
  V <= 2 ^ 31 -> valid_label V l -> int32_range l.
Proof. unfold valid_label, int32_range, IGNORE. lia. Qed.

Lemma map_to_float32 (v : list fval) : map to_float32 v = v.
Proof. induction v; simpl; [reflexivity | f_equal; assumption]. Qed.

Lemma map_Zadd_0 (B : Z) (l : list Z) : map (Z.add (0 * B)) l = l.
Proof. induction l; simpl; [reflexivity | f_equal; assumption]. Qed.

(** The two vector statements of the kernels are the pre-transform applied
    lane by lane. *)
Lemma kernel_pre_transform cfg (v : list fval) :
  map to_float32
    (let v1 := if DO_LOGIT_SCALING cfg
               then map (fun x => fmul (Fin (LOGIT_SCALE cfg)) x) v else v in
     if DO_SOFTCAPPING cfg
     then map (fun x => fmul (Fin (SOFTCAP cfg))
                          (triton_tanh (fdiv x (Fin (SOFTCAP cfg))))) v1
     else v1) =
  map (pre_transform cfg) v.
Proof.
  rewrite map_to_float32. unfold pre_transform.
  destruct (DO_LOGIT_SCALING cfg), (DO_SOFTCAPPING cfg); simpl;
    rewrite ?map_map, ?map_id; reflexivity.
Qed.

(** One program of the single-pass kernel, given the lanes it loads. *)
Lemma forward_program_eval logits stride labels V B cfg r L E label lanes :
  load labels r = Some label ->
  tl_load_masked logits (r * stride) (seqZ 0 B)
    (map (fun c => c <? V) (seqZ 0 B)) NInf = Some lanes ->
  0 <= r < Z.of_nat (length L) -> 0 <= r < Z.of_nat (length E) ->
  let lse := logsumexp_stable (map (pre_transform cfg) lanes) in
  _cross_entropy_forward logits stride labels V B cfg r (L, E) =
  if to_int32 label =? IGNORE
  then Some (<[Z.to_nat r := Fin 0]> L, <[Z.to_nat r := lse]> E)
  else x ← load logits (r * stride + to_int32 label);
       Some (<[Z.to_nat r := fsub lse (pre_transform cfg x)]> L,
             <[Z.to_nat r := lse]> E).
Proof.
  intros Hlab Hlanes HL HE lse.
  unfold _cross_entropy_forward. rewrite Hlab. simpl. rewrite Hlanes. simpl.
  pose proof (kernel_pre_transform cfg lanes) as Hpre. simpl in Hpre.
  rewrite Hpre. fold (logsumexp_stable (map (pre_transform cfg) lanes)).
  fold lse.
  destruct (to_int32 label =? IGNORE); simpl.
  - rewrite (store_in_bounds E) by assumption. simpl.
    rewrite (store_in_bounds L) by assumption. reflexivity.
  - destruct (load logits (r * stride + to_int32 label)) as [x|]; [|reflexivity].
    simpl. rewrite (store_in_bounds E) by assumption. simpl.
    rewrite (store_in_bounds L) by assumption. reflexivity.
Qed.

Lemma forward_program_row t labels B cfg r L E label :
  rows_in_bounds t -> 0 <= r < shape0 t -> shape1 t <= B ->
  load labels r = Some label -> int32_range label -> valid_label (shape1 t) label ->
  Z.of_nat (length L) = shape0 t -> Z.of_nat (length E) = shape0 t ->
  _cross_entropy_forward (storage t) (stride0 t) labels (shape1 t) B cfg r (L, E) =
  Some (<[Z.to_nat r := row_loss cfg (row_of t r) B label]> L,
        <[Z.to_nat r := row_logsumexp cfg (row_of t r) B]> E).
Proof.
  intros Hwf Hr HB Hlab H32 Hval HL HE.
  assert (0 <= shape1 t) as HV by (destruct Hwf; assumption).
  pose proof (row_of_length t r Hwf Hr) as Hlen.
  pose proof (load_block t r 0 B B Hwf Hr) as Hblk.
  rewrite map_Zadd_0 in Hblk.
  rewrite block_of_0 in Hblk by lia.
  rewrite (forward_program_eval _ _ _ _ _ _ _ _ _ label (padded (row_of t r) B))
    by (try assumption; try lia; apply Hblk; lia).
  rewrite to_int32_id by assumption.
  unfold row_loss, row_logsumexp.
  destruct (Z.eqb_spec label IGNORE) as [Heq|Hne]; [reflexivity|].
  destruct Hval as [?|Hval]; [contradiction|].
  rewrite row_of_load by assumption.
  destruct (lookup_lt_is_Some_2 (row_of t r) (Z.to_nat label)) as [x Hx]; [lia|].
  rewrite Hx. simpl. rewrite (list_lookup_total_correct _ _ _ Hx). reflexivity.
Qed.

(** The whole single-pass launch: every slot of both output buffers holds
    the value of its row. *)
Lemma single_pass_path_spec t labels B cfg losses :
  rows_in_bounds t -> shape1 t <= B ->
  Z.of_nat (length labels) = shape0 t ->
  Forall int32_range labels -> Forall (valid_label (shape1 t)) labels ->
  Z.of_nat (length losses) = shape0 t ->
  exists L E,
    single_pass_path t labels B cfg losses = Some (L, E) /\
    Z.of_nat (length L) = shape0 t /\ Z.of_nat (length E) = shape0 t /\
    forall (r : nat) label, labels !! r = Some label ->
      L !! r = Some (row_loss cfg (row_of t (Z.of_nat r)) B label) /\
      E !! r = Some (row_logsumexp cfg (row_of t (Z.of_nat r)) B).
Proof.
  intros Hwf HB Hlabels H32 Hval Hlosses.
  unfold single_pass_path, launch_grid1.
  set (Inv := fun (k : nat) (s : list fval * list fval) =>
    Z.of_nat (length s.1) = shape0 t /\ Z.of_nat (length s.2) = shape0 t /\
    forall (r : nat) label, (r < k)%nat -> labels !! r = Some label ->
      s.1 !! r = Some (row_loss cfg (row_of t (Z.of_nat r)) B label) /\
      s.2 !! r = Some (row_logsumexp cfg (row_of t (Z.of_nat r)) B)).
  destruct (run_programs_inv
              (_cross_entropy_forward (storage t) (stride0 t) labels (shape1 t) B cfg)
              Inv (seqZ 0 (shape0 t)) (losses, torch_empty (shape0 t)))
    as [[L E] [Hrun [HL [HE Hall]]]].
  - split; [exact Hlosses|]. split.
    + simpl. unfold torch_empty. rewrite length_replicate. lia.
    + intros r label Hr. lia.
  - intros k i [L E] Hk [HL [HE Hall]]. simpl in HL, HE, Hall.
    apply lookup_seqZ_0 in Hk. destruct Hk as [-> Hk].
    destruct (lookup_lt_is_Some_2 labels k) as [label Hlab]; [lia|].
    eexists. split.
    + apply forward_program_row with (label := label); try assumption; try lia.
      * rewrite load_nat. exact Hlab.
      * eapply Forall_lookup_1 in H32; eauto.
      * eapply Forall_lookup_1 in Hval; eauto.
    + rewrite Nat2Z.id. split; [|split]; simpl.
      * rewrite length_insert. exact HL.
      * rewrite length_insert. exact HE.
      * intros r label' Hr Hlab'.
        destruct (decide (r = k)) as [->|Hne].
        -- rewrite Hlab in Hlab'. inversion Hlab'; subst.
           rewrite !list_lookup_insert_eq by lia. split; reflexivity.
        -- rewrite !list_lookup_insert_ne by lia. apply Hall; [lia | assumption].
  - exists L, E. split; [exact Hrun|]. split; [exact HL|]. split; [exact HE|].
    intros r label Hlab. apply Hall; [|exact Hlab].
    apply lookup_lt_Some in Hlab. rewrite length_seqZ. lia.
Qed.

(** ** The chunked forward kernel and the chunk reduction *)

Lemma chunked_program_eval logits stride labels V N B cfg r k L E label lanes :
  load labels r = Some label ->
  tl_load_masked logits (r * stride) (map (Z.add (k * B)) (seqZ 0 B))
    (map (fun c => c <? V) (map (Z.add (k * B)) (seqZ 0 B))) NInf = Some lanes ->
  0 <= r < Z.of_nat (length L) -> 0 <= r * N + k < Z.of_nat (length E) ->
  let lse := logsumexp_stable (map (pre_transform cfg) lanes) in
  _chunked_cross_entropy_forward logits stride labels V N B cfg r k (L, E) =
  L' ← (if k =? 0 then
          if to_int32 label =? IGNORE then Some (<[Z.to_nat r := Fin 0]> L)
          else x ← load logits (r * stride + to_int32 label);
               Some (<[Z.to_nat r := fmul (Fin (-1)) (pre_transform cfg x)]> L)
        else Some L);
  Some (L', <[Z.to_nat (r * N + k) := lse]> E).
Proof.
  intros Hlab Hlanes HL HE lse.
  unfold _chunked_cross_entropy_forward. rewrite Hlab. simpl. rewrite Hlanes. simpl.
  pose proof (kernel_pre_transform cfg lanes) as Hpre. simpl in Hpre.
  rewrite Hpre. fold (logsumexp_stable (map (pre_transform cfg) lanes)).
  fold lse.
  destruct (k =? 0); simpl.
  - destruct (to_int32 label =? IGNORE); simpl.
    + rewrite (store_in_bounds L) by assumption. simpl.
      rewrite (store_in_bounds E) by assumption. reflexivity.
    + destruct (load logits (r * stride + to_int32 label)) as [x|]; [|reflexivity].
      simpl. rewrite (store_in_bounds L) by assumption. simpl.
      rewrite (store_in_bounds E) by assumption. reflexivity.
  - rewrite (store_in_bounds E) by assumption. reflexivity.
Qed.

Lemma chunked_program_row t labels N B cfg r k L E label :
  rows_in_bounds t -> 0 <= r < shape0 t ->
  0 <= k < N -> 0 <= B -> shape1 t <= N * B ->
  load labels r = Some label -> int32_range label -> valid_label (shape1 t) label ->
  Z.of_nat (length L) = shape0 t -> Z.of_nat (length E) = shape0 t * N ->
  _chunked_cross_entropy_forward (storage t) (stride0 t) labels (shape1 t) N B cfg
    r k (L, E) =
  Some (if k =? 0 then <[Z.to_nat r := label_term cfg (row_of t r) label]> L else L,
        <[Z.to_nat (r * N + k) := chunk_logsumexp cfg (row_of t r) N B k]> E).
Proof.
  intros Hwf Hr Hk HB HV Hlab H32 Hval HL HE.
  pose proof (row_of_length t r Hwf Hr) as Hlen.
  rewrite (chunked_program_eval _ _ _ _ _ _ _ _ _ _ _ label
             (block_of (row_of t r) (N * B) k B)).
  - rewrite to_int32_id by assumption. unfold label_term, chunk_logsumexp.
    destruct (k =? 0); [|reflexivity].
    destruct (Z.eqb_spec label IGNORE) as [Heq|Hne]; [reflexivity|].
    destruct Hval as [?|Hval]; [contradiction|].
    rewrite row_of_load by assumption.
    destruct (lookup_lt_is_Some_2 (row_of t r) (Z.to_nat label)) as [x Hx]; [lia|].
    rewrite Hx. simpl. rewrite (list_lookup_total_correct _ _ _ Hx). reflexivity.
  - assumption.
  - apply load_block; try assumption; try lia. nia.
  - lia.
  - nia.
Qed.

(** The chunk launch: the loss slot of every row holds the label term and
    the slot of every (row, chunk) pair holds the chunk's log-sum-exp. *)
Lemma chunk_launch_spec t labels N B cfg losses :
  rows_in_bounds t -> 0 < N -> 0 <= B -> shape1 t <= N * B ->
  Z.of_nat (length labels) = shape0 t ->
  Forall int32_range labels -> Forall (valid_label (shape1 t)) labels ->
  Z.of_nat (length losses) = shape0 t ->
  exists L E,
    launch_grid2 (shape0 t) N
      (_chunked_cross_entropy_forward (storage t) (stride0 t) labels
         (shape1 t) N B cfg)
      (losses, torch_empty (shape0 t * N)) = Some (L, E) /\
    Z.of_nat (length L) = shape0 t /\ Z.of_nat (length E) = shape0 t * N /\
    (forall (r : nat) label, labels !! r = Some label ->
       L !! r = Some (label_term cfg (row_of t (Z.of_nat r)) label)) /\
    (forall (r : nat) (k : Z), Z.of_nat r < shape0 t -> 0 <= k < N ->
       E !! Z.to_nat (Z.of_nat r * N + k) =
       Some (chunk_logsumexp cfg (row_of t (Z.of_nat r)) N B k)).
Proof.
  intros Hwf HN HB HV Hlabels H32 Hval Hlosses.
  unfold launch_grid2.
  set (Done := fun (n : nat) (s : list fval * list fval) =>
    (forall (r : nat) label, (r < n)%nat -> labels !! r = Some label ->
       s.1 !! r = Some (label_term cfg (row_of t (Z.of_nat r)) label)) /\
    (forall (r : nat) (k : Z), (r < n)%nat -> 0 <= k < N ->
       s.2 !! Z.to_nat (Z.of_nat r * N + k) =
       Some (chunk_logsumexp cfg (row_of t (Z.of_nat r)) N B k))).
  set (Len := fun (s : list fval * list fval) =>
    Z.of_nat (length s.1) = shape0 t /\ Z.of_nat (length s.2) = shape0 t * N).
  destruct (run_programs_inv
    (fun i => run_programs
       (_chunked_cross_entropy_forward (storage t) (stride0 t) labels
          (shape1 t) N B cfg i) (seqZ 0 N))
    (fun n s => Len s /\ Done n s)
    (seqZ 0 (shape0 t)) (losses, torch_empty (shape0 t * N)))
    as [[L E] [Hrun [[HL HE] [HdL HdE]]]].
  - split; [split|split]; simpl.
    + exact Hlosses.
    + unfold torch_empty. rewrite length_replicate. nia.
    + intros; lia.
    + intros; lia.
  - intros n i s Hn [HLen [HdL HdE]].
    apply lookup_seqZ_0 in Hn. destruct Hn as [-> Hn].
    destruct (lookup_lt_is_Some_2 labels n) as [label Hlab]; [lia|].
    assert (int32_range label) as Hl32 by (eapply Forall_lookup_1 in H32; eauto).
    assert (valid_label (shape1 t) label) as Hlv
      by (eapply Forall_lookup_1 in Hval; eauto).
    destruct (run_programs_inv
      (_chunked_cross_entropy_forward (storage t) (stride0 t) labels
         (shape1 t) N B cfg (Z.of_nat n))
      (fun m s' => Len s' /\ Done n s' /\
         ((0 < m)%nat ->
            s'.1 !! n = Some (label_term cfg (row_of t (Z.of_nat n)) label)) /\
         (forall k, 0 <= k < Z.of_nat m ->
            s'.2 !! Z.to_nat (Z.of_nat n * N + k) =
            Some (chunk_logsumexp cfg (row_of t (Z.of_nat n)) N B k)))
      (seqZ 0 N) s) as [s' [Hrun' [HLen' [[HdL' HdE'] [HrL HrE]]]]].
    + split; [exact HLen|]. split; [split; assumption|].
      split; intros; lia.
    + intros m k [L0 E0] Hm [[HL0 HE0] [[HdL0 HdE0] [HrL0 HrE0]]].
      simpl in HL0, HE0, HdL0, HdE0, HrL0, HrE0.
      apply lookup_seqZ_0 in Hm. destruct Hm as [-> Hm].
      eexists. split.
      * apply chunked_program_row with (label := label); try assumption; try lia.
        rewrite load_nat. exact Hlab.
      * assert (Hlen1 : forall X : fval,
                  length (if Z.of_nat m =? 0
                          then <[Z.to_nat (Z.of_nat n) := X]> L0 else L0) = length L0)
          by (intros X; destruct (Z.of_nat m =? 0); [apply length_insert | reflexivity]).
        split; [split; simpl|].
        { rewrite Hlen1. exact HL0. }
        { rewrite length_insert. exact HE0. }
        split; [split; simpl|split; simpl].
        { intros r lab Hr Hlr.
          destruct (Z.of_nat m =? 0); [|apply HdL0; assumption].
          rewrite list_lookup_insert_ne by lia. apply HdL0; assumption. }
        { intros r k Hr Hk. rewrite list_lookup_insert_ne by nia.
          apply HdE0; assumption. }
        { intros _. rewrite Nat2Z.id.
          destruct (Z.eqb_spec (Z.of_nat m) 0) as [Hm0|Hm0].
          - apply list_lookup_insert_eq. lia.
          - apply HrL0. lia. }
        { intros k Hk.
          destruct (decide (k = Z.of_nat m)) as [->|Hne].
          - apply list_lookup_insert_eq. nia.
          - rewrite list_lookup_insert_ne by nia. apply HrE0. lia. }
    + exists s'. split; [exact Hrun'|]. split; [exact HLen'|].
      rewrite length_seqZ in HrL, HrE.
      split.
      * intros r lab Hr Hlr. destruct (decide (r = n)) as [->|Hne].
        -- rewrite Hlab in Hlr. inversion Hlr; subst. apply HrL. lia.
        -- apply HdL'; [lia | assumption].
      * intros r k Hr Hk. destruct (decide (r = n)) as [->|Hne].
        -- apply HrE. lia.
        -- apply HdE'; [lia | assumption].
  - exists L, E. rewrite length_seqZ in HdL, HdE.
    split; [exact Hrun|]. split; [exact HL|]. split; [exact HE|]. split.
    + intros r label Hlab. apply HdL; [|exact Hlab].
      apply lookup_lt_Some in Hlab. lia.
    + intros r k Hr Hk. apply HdE; [lia | assumption].
Qed.

Lemma rows_of_lookup (E : list fval) (n_rows N : Z) (r : nat) (f : Z -> fval) :
  Z.of_nat r < n_rows -> 0 <= N ->
  (forall k, 0 <= k < N -> E !! Z.to_nat (Z.of_nat r * N + k) = Some (f k)) ->
  rows_of E n_rows N !! r = Some (map f (seqZ 0 N)).
Proof.
  intros Hr HN HE. unfold rows_of. rewrite list_lookup_fmap.
  assert (seqZ 0 n_rows !! r = Some (Z.of_nat r)) as ->
    by (apply lookup_seqZ; lia).
  simpl. f_equal. apply list_eq. intros i.
  rewrite lookup_take, list_lookup_fmap.
  destruct (decide (i < Z.to_nat N)%nat) as [Hi|Hi].
  - rewrite lookup_drop.
    assert (seqZ 0 N !! i = Some (Z.of_nat i)) as ->
      by (apply lookup_seqZ; lia).
    simpl. rewrite <- (HE (Z.of_nat i)) by lia. f_equal. nia.
  - rewrite lookup_ge_None_2; [reflexivity|]. rewrite length_seqZ. lia.
Qed.

Lemma rows_of_length (E : list fval) (n_rows N : Z) :
  length (rows_of E n_rows N) = Z.to_nat n_rows.
Proof. unfold rows_of. rewrite length_map, length_seqZ. reflexivity. Qed.

(** The chunked branch as a whole. *)
Lemma chunked_path_spec t labels N B cfg losses :
  rows_in_bounds t -> 0 < N -> 0 <= B -> shape1 t <= N * B ->
  Z.of_nat (length labels) = shape0 t ->
  Forall int32_range labels -> Forall (valid_label (shape1 t)) labels ->
  Z.of_nat (length losses) = shape0 t ->
  exists L E,
    chunked_path t labels N B cfg losses = Some (L, E) /\
    Z.of_nat (length L) = shape0 t /\ Z.of_nat (length E) = shape0 t /\
    forall (r : nat) label, labels !! r = Some label ->
      L !! r = Some (chunked_row_loss cfg (row_of t (Z.of_nat r)) N B label) /\
      E !! r = Some (chunked_row_logsumexp cfg (row_of t (Z.of_nat r)) N B).
Proof.
  intros Hwf HN HB HV Hlabels H32 Hval Hlosses.
  destruct (chunk_launch_spec t labels N B cfg losses)
    as [L [E [Hrun [HL [HE [HLr HEr]]]]]]; try assumption.
  unfold chunked_path. rewrite Hrun. simpl.
  eexists _, _. split; [reflexivity|].
  assert (HR : forall r : nat, Z.of_nat r < shape0 t ->
            torch_logsumexp (rows_of E (shape0 t) N) !! r =
            Some (chunked_row_logsumexp cfg (row_of t (Z.of_nat r)) N B)).
  { intros r Hr. unfold torch_logsumexp. rewrite list_lookup_fmap.
    rewrite (rows_of_lookup E (shape0 t) N r
               (chunk_logsumexp cfg (row_of t (Z.of_nat r)) N B))
      by (try lia; intros k Hk; apply HEr; lia).
    reflexivity. }
  assert (Hlen2 : length (torch_logsumexp (rows_of E (shape0 t) N)) =
                  Z.to_nat (shape0 t)).
  { unfold torch_logsumexp. rewrite length_map. apply rows_of_length. }
  split; [|split].
  - unfold masked_fill. rewrite !length_zip_with, length_map, Hlen2. lia.
  - lia.
  - intros r label Hlab.
    assert (Z.of_nat r < shape0 t) as Hr by (apply lookup_lt_Some in Hlab; lia).
    split; [|apply HR; exact Hr].
    unfold masked_fill. rewrite !lookup_zip_with.
    rewrite (HLr r label Hlab), (HR r Hr). simpl.
    rewrite list_lookup_fmap, Hlab. simpl.
    unfold chunked_row_loss. destruct (label =? IGNORE); reflexivity.
Qed.

(** ** Chunk count and block width *)

Lemma ceil_div_bounds n d :
  0 < d -> 0 < n ->
  (ceil_div n d - 1) * d < n <= ceil_div n d * d.
Proof.
  intros Hd Hn. unfold ceil_div.
  pose proof (Z.div_mod n d ltac:(lia)) as Hdm.
  pose proof (Z.mod_pos_bound n d Hd) as Hm.
  destruct (Z.eqb_spec (n mod d) 0); nia.
Qed.


Lemma ceil_div_one n d :
  0 < d -> 0 < n -> (ceil_div n d = 1 <-> n <= d).
Proof.
  intros Hd Hn. pose proof (ceil_div_bounds n d Hd Hn). split; intros; nia.
Qed.

Lemma ceil_div_zero d : ceil_div 0 d = 0.
Proof. unfold ceil_div. rewrite Zdiv_0_l, Zmod_0_l. reflexivity. Qed.

Lemma next_power_of_2_ge n : 0 < n -> n <= next_power_of_2 n.
Proof.
  intros Hn. unfold next_power_of_2. apply Z.log2_up_le_pow2; [exact Hn | lia].
Qed.

Lemma calculate_settings_fits n :
  0 < n <= MAX_FUSED_SIZE -> calculate_settings n = Ok (next_power_of_2 n).
Proof.
  intros Hn. unfold calculate_settings.
  assert (next_power_of_2 n <= MAX_FUSED_SIZE) as Hle.
  { unfold next_power_of_2, MAX_FUSED_SIZE in *.
    change 65536 with (2 ^ 16).
    apply Z.pow_le_mono_r; [lia|].
    apply Z.log2_up_le_pow2; [lia|]. exact (proj2 Hn). }
  destruct (Z.gtb_spec (next_power_of_2 n) MAX_FUSED_SIZE); [lia | reflexivity].
Qed.

(** ** [forward], branch by branch *)

Lemma forward_branches t labels softcap scale :
  Fast_CrossEntropyLoss_forward t labels softcap scale =
  let cfg := forward_config softcap scale in
  let n_chunks := ceil_div (shape1 t) MAX_FUSED_SIZE in
  if n_chunks =? 1 then
    match calculate_settings (shape1 t) with
    | Raised e => Raised e
    | Ok BLOCK_SIZE =>
        match single_pass_path t labels BLOCK_SIZE cfg (torch_empty (shape0 t)) with
        | None => Raised DeviceFault
        | Some (losses, logsumexp) =>
            Ok (losses, saved_context t labels softcap scale logsumexp)
        end
    end
  else
    match chunked_path t labels n_chunks MAX_FUSED_SIZE cfg (torch_empty (shape0 t)) with
    | None => Raised DeviceFault
    | Some (losses, logsumexp) =>
        Ok (losses, saved_context t labels softcap scale logsumexp)
    end.
Proof. reflexivity. Qed.

Lemma forward_single_spec t labels softcap scale :
  rows_in_bounds t -> 0 < shape1 t <= MAX_FUSED_SIZE ->
  Z.of_nat (length labels) = shape0 t ->
  Forall (valid_label (shape1 t)) labels ->
  let cfg := forward_config softcap scale in
  let B := next_power_of_2 (shape1 t) in
  exists losses ctx,
    Fast_CrossEntropyLoss_forward t labels softcap scale = Ok (losses, ctx) /\
    ctx = saved_context t labels softcap scale (saved_logsumexp ctx) /\
    Z.of_nat (length losses) = shape0 t /\
    Z.of_nat (length (saved_logsumexp ctx)) = shape0 t /\
    forall (r : nat) label, labels !! r = Some label ->
      losses !! r = Some (row_loss cfg (row_of t (Z.of_nat r)) B label) /\
      saved_logsumexp ctx !! r = Some (row_logsumexp cfg (row_of t (Z.of_nat r)) B).
Proof.
  intros Hwf HV Hlabels Hval cfg B.
  assert (Forall int32_range labels) as H32.
  { eapply Forall_impl; [exact Hval|]. intros l Hl.
    apply (valid_label_int32 (shape1 t)); [|exact Hl].
    unfold MAX_FUSED_SIZE in HV. lia. }
  destruct (single_pass_path_spec t labels B cfg (torch_empty (shape0 t)))
    as [L [E [Hrun [HL [HE Hall]]]]]; try assumption.
  - apply next_power_of_2_ge. lia.
  - unfold torch_empty. rewrite length_replicate. lia.
  - rewrite forward_branches. cbv zeta.
    assert (ceil_div (shape1 t) MAX_FUSED_SIZE = 1) as ->
      by (apply ceil_div_one; unfold MAX_FUSED_SIZE in *; lia).
    simpl (1 =? 1). cbv iota.
    rewrite calculate_settings_fits by exact HV.
    fold cfg B. rewrite Hrun.
    eexists _, _. split; [reflexivity|]. simpl.
    split; [reflexivity|].
    split; [exact HL|]. split; [exact HE|]. exact Hall.
Qed.

Lemma forward_chunked_spec t labels softcap scale :
  rows_in_bounds t -> MAX_FUSED_SIZE < shape1 t ->
  Z.of_nat (length labels) = shape0 t ->
  Forall int32_range labels ->
  Forall (valid_label (shape1 t)) labels ->
  let cfg := forward_config softcap scale in
  let N := ceil_div (shape1 t) MAX_FUSED_SIZE in
  exists losses ctx,
    Fast_CrossEntropyLoss_forward t labels softcap scale = Ok (losses, ctx) /\
    ctx = saved_context t labels softcap scale (saved_logsumexp ctx) /\
    Z.of_nat (length losses) = shape0 t /\
    Z.of_nat (length (saved_logsumexp ctx)) = shape0 t /\
    forall (r : nat) label, labels !! r = Some label ->
      losses !! r =
        Some (chunked_row_loss cfg (row_of t (Z.of_nat r)) N MAX_FUSED_SIZE label) /\
      saved_logsumexp ctx !! r =
        Some (chunked_row_logsumexp cfg (row_of t (Z.of_nat r)) N MAX_FUSED_SIZE).
Proof.
  intros Hwf HV Hlabels H32 Hval cfg N.
  assert (0 < MAX_FUSED_SIZE) as Hcap by reflexivity.
  pose proof (ceil_div_bounds (shape1 t) MAX_FUSED_SIZE Hcap ltac:(lia)) as Hb.
  fold N in Hb.
  assert (N <> 1) as HN1 by (intros HN1; rewrite HN1 in Hb; lia).
  destruct (chunked_path_spec t labels N MAX_FUSED_SIZE cfg (torch_empty (shape0 t)))
    as [L [E [Hrun [HL [HE Hall]]]]]; try assumption; try lia.
  - unfold torch_empty. rewrite length_replicate. lia.
  - rewrite forward_branches. cbv zeta. fold N.
    destruct (Z.eqb_spec N 1) as [?|_]; [contradiction|].
    fold cfg. rewrite Hrun.
    eexists _, _. split; [reflexivity|]. simpl.
    split; [reflexivity|].
    split; [exact HL|]. split; [exact HE|]. exact Hall.
Qed.

(** ** The backward kernel *)

Lemma fmul_comm a b : fmul a b = fmul b a.
Proof.
  destruct a, b; simpl; try reflexivity. f_equal. apply Rmult_comm.
Qed.

(** The vector statements of the backward kernel, lane by lane. *)
Lemma backward_lanes cfg (cols : list Z) (xs : list fval) lse dl label_idx :
  (let x := if DO_LOGIT_SCALING cfg
            then map (fun v => fmul v (Fin (LOGIT_SCALE cfg))) xs else xs in
   let partial := map (fun v => triton_tanh (fdiv v (Fin (SOFTCAP cfg)))) x in
   let x := if DO_SOFTCAPPING cfg
            then map (fun p => fmul (Fin (SOFTCAP cfg)) p) partial else x in
   let y := map (fun v => fexp (fsub (to_float32 v) lse)) x in
   let y := zip_with (fun c v => if c =? label_idx then fsub v (Fin 1) else v)
              cols y in
   let y := if DO_LOGIT_SCALING cfg
            then map (fun v => fmul v (Fin (LOGIT_SCALE cfg))) y else y in
   let y := if DO_SOFTCAPPING cfg
            then zip_with (fun v p => fmul v (fsub (Fin 1) (fmul p p))) y partial
            else y in
   map (fun v => fmul dl v) y) =
  zip_with (fun c v => grad_entry cfg v lse dl (c =? label_idx)) cols xs.
Proof.
  unfold grad_entry, pre_transform, scaled_logit, to_float32.
  revert xs. induction cols as [|c cols IH]; intros xs.
  - destruct (DO_LOGIT_SCALING cfg), (DO_SOFTCAPPING cfg); reflexivity.
  - destruct xs as [|v xs].
    + destruct (DO_LOGIT_SCALING cfg), (DO_SOFTCAPPING cfg); reflexivity.
    + specialize (IH xs). revert IH.
      destruct (DO_LOGIT_SCALING cfg), (DO_SOFTCAPPING cfg); simpl;
        intros IH; rewrite IH; f_equal;
        rewrite ?(fmul_comm v (Fin (LOGIT_SCALE cfg))); reflexivity.
Qed.

(** A masked block store: the unmasked lanes are written, every other
    address keeps its value. *)
Lemma tl_store_masked_spec buf ptr offs vals (p : Z -> bool) :
  length vals = length offs -> NoDup offs ->
  (forall o, o ∈ offs -> p o = true -> 0 <= ptr + o < Z.of_nat (length buf)) ->
  exists buf',
    tl_store_masked buf ptr offs vals (map p offs) = Some buf' /\
    length buf' = length buf /\
    (forall (i : nat) o v, offs !! i = Some o -> vals !! i = Some v ->
       p o = true -> load buf' (ptr + o) = Some v) /\
    (forall a, (forall o, o ∈ offs -> p o = true -> a <> ptr + o) ->
       load buf' a = load buf a).
Proof.
  revert buf vals. induction offs as [|o offs IH]; intros buf vals Hlen Hnd Hb.
  - exists buf. simpl. split; [reflexivity|]. split; [reflexivity|].
    split; [intros i o v Hi; inversion Hi | reflexivity].
  - destruct vals as [|v vals]; [discriminate|].
    simpl in Hlen. apply NoDup_cons in Hnd. destruct Hnd as [Hnotin Hnd].
    simpl. destruct (p o) eqn:Hp.
    + assert (0 <= ptr + o < Z.of_nat (length buf)) as Hbo
        by (apply Hb; [left | exact Hp]).
      rewrite store_in_bounds by exact Hbo. simpl.
      destruct (IH (<[Z.to_nat (ptr + o) := v]> buf) vals) as [buf' [Hrun [Hl [Hw Hf]]]].
      * lia.
      * exact Hnd.
      * intros o' Ho' Hp'. rewrite length_insert. apply Hb; [right|]; assumption.
      * exists buf'. split; [exact Hrun|]. rewrite length_insert in Hl.
        split; [exact Hl|]. split.
        -- intros [|i] o' v' Hi Hv Hp'; simpl in Hi, Hv.
           ++ inversion Hi; inversion Hv; subst.
              rewrite Hf.
              ** apply load_insert_eq. exact Hbo.
              ** intros o2 Ho2 _ Heq. assert (o2 = o') by lia. subst. contradiction.
           ++ eapply Hw; eassumption.
        -- intros a Ha. rewrite Hf.
           ++ apply load_insert_ne; [lia|]. intros Heq.
              apply (Ha o); [left | exact Hp | symmetry; exact Heq].
           ++ intros o2 Ho2 Hp2. apply Ha; [right|]; assumption.
    + simpl.
      destruct (IH buf vals) as [buf' [Hrun [Hl [Hw Hf]]]].
      * lia.
      * exact Hnd.
      * intros o' Ho' Hp'. apply Hb; [right|]; assumption.
      * exists buf'. split; [exact Hrun|]. split; [exact Hl|]. split.
        -- intros [|i] o' v' Hi Hv Hp'; simpl in Hi, Hv.
           ++ inversion Hi; subst. congruence.
           ++ eapply Hw; eassumption.
        -- intros a Ha. apply Hf.
           intros o2 Ho2 Hp2. apply Ha; [right|]; assumption.
Qed.

Lemma NoDup_block_offsets (s B : Z) : NoDup (map (Z.add s) (seqZ 0 B)).
Proof.
  apply NoDup_fmap_2; [|apply NoDup_seqZ].
  intros a b Hab. lia.
Qed.

Lemma elem_of_block_offsets (s B c : Z) :
  c ∈ map (Z.add s) (seqZ 0 B) <-> s <= c < s + B.
Proof.
  rewrite list_elem_of_fmap. split.
  - intros [j [-> Hj]]. apply elem_of_seqZ in Hj. lia.
  - intros Hc. exists (c - s). split; [lia|]. apply elem_of_seqZ. lia.
Qed.

(** One program of the backward kernel: the unmasked lanes of its block are
    overwritten with the gradient entries of the values they held, and
    nothing else changes. *)
Lemma backward_program_spec stride dloss dstride lsebuf labels V B cfg r b buf
    label lse dl :
  0 <= r * stride -> r * stride + V <= Z.of_nat (length buf) ->
  0 <= b -> 0 <= B ->
  load labels r = Some label -> int32_range label ->
  load lsebuf r = Some lse ->
  (label <> IGNORE -> load dloss (r * dstride) = Some dl) ->
  exists buf',
    _cross_entropy_backward stride dloss dstride lsebuf labels V B cfg r b buf
      = Some buf' /\
    length buf' = length buf /\
    (forall c v, b * B <= c < (b + 1) * B -> c < V ->
       load buf (r * stride + c) = Some v ->
       load buf' (r * stride + c) =
       Some (grad_entry cfg v lse (effective_dloss label dl) (c =? label))) /\
    (forall a, ~ (b * B <= a - r * stride < (b + 1) * B /\ a - r * stride < V) ->
       load buf' a = load buf a).
Proof.
  intros Hbase Hend Hb HB Hlab H32 Hlse Hdl.
  set (cols := map (Z.add (b * B)) (seqZ 0 B)).
  set (f := fun c => default NInf (buf !! Z.to_nat (r * stride + c))).
  assert (Hcols : forall c, c ∈ cols <-> b * B <= c < b * B + B)
    by (intros c; apply elem_of_block_offsets).
  assert (Hload : tl_load_masked buf (r * stride) cols
                    (map (fun c => c <? V) cols) NInf =
                  Some (map (fun c => if c <? V then f c else NInf) cols)).
  { apply tl_load_masked_map. intros c Hc Hlt.
    apply Hcols in Hc. apply Z.ltb_lt in Hlt.
    destruct (load_in_bounds buf (r * stride + c)) as [v Hv]; [nia|].
    rewrite Hv. apply load_Some in Hv. destruct Hv as [_ Hv].
    unfold f. rewrite Hv. reflexivity. }
  unfold _cross_entropy_backward. rewrite Hlab. simpl.
  rewrite to_int32_id by exact H32.
  assert (Hdl' : (if negb (label =? IGNORE) then load dloss (r * dstride)
                  else Some (Fin 0)) = Some (effective_dloss label dl)).
  { unfold effective_dloss. destruct (Z.eqb_spec label IGNORE); simpl;
      [reflexivity | apply Hdl; assumption]. }
  rewrite Hdl'. simpl. fold cols. rewrite Hload. simpl. rewrite Hlse. simpl.
  pose proof (backward_lanes cfg cols
                (map (fun c => if c <? V then f c else NInf) cols)
                lse (effective_dloss label dl) label) as Hlanes.
  simpl in Hlanes. rewrite Hlanes. clear Hlanes.
  destruct (tl_store_masked_spec buf (r * stride) cols
              (zip_with (fun c v => grad_entry cfg v lse (effective_dloss label dl)
                                      (c =? label))
                        cols (map (fun c => if c <? V then f c else NInf) cols))
              (fun c => c <? V))
    as [buf' [Hrun [Hl [Hw Hf]]]].
  - rewrite length_zip_with, length_map. lia.
  - apply NoDup_block_offsets.
  - intros c Hc Hlt. apply Hcols in Hc. apply Z.ltb_lt in Hlt. nia.
  - exists buf'. split; [exact Hrun|]. split; [exact Hl|]. split.
    + intros c v Hc HcV Hv.
      assert (c ∈ cols) as Hin by (apply Hcols; lia).
      apply list_elem_of_lookup in Hin. destruct Hin as [i Hi].
      apply (Hw i c); [exact Hi | | apply Z.ltb_lt; exact HcV].
      rewrite lookup_zip_with, Hi. simpl.
      rewrite list_lookup_fmap, Hi. simpl.
      apply Z.ltb_lt in HcV. rewrite HcV.
      apply load_Some in Hv. destruct Hv as [_ Hv].
      unfold f. rewrite Hv. reflexivity.
    + intros a Ha. apply Hf. intros c Hc Hlt Heq.
      apply Hcols in Hc. apply Z.ltb_lt in Hlt. apply Ha. lia.
Qed.

(** The programs of one row, block after block. *)
Lemma backward_row_spec stride dloss dstride lsebuf labels V B cfg r n_blocks buf
    label lse dl :
  0 <= r * stride -> r * stride + V <= Z.of_nat (length buf) ->
  0 <= B -> 0 <= n_blocks -> V <= n_blocks * B ->
  load labels r = Some label -> int32_range label ->
  load lsebuf r = Some lse ->
  (label <> IGNORE -> load dloss (r * dstride) = Some dl) ->
  exists buf',
    run_programs
      (_cross_entropy_backward stride dloss dstride lsebuf labels V B cfg r)
      (seqZ 0 n_blocks) buf = Some buf' /\
    length buf' = length buf /\
    (forall c v, 0 <= c < V ->
       load buf (r * stride + c) = Some v ->
       load buf' (r * stride + c) =
       Some (grad_entry cfg v lse (effective_dloss label dl) (c =? label))) /\
    (forall a, ~ (0 <= a - r * stride < V) -> load buf' a = load buf a).
Proof.
  intros Hbase Hend HB Hn HV Hlab H32 Hlse Hdl.
  destruct (run_programs_inv
    (_cross_entropy_backward stride dloss dstride lsebuf labels V B cfg r)
    (fun m s =>
       length s = length buf /\
       (forall c v, 0 <= c < V -> c < Z.of_nat m * B ->
          load buf (r * stride + c) = Some v ->
          load s (r * stride + c) =
          Some (grad_entry cfg v lse (effective_dloss label dl) (c =? label))) /\
       (forall a, ~ (0 <= a - r * stride < V /\ a - r * stride < Z.of_nat m * B) ->
          load s a = load buf a))
    (seqZ 0 n_blocks) buf) as [buf' [Hrun [Hl [Hw Hf]]]].
  - split; [reflexivity|]. split; [intros; lia | reflexivity].
  - intros m b s Hm [Hl [Hw Hf]].
    apply lookup_seqZ_0 in Hm. destruct Hm as [-> Hm].
    destruct (backward_program_spec stride dloss dstride lsebuf labels V B cfg r
                (Z.of_nat m) s label lse dl)
      as [s' [Hrun [Hl' [Hw' Hf']]]]; try assumption; try lia.
    exists s'. split; [exact Hrun|]. split; [congruence|]. split.
    + intros c v Hc Hlt Hv.
      destruct (Z_lt_dec c (Z.of_nat m * B)) as [Hold|Hnew].
      * rewrite Hf' by lia. apply Hw; assumption.
      * apply Hw'; try lia.
        rewrite Hf by lia. exact Hv.
    + intros a Ha. rewrite Hf' by lia. apply Hf. lia.
  - rewrite length_seqZ in Hw, Hf.
    exists buf'. split; [exact Hrun|]. split; [exact Hl|]. split.
    + intros c v Hc Hv. apply Hw; try assumption; lia.
    + intros a Ha. apply Hf. lia.
Qed.

(** The whole backward launch over a tensor whose rows do not overlap. *)
Lemma backward_launch_spec t dloss dstride lsebuf labels B cfg n_blocks :
  rows_in_bounds t -> shape1 t <= stride0 t ->
  0 <= B -> 0 <= n_blocks -> shape1 t <= n_blocks * B ->
  Z.of_nat (length labels) = shape0 t -> Forall int32_range labels ->
  Z.of_nat (length lsebuf) = shape0 t ->
  (forall (r : nat) label, labels !! r = Some label -> label <> IGNORE ->
     is_Some (load dloss (Z.of_nat r * dstride))) ->
  exists grad,
    launch_grid2 (shape0 t) n_blocks
      (_cross_entropy_backward (stride0 t) dloss dstride lsebuf labels
         (shape1 t) B cfg)
      (storage t) = Some grad /\
    length grad = length (storage t) /\
    forall (r : nat) label lse c v,
      labels !! r = Some label -> lsebuf !! r = Some lse ->
      0 <= c < shape1 t ->
      load (storage t) (Z.of_nat r * stride0 t + c) = Some v ->
      load grad (Z.of_nat r * stride0 t + c) =
      Some (grad_entry cfg v lse
              (effective_dloss label
                 (default NaN (load dloss (Z.of_nat r * dstride))))
              (c =? label)).
Proof.
  intros [HV Hwf] Hstride HB Hn HVn Hlabels H32 Hlse Hdl.
  unfold launch_grid2.
  destruct (run_programs_inv
    (fun i => run_programs
       (_cross_entropy_backward (stride0 t) dloss dstride lsebuf labels
          (shape1 t) B cfg i) (seqZ 0 n_blocks))
    (fun n s =>
       length s = length (storage t) /\
       (forall (r : nat) label lse c v, (r < n)%nat ->
          labels !! r = Some label -> lsebuf !! r = Some lse ->
          0 <= c < shape1 t ->
          load (storage t) (Z.of_nat r * stride0 t + c) = Some v ->
          load s (Z.of_nat r * stride0 t + c) =
          Some (grad_entry cfg v lse
                  (effective_dloss label
                     (default NaN (load dloss (Z.of_nat r * dstride))))
                  (c =? label))) /\
       (forall (r : nat) c, (n <= r)%nat -> Z.of_nat r < shape0 t ->
          0 <= c < shape1 t ->
          load s (Z.of_nat r * stride0 t + c) =
          load (storage t) (Z.of_nat r * stride0 t + c)))
    (seqZ 0 (shape0 t)) (storage t)) as [grad [Hrun [Hl [Hw _]]]].
  - split; [reflexivity|]. split; [intros; lia | reflexivity].
  - intros n i s Hn' [Hl [Hw Hf]].
    apply lookup_seqZ_0 in Hn'. destruct Hn' as [-> Hn'].
    destruct (lookup_lt_is_Some_2 labels n) as [label Hlab]; [lia|].
    destruct (lookup_lt_is_Some_2 lsebuf n) as [lse Hlsen]; [lia|].
    destruct (Hwf (Z.of_nat n) ltac:(lia)) as [Hb0 Hb1].
    set (dl := default NaN (load dloss (Z.of_nat n * dstride))).
    destruct (backward_row_spec (stride0 t) dloss dstride lsebuf labels
                (shape1 t) B cfg (Z.of_nat n) n_blocks s label lse dl)
      as [s' [Hrun [Hl' [Hw' Hf']]]]; try assumption; try lia.
    + rewrite load_nat. exact Hlab.
    + eapply Forall_lookup_1 in H32; eauto.
    + rewrite load_nat. exact Hlsen.
    + intros Hne. destruct (Hdl n label Hlab Hne) as [d Hd].
      unfold dl. rewrite Hd. reflexivity.
    + exists s'. split; [exact Hrun|]. split; [congruence|]. split.
      * intros r lab ls c v Hr Hlr Hsr Hc Hv.
        destruct (decide (r = n)) as [->|Hne].
        -- rewrite Hlab in Hlr. rewrite Hlsen in Hsr.
           inversion Hlr; inversion Hsr; subst.
           apply Hw'; [exact Hc|].
           rewrite Hf by (try lia). exact Hv.
        -- rewrite Hf' by nia. apply (Hw r lab ls c v); try assumption. lia.
      * intros r c Hr Hr' Hc.
        rewrite Hf' by nia. apply Hf; try assumption; lia.
  - rewrite length_seqZ in Hw.
    exists grad. split; [exact Hrun|]. split; [exact Hl|].
    intros r label lse c v Hlab Hlsen Hc Hv.
    apply (Hw r label lse c v); try assumption.
    apply lookup_lt_Some in Hlab. lia.
Qed.

(** ** Exact values of the row statistics *)

Lemma nonzero_true x : nonzero x = true <-> x <> 0%R.
Proof.
  unfold nonzero. destruct (Req_dec_T x 0); split; intros; congruence.
Qed.

Lemma forward_config_softcap_ok softcap scale :
  softcap_ok (forward_config softcap scale).
Proof. unfold softcap_ok. simpl. apply nonzero_true. Qed.

Lemma pre_transform_Fin cfg x :
  softcap_ok cfg -> pre_transform cfg (Fin x) = Fin (pre_R cfg x).
Proof.
  unfold softcap_ok, pre_transform, pre_R. intros Hok.
  destruct (DO_SOFTCAPPING cfg); [specialize (Hok eq_refl)|];
    destruct (DO_LOGIT_SCALING cfg); simpl; try reflexivity;
    destruct (Req_dec_T (SOFTCAP cfg) 0); try contradiction; reflexivity.
Qed.

Lemma Rsign_pos x : (0 < x)%R -> Rsign x = Gt.
Proof.
  intros Hx. unfold Rsign.
  destruct (Rlt_dec x 0); [lra|]. destruct (Rlt_dec 0 x); [reflexivity | lra].
Qed.

Lemma Rsign_zero : Rsign 0 = Eq.
Proof.
  unfold Rsign. destruct (Rlt_dec 0 0); [lra | reflexivity].
Qed.

(** With the softcap on, a padded lane is not minus infinity any more: it
    carries the real [- |t|]. *)
Lemma softcap_of_NInf t :
  t <> 0%R ->
  fmul (Fin t) (triton_tanh (fdiv NInf (Fin t))) = Fin (- Rabs t).
Proof.
  intros Ht. simpl. destruct (Rlt_dec t 0) as [Hneg|Hpos]; simpl; f_equal.
  - rewrite Rabs_left by exact Hneg. lra.
  - rewrite Rabs_right by lra. lra.
Qed.

Lemma pre_transform_NInf_softcap cfg :
  DO_SOFTCAPPING cfg = true -> DO_LOGIT_SCALING cfg = false ->
  SOFTCAP cfg <> 0%R ->
  pre_transform cfg NInf = Fin (- Rabs (SOFTCAP cfg)).
Proof.
  intros Hs Hl Ht. unfold pre_transform. rewrite Hs, Hl.
  apply softcap_of_NInf. exact Ht.
Qed.

Lemma pre_transform_NInf_plain cfg :
  DO_SOFTCAPPING cfg = false ->
  (DO_LOGIT_SCALING cfg = true -> (0 < LOGIT_SCALE cfg)%R) ->
  pre_transform cfg NInf = NInf.
Proof.
  intros Hs Hl. unfold pre_transform. rewrite Hs.
  destruct (DO_LOGIT_SCALING cfg); [|reflexivity].
  simpl. rewrite Rsign_pos by (apply Hl; reflexivity). reflexivity.
Qed.

Lemma pad_low_scale_nonneg cfg :
  softcap_ok cfg ->
  (DO_LOGIT_SCALING cfg = true -> (0 < LOGIT_SCALE cfg)%R) ->
  pad_low cfg.
Proof.
  intros Hok Hl. unfold pad_low, pre_transform.
  assert (Hscaled : (if DO_LOGIT_SCALING cfg
                     then fmul (Fin (LOGIT_SCALE cfg)) NInf else NInf) = NInf).
  { destruct (DO_LOGIT_SCALING cfg); [|reflexivity].
    simpl. rewrite Rsign_pos by (apply Hl; reflexivity). reflexivity. }
  rewrite Hscaled.
  destruct (DO_SOFTCAPPING cfg) eqn:Hs; [|exact I].
  rewrite softcap_of_NInf by (apply Hok; exact Hs). exact I.
Qed.

Lemma forward_config_pad_low softcap scale :
  (0 <= scale)%R -> pad_low (forward_config softcap scale).
Proof.
  intros Hs. apply pad_low_scale_nonneg.
  - apply forward_config_softcap_ok.
  - simpl. intros Hnz. apply nonzero_true in Hnz. lra.
Qed.

Lemma pre_transform_low cfg v :
  softcap_ok cfg -> pad_low cfg -> low v -> low (pre_transform cfg v).
Proof.
  intros Hok Hpad Hv.
  destruct v as [| | |x]; simpl in Hv; [tauto | exact Hpad | tauto |].
  rewrite pre_transform_Fin by exact Hok. exact I.
Qed.

Lemma pre_transform_finite cfg v :
  softcap_ok cfg -> is_finite v -> is_finite (pre_transform cfg v).
Proof.
  intros Hok Hv. destruct v as [| | |x]; simpl in Hv; [tauto | tauto | tauto |].
  rewrite pre_transform_Fin by exact Hok. exact I.
Qed.

Lemma Forall_low_pre cfg (l : list fval) :
  softcap_ok cfg -> pad_low cfg -> Forall low l ->
  Forall low (map (pre_transform cfg) l).
Proof.
  intros Hok Hpad Hl. apply Forall_fmap.
  eapply Forall_impl; [exact Hl|]. intros v Hv. simpl.
  apply pre_transform_low; assumption.
Qed.

Lemma Exists_finite_pre cfg (l : list fval) :
  softcap_ok cfg -> Exists is_finite l ->
  Exists is_finite (map (pre_transform cfg) l).
Proof.
  intros Hok Hl. apply Exists_fmap.
  eapply Exists_impl; [exact Hl|]. intros v Hv. simpl.
  apply pre_transform_finite; assumption.
Qed.

Lemma padded_low row n : Forall is_finite row -> Forall low (padded row n).
Proof.
  intros Hrow. unfold padded. apply Forall_app. split.
  - eapply Forall_impl; [exact Hrow|]. apply finite_low.
  - apply Forall_replicate. exact I.
Qed.

Lemma expsum_replicate n v :
  expsum (replicate n v) = (INR n * exp_term v)%R.
Proof.
  induction n as [|n IH].
  - simpl. rewrite expsum_nil. lra.
  - change (replicate (S n) v) with (v :: replicate n v).
    rewrite expsum_cons, IH, S_INR. lra.
Qed.

(** Sum of exponentials over a padded, transformed row: the row's own sum
    plus one term per padded lane. *)
Lemma expsum_pre_padded cfg row n :
  expsum (map (pre_transform cfg) (padded row n)) =
  (expsum (map (pre_transform cfg) row) +
   INR (Z.to_nat n - length row) * exp_term (pre_transform cfg NInf))%R.
Proof.
  unfold padded. rewrite map_app, expsum_app.
  change (map (pre_transform cfg) (replicate (Z.to_nat n - length row) NInf))
    with (pre_transform cfg <$> replicate (Z.to_nat n - length row) NInf).
  rewrite fmap_replicate, expsum_replicate. reflexivity.
Qed.

(** Single pass: the stored log-sum-exp is the logarithm of that sum. *)
Lemma row_logsumexp_value cfg row B :
  softcap_ok cfg -> pad_low cfg -> Forall is_finite row -> row <> [] ->
  row_logsumexp cfg row B =
  Fin (ln (expsum (map (pre_transform cfg) row) +
           INR (Z.to_nat B - length row) * exp_term (pre_transform cfg NInf))).
Proof.
  intros Hok Hpad Hrow Hne. unfold row_logsumexp.
  rewrite logsumexp_stable_low.
  - rewrite expsum_pre_padded. reflexivity.
  - apply Forall_low_pre; try assumption. apply padded_low. exact Hrow.
  - apply Exists_finite_pre; [exact Hok|]. unfold padded.
    apply Exists_app. left. destruct row as [|x row]; [congruence|].
    inversion Hrow; subst. left. assumption.
Qed.

(** Cutting a list of [N * B] elements into [N] blocks of [B] and joining
    the blocks gives the list back. *)
Lemma concat_blocks {A : Type} (P : list A) (B N : nat) :
  length P = (N * B)%nat ->
  concat (map (fun k => take B (drop (k * B) P)) (seq 0 N)) = P.
Proof.
  revert P. induction N as [|N IH]; intros P Hlen.
  - simpl in *. destruct P; [reflexivity | discriminate].
  - rewrite <- cons_seq, <- fmap_S_seq. simpl. rewrite drop_0.
    transitivity (take B P ++ drop B P); [|apply take_drop].
    f_equal.
    etransitivity; [|apply (IH (drop B P)); rewrite length_drop; simpl in Hlen; lia].
    f_equal. change (map ?f (S <$> ?l)) with (f <$> (S <$> l)).
    rewrite <- list_fmap_compose.
    apply map_ext. intros k. simpl.
    rewrite drop_drop. reflexivity.
Qed.

Lemma concat_block_of row N B :
  0 <= N -> 0 <= B -> Z.of_nat (length row) <= N * B ->
  concat (map (fun k => block_of row (N * B) k B) (seqZ 0 N)) = padded row (N * B).
Proof.
  intros HN HB Hlen.
  etransitivity;
    [|apply (concat_blocks (padded row (N * B)) (Z.to_nat B) (Z.to_nat N));
      pose proof (padded_length row (N * B) Hlen); nia].
  f_equal. unfold seqZ.
  change (map ?f (?g <$> ?l)) with (f <$> (g <$> l)).
  rewrite <- list_fmap_compose.
  apply map_ext. intros k. simpl. unfold block_of.
  f_equal. f_equal. nia.
Qed.

Lemma block_of_low row n k B :
  Forall is_finite row -> Forall low (block_of row n k B).
Proof.
  intros Hrow. unfold block_of. apply Forall_take, Forall_drop, padded_low, Hrow.
Qed.

(** A block that starts inside the row holds at least one real lane. *)
Lemma block_of_has_finite row n k B :
  Forall is_finite row -> 0 <= k -> 0 < B ->
  k * B < Z.of_nat (length row) -> Z.of_nat (length row) <= n ->
  Exists is_finite (block_of row n k B).
Proof.
  intros Hrow Hk HB Hstart Hn.
  destruct (lookup_lt_is_Some_2 row (Z.to_nat (k * B))) as [x Hx]; [lia|].
  apply Exists_exists. exists x. split.
  - apply list_elem_of_lookup. exists 0%nat. unfold block_of.
    rewrite lookup_take. destruct (decide (0 < Z.to_nat B)%nat); [|lia].
    rewrite lookup_drop. rewrite Nat.add_0_r.
    unfold padded. rewrite lookup_app_l by lia. exact Hx.
  - rewrite Forall_forall in Hrow. apply Hrow.
    apply list_elem_of_lookup. eauto.
Qed.

Lemma expsum_ln_terms (ks : list Z) (S : Z -> R) :
  (forall k, k ∈ ks -> (0 < S k)%R) ->
  expsum (map (fun k => Fin (ln (S k))) ks) = foldr Rplus 0%R (map S ks).
Proof.
  induction ks as [|k ks IH]; intros Hpos; [reflexivity|].
  simpl. rewrite expsum_cons. simpl.
  rewrite exp_ln by (apply Hpos; left).
  rewrite IH; [reflexivity|]. intros k' Hk'. apply Hpos. right. exact Hk'.
Qed.

(** Chunked path: the reduced log-sum-exp is the logarithm of the sum of
    exponentials over all the lanes of all the chunks. *)
Lemma chunked_row_logsumexp_value cfg row N B :
  softcap_ok cfg -> pad_low cfg -> Forall is_finite row ->
  0 < N -> 0 < B ->
  (N - 1) * B < Z.of_nat (length row) <= N * B ->
  chunked_row_logsumexp cfg row N B =
  Fin (ln (expsum (map (pre_transform cfg) row) +
           INR (Z.to_nat (N * B) - length row) * exp_term (pre_transform cfg NInf))).
Proof.
  intros Hok Hpad Hrow HN HB Hlen.
  set (S := fun k => expsum (map (pre_transform cfg) (block_of row (N * B) k B))).
  assert (HSpos : forall k, k ∈ seqZ 0 N -> (0 < S k)%R).
  { intros k Hk. apply elem_of_seqZ in Hk. unfold S.
    apply expsum_pos, Exists_finite_pre; [exact Hok|].
    apply block_of_has_finite; try assumption; try lia. nia. }
  assert (Hchunks : map (chunk_logsumexp cfg row N B) (seqZ 0 N) =
                    map (fun k => Fin (ln (S k))) (seqZ 0 N)).
  { apply map_ext_in. intros k Hk. apply list_elem_of_In in Hk.
    apply elem_of_seqZ in Hk. unfold chunk_logsumexp, S.
    apply logsumexp_stable_low.
    - apply Forall_low_pre; try assumption. apply block_of_low. exact Hrow.
    - apply Exists_finite_pre; [exact Hok|].
      apply block_of_has_finite; try assumption; try lia. nia. }
  unfold chunked_row_logsumexp. rewrite Hchunks.
  rewrite logsumexp_stable_low.
  - f_equal. f_equal. rewrite expsum_ln_terms by exact HSpos.
    rewrite <- expsum_pre_padded.
    rewrite <- (concat_block_of row N B) by lia.
    rewrite concat_map.
    rewrite expsum_concat. f_equal.
    change (map ?f (?g <$> ?l)) with (f <$> (g <$> l)).
    change (map ?f (seqZ 0 N)) with (f <$> seqZ 0 N).
    rewrite <- !list_fmap_compose. reflexivity.
  - apply Forall_fmap, Forall_forall. intros k _. exact I.
  - assert (seqZ 0 N !! 0%nat = Some 0) as H0 by (apply lookup_seqZ; lia).
    destruct (seqZ 0 N) as [|k ks]; [discriminate|]. left. exact I.
Qed.

(** ** Agreement of the two forward paths *)

(** Without softcapping (and with a positive scale when scaling is on) the
    padded lanes stay at minus infinity, and the chunked path and the
    single-pass path store the same loss for a row with a real label,
    whatever the two block widths. *)
Lemma paths_agree_without_softcap cfg row Bs N Bc label :
  DO_SOFTCAPPING cfg = false ->
  (DO_LOGIT_SCALING cfg = true -> (0 < LOGIT_SCALE cfg)%R) ->
  Forall is_finite row ->
  0 < N -> 0 < Bc -> (N - 1) * Bc < Z.of_nat (length row) <= N * Bc ->
  0 <= label < Z.of_nat (length row) ->
  chunked_row_loss cfg row N Bc label = row_loss cfg row Bs label.
Proof.
  intros Hs Hl Hrow HN HBc Hlen Hlab.
  assert (softcap_ok cfg) as Hok by (unfold softcap_ok; congruence).
  assert (pad_low cfg) as Hpad by (apply pad_low_scale_nonneg; assumption).
  assert (row <> []) as Hne
    by (intros Hnil; rewrite Hnil in Hlab; simpl in Hlab; lia).
  unfold chunked_row_loss, row_loss, label_term.
  assert ((label =? IGNORE) = false) as -> by (apply Z.eqb_neq; unfold IGNORE; lia).
  rewrite chunked_row_logsumexp_value, row_logsumexp_value by assumption.
  rewrite pre_transform_NInf_plain by assumption. simpl exp_term.
  destruct (lookup_lt_is_Some_2 row (Z.to_nat label)) as [x Hx]; [lia|].
  rewrite (list_lookup_total_correct _ _ _ Hx).
  assert (is_finite x) as Hfx
    by (rewrite Forall_forall in Hrow; apply Hrow, list_elem_of_lookup; eauto).
  destruct x as [| | |x]; simpl in Hfx; try tauto.
  rewrite pre_transform_Fin by exact Hok. simpl.
  f_equal. rewrite !Rmult_0_r. lra.
Qed.

(** With softcapping on (and no scaling), every padded lane adds
    [exp (- |t|)] to the sum, so the two paths agree exactly when they pad
    the row to the same number of lanes. *)
Lemma paths_agree_softcap_iff cfg row Bs N Bc label :
  DO_SOFTCAPPING cfg = true -> DO_LOGIT_SCALING cfg = false ->
  SOFTCAP cfg <> 0%R ->
  Forall is_finite row ->
  Z.of_nat (length row) <= Bs ->
  0 < N -> 0 < Bc -> (N - 1) * Bc < Z.of_nat (length row) <= N * Bc ->
  0 <= label < Z.of_nat (length row) ->
  (chunked_row_loss cfg row N Bc label = row_loss cfg row Bs label
   <-> N * Bc = Bs).
Proof.
  intros Hs Hl Ht Hrow HBs HN HBc Hlen Hlab.
  assert (softcap_ok cfg) as Hok by (intros _; exact Ht).
  assert (pad_low cfg) as Hpad
    by (unfold pad_low; rewrite pre_transform_NInf_softcap by assumption; exact I).
  assert (row <> []) as Hne
    by (intros Hnil; rewrite Hnil in Hlab; simpl in Hlab; lia).
  unfold chunked_row_loss, row_loss, label_term.
  assert ((label =? IGNORE) = false) as -> by (apply Z.eqb_neq; unfold IGNORE; lia).
  rewrite chunked_row_logsumexp_value, row_logsumexp_value by assumption.
  rewrite pre_transform_NInf_softcap by assumption. simpl exp_term.
  destruct (lookup_lt_is_Some_2 row (Z.to_nat label)) as [x Hx]; [lia|].
  rewrite (list_lookup_total_correct _ _ _ Hx).
  assert (is_finite x) as Hfx
    by (rewrite Forall_forall in Hrow; apply Hrow, list_elem_of_lookup; eauto).
  destruct x as [| | |x]; simpl in Hfx; try tauto.
  rewrite pre_transform_Fin by exact Hok. simpl.
  set (S := expsum (map (pre_transform cfg) row)).
  set (e := exp (- Rabs (SOFTCAP cfg))).
  assert (0 < S)%R as HS.
  { apply expsum_pos, Exists_finite_pre; [exact Hok|].
    destruct row as [|y row]; [congruence|]. inversion Hrow; subst. left. assumption. }
  assert (0 < e)%R as He by apply exp_pos.
  assert (Hinr : forall n : nat, (0 <= INR n * e)%R).
  { intros n. apply Rmult_le_pos; [apply pos_INR | lra]. }
  split.
  - intros Heq. inversion Heq as [Hr].
    assert (ln (S + INR (Z.to_nat (N * Bc) - length row) * e) =
            ln (S + INR (Z.to_nat Bs - length row) * e)) as Hln by lra.
    apply ln_inv in Hln.
    + assert (INR (Z.to_nat (N * Bc) - length row) =
              INR (Z.to_nat Bs - length row)) as Hi by nra.
      apply INR_eq in Hi. lia.
    + pose proof (Hinr (Z.to_nat (N * Bc) - length row)%nat). lra.
    + pose proof (Hinr (Z.to_nat Bs - length row)%nat). lra.
  - intros <-. f_equal. lra.
Qed.

(** ** [forward] and the entry point *)

Lemma forward_spec t labels softcap scale :
  rows_in_bounds t -> 0 < shape1 t ->
  Z.of_nat (length labels) = shape0 t ->
  Forall int32_range labels ->
  Forall (valid_label (shape1 t)) labels ->
  exists losses ctx,
    Fast_CrossEntropyLoss_forward t labels softcap scale = Ok (losses, ctx) /\
    ctx = saved_context t labels softcap scale (saved_logsumexp ctx) /\
    Z.of_nat (length losses) = shape0 t /\
    Z.of_nat (length (saved_logsumexp ctx)) = shape0 t /\
    forall (r : nat) label, labels !! r = Some label ->
      losses !! r =
        Some (forward_row_loss softcap scale (shape1 t) (row_of t (Z.of_nat r)) label) /\
      saved_logsumexp ctx !! r =
        Some (forward_row_logsumexp softcap scale (shape1 t) (row_of t (Z.of_nat r))).
Proof.
  intros Hwf HV Hlabels H32 Hval.
  unfold forward_row_loss, forward_row_logsumexp.
  destruct (Z.leb_spec (shape1 t) MAX_FUSED_SIZE) as [Hle|Hgt].
  - apply forward_single_spec; try assumption. lia.
  - apply forward_chunked_spec; assumption.
Qed.

Lemma forward_row_loss_ignored softcap scale V row :
  forward_row_loss softcap scale V row IGNORE = Fin 0.
Proof.
  unfold forward_row_loss, row_loss, chunked_row_loss.
  destruct (V <=? MAX_FUSED_SIZE); reflexivity.
Qed.

Lemma torch_sum_zeros (l : list fval) :
  Forall (fun v => v = Fin 0) l -> torch_sum l = Fin 0.
Proof.
  induction 1 as [|v l Hv _ IH]; [reflexivity|].
  unfold torch_sum in *. simpl. rewrite IH, Hv. simpl. f_equal. lra.
Qed.

Lemma count_all_ignored (labels : list Z) :
  Forall (fun l => l = IGNORE) labels -> count_nonzero_not_ignored labels = 0.
Proof.
  intros Hall. unfold count_nonzero_not_ignored.
  induction Hall as [|l labels Hl _ IH]; [reflexivity|].
  rewrite filter_cons_False by (intros Hne; apply Hne; exact Hl). exact IH.
Qed.

Lemma count_some_kept (labels : list Z) :
  Exists (fun l => l <> IGNORE) labels -> 0 < count_nonzero_not_ignored labels.
Proof.
  intros Hex. unfold count_nonzero_not_ignored.
  apply Exists_exists in Hex. destruct Hex as [l [Hin Hl]].
  assert (l ∈ filter (fun l => l <> IGNORE) labels) as Hf
    by (apply list_elem_of_filter; split; assumption).
  destruct (filter (fun l => l <> IGNORE) labels); [inversion Hf | simpl; lia].
Qed.

Lemma fdiv_zero_zero : fdiv (Fin 0) (Fin (IZR 0)) = NaN.
Proof.
  simpl. destruct (Req_dec_T 0 0) as [_|Hne]; [|contradiction].
  rewrite Rsign_zero. reflexivity.
Qed.

Lemma fdiv_by_count s n : 0 < n -> fdiv (Fin s) (Fin (IZR n)) = Fin (s / IZR n).
Proof.
  intros Hn. simpl. destruct (Req_dec_T (IZR n) 0) as [H0|_]; [|reflexivity].
  apply eq_IZR_R0 in H0. lia.
Qed.

(** The row view [logits.view(batch * seq_len, d)] of a contiguous tensor. *)
Lemma view_rows_in_bounds batch seq_len d (data : list fval) :
  0 <= batch -> 0 <= seq_len -> 0 <= d ->
  Z.of_nat (length data) = batch * seq_len * d ->
  rows_in_bounds (mk_tensor (batch * seq_len) d d data).
Proof.
  intros Hb Hs Hd Hlen. split; simpl; [exact Hd|]. intros r Hr. nia.
Qed.

Lemma entry_point_unfold logits labels softcap scale batch seq_len d :
  t3_shape logits = (batch, seq_len, d) ->
  l2_shape labels = (batch, seq_len) ->
  fast_cross_entropy_loss logits labels softcap scale =
  match Fast_CrossEntropyLoss_forward
          (mk_tensor (batch * seq_len) d d (t3_storage logits))
          (l2_storage labels) softcap scale with
  | Raised e => Raised e
  | Ok (loss, _) =>
      Ok (fdiv (torch_sum loss)
               (Fin (IZR (count_nonzero_not_ignored (l2_storage labels)))))
  end.
Proof.
  intros Hs Hl. unfold fast_cross_entropy_loss. rewrite Hs, Hl.
  rewrite bool_decide_eq_true_2 by reflexivity. reflexivity.
Qed.

(** All labels ignored: the entry point returns 0/0. *)
Lemma all_ignored_gives_nan logits labels softcap scale batch seq_len d :
  t3_shape logits = (batch, seq_len, d) ->
  l2_shape labels = (batch, seq_len) ->
  0 <= batch -> 0 <= seq_len -> 0 < d ->
  Z.of_nat (length (t3_storage logits)) = batch * seq_len * d ->
  Z.of_nat (length (l2_storage labels)) = batch * seq_len ->
  Forall (fun l => l = IGNORE) (l2_storage labels) ->
  fast_cross_entropy_loss logits labels softcap scale = Ok NaN.
Proof.
  intros Hs Hl Hb Hq Hd Hlen Hllen Hall.
  rewrite (entry_point_unfold _ _ _ _ batch seq_len d) by assumption.
  destruct (forward_spec (mk_tensor (batch * seq_len) d d (t3_storage logits))
              (l2_storage labels) softcap scale)
    as [losses [ctx [Hfw [_ [HL [_ Hrows]]]]]].
  - apply view_rows_in_bounds; try assumption; lia.
  - exact Hd.
  - exact Hllen.
  - eapply Forall_impl; [exact Hall|]. intros l ->. unfold int32_range, IGNORE. lia.
  - eapply Forall_impl; [exact Hall|]. intros l ->. left. reflexivity.
  - rewrite Hfw. simpl in HL.
    rewrite torch_sum_zeros.
    + rewrite count_all_ignored by exact Hall. rewrite fdiv_zero_zero. reflexivity.
    + apply Forall_lookup. intros r v Hv.
      destruct (lookup_lt_is_Some_2 (l2_storage labels) r) as [l Hlr].
      { apply lookup_lt_Some in Hv. lia. }
      assert (l = IGNORE) as -> by (eapply Forall_lookup_1 in Hall; eauto).
      destruct (Hrows r IGNORE Hlr) as [Hloss _].
      rewrite forward_row_loss_ignored in Hloss. congruence.
Qed.

(** * Main results *)

(** Side conditions on concrete tensors and label lists. *)
Ltac solve_rows_in_bounds := split; simpl; [lia | intros ? ?; lia].

Ltac solve_labels :=
  repeat (constructor;
          [first [ unfold int32_range; lia
                 | right; simpl; lia
                 | left; reflexivity ] |]);
  constructor.









(** C6. Scalar loss normalisation.  On a [(batch, seq_len, d)] logits tensor
    and a [(batch, seq_len)] labels tensor with at least one label other
    than -100, the entry point runs [forward] on the [batch * seq_len] rows
    of width [d] and returns the sum of the per-row losses divided by the
    number of labels other than -100; that number is positive, so a real
    sum [s] gives the real quotient. *)
Theorem scalar_loss_normalization logits labels softcap scale batch seq_len d :
  t3_shape logits = (batch, seq_len, d) ->
  l2_shape labels = (batch, seq_len) ->
  0 <= batch -> 0 <= seq_len -> 0 < d ->
  Z.of_nat (length (t3_storage logits)) = batch * seq_len * d ->
  Z.of_nat (length (l2_storage labels)) = batch * seq_len ->
  Forall int32_range (l2_storage labels) ->
  Forall (valid_label d) (l2_storage labels) ->
  Exists (fun l => l <> -100) (l2_storage labels) ->
  let rows := mk_tensor (batch * seq_len) d d (t3_storage logits) in
  let n_items := Z.of_nat (length (filter (fun l => l <> -100) (l2_storage labels))) in
  exists losses ctx,
    Fast_CrossEntropyLoss_forward rows (l2_storage labels) softcap scale
      = Ok (losses, ctx) /\
    (forall (r : nat) label, l2_storage labels !! r = Some label ->
       losses !! r =
       Some (forward_row_loss softcap scale d (row_of rows (Z.of_nat r)) label)) /\
    0 < n_items /\
    fast_cross_entropy_loss logits labels softcap scale =
      Ok (fdiv (torch_sum losses) (Fin (IZR n_items))) /\
    (forall s, torch_sum losses = Fin s ->
       fast_cross_entropy_loss logits labels softcap scale = Ok (Fin (s / IZR n_items))).
Proof.
  intros Hs Hl Hb Hq Hd Hlen Hllen H32 Hval Hex rows n_items.
  destruct (forward_spec rows (l2_storage labels) softcap scale)
    as [losses [ctx [Hfw [_ [_ [_ Hrows]]]]]]; try assumption.
  - apply view_rows_in_bounds; try assumption; lia.
  - exists losses, ctx. split; [exact Hfw|].
    assert (0 < n_items) as Hn by (apply count_some_kept; exact Hex).
    assert (Hres : fast_cross_entropy_loss logits labels softcap scale =
                   Ok (fdiv (torch_sum losses) (Fin (IZR n_items)))).
    { rewrite (entry_point_unfold _ _ _ _ batch seq_len d) by assumption.
      fold rows. rewrite Hfw. reflexivity. }
    split; [intros r label Hlab; apply (Hrows r label Hlab)|].
    split; [exact Hn|]. split; [exact Hres|].
    intros s Hsum. rewrite Hres, Hsum. rewrite fdiv_by_count by exact Hn.
    reflexivity.
Qed.

Lemma scalar_loss_normalization_witness :
  let logits := mk_tensor3 (1, 2, 2) [Fin 1; Fin 2; Fin 3; Fin 4] in
  let labels := mk_labels2 (1, 2) [1; -100] in
  let rows := mk_tensor (1 * 2) 2 2 (t3_storage logits) in
  let n_items := Z.of_nat (length (filter (fun l => l <> -100) (l2_storage labels))) in
  exists losses ctx,
    Fast_CrossEntropyLoss_forward rows (l2_storage labels) 0 0 = Ok (losses, ctx) /\
    (forall (r : nat) label, l2_storage labels !! r = Some label ->
       losses !! r =
       Some (forward_row_loss 0 0 2 (row_of rows (Z.of_nat r)) label)) /\
    0 < n_items /\
    fast_cross_entropy_loss logits labels 0 0 =
      Ok (fdiv (torch_sum losses) (Fin (IZR n_items))) /\
    (forall s, torch_sum losses = Fin s ->
       fast_cross_entropy_loss logits labels 0 0 = Ok (Fin (s / IZR n_items))).
Proof.
  apply (scalar_loss_normalization
           (mk_tensor3 (1, 2, 2) [Fin 1; Fin 2; Fin 3; Fin 4])
           (mk_labels2 (1, 2) [1; -100]) 0 0 1 2 2).
  - reflexivity.
  - reflexivity.
  - lia.
  - lia.
  - lia.
  - reflexivity.
  - reflexivity.
  - simpl. do 2 (constructor; [unfold int32_range; lia|]). constructor.
  - simpl. constructor; [right; lia|]. constructor; [left; reflexivity|]. constructor.
  - simpl. left. lia.
Defined.

(** C8, as the code has it.  When every label of the flattened batch is -100
    the entry point raises nothing: every per-row loss is 0, the count of
    valid labels is 0, and the value returned is the quotient 0/0, NaN. *)
Theorem all_labels_ignored_returns_nan logits labels softcap scale batch seq_len d :
  t3_shape logits = (batch, seq_len, d) ->
  l2_shape labels = (batch, seq_len) ->
  0 <= batch -> 0 <= seq_len -> 0 < d ->
  Z.of_nat (length (t3_storage logits)) = batch * seq_len * d ->
  Z.of_nat (length (l2_storage labels)) = batch * seq_len ->
  Forall (fun l => l = -100) (l2_storage labels) ->
  fast_cross_entropy_loss logits labels softcap scale = Ok NaN /\
  forall e, fast_cross_entropy_loss logits labels softcap scale <> Raised e.
Proof.
  intros Hs Hl Hb Hq Hd Hlen Hllen Hall.
  rewrite (all_ignored_gives_nan logits labels softcap scale batch seq_len d)
    by assumption.
  split; [reflexivity | discriminate].
Qed.

Lemma all_labels_ignored_returns_nan_witness :
  let logits := mk_tensor3 (1, 2, 2) [Fin 1; Fin 2; Fin 3; Fin 4] in
  let labels := mk_labels2 (1, 2) [-100; -100] in
  fast_cross_entropy_loss logits labels 0 0 = Ok NaN /\
  forall e, fast_cross_entropy_loss logits labels 0 0 <> Raised e.
Proof.
  apply (all_labels_ignored_returns_nan
           (mk_tensor3 (1, 2, 2) [Fin 1; Fin 2; Fin 3; Fin 4])
           (mk_labels2 (1, 2) [-100; -100]) 0 0 1 2 2).
  - reflexivity.
  - reflexivity.
  - lia.
  - lia.
  - lia.
  - reflexivity.
  - reflexivity.
  - simpl. repeat constructor.
Defined.

(** C8, as stated, fails: on a batch of one ignored label the entry point
    surfaces no error and silently returns NaN. *)
Lemma all_labels_ignored_no_error :
  let logits := mk_tensor3 (1, 1, 2) [Fin 1; Fin 2] in
  let labels := mk_labels2 (1, 1) [-100] in
  ~ (exists e, fast_cross_entropy_loss logits labels 0 0 = Raised e) /\
  fast_cross_entropy_loss logits labels 0 0 = Ok NaN.
Proof.
  assert (H : fast_cross_entropy_loss (mk_tensor3 (1, 1, 2) [Fin 1; Fin 2])
                (mk_labels2 (1, 1) [-100]) 0 0 = Ok NaN).
  { apply (all_ignored_gives_nan _ _ 0%R 0%R 1 1 2); try reflexivity; try lia.
    simpl. repeat constructor. }
  simpl. rewrite H. split; [|reflexivity].
  intros [e He]. discriminate.
Qed.

(** ** [backward] as a whole *)

Lemma ceil_div_cover V d :
  0 < d -> 0 <= V -> 0 <= ceil_div V d /\ V <= ceil_div V d * d.
Proof.
  intros Hd HV. destruct (Z.eq_dec V 0) as [->|Hne].
  - rewrite ceil_div_zero. lia.
  - pose proof (ceil_div_bounds V d Hd ltac:(lia)). nia.
Qed.

Lemma backward_spec ctx dloss dstride :
  context_wf ctx ->
  dloss_readable (saved_labels ctx) dloss dstride ->
  let t := saved_logits ctx in
  exists grad,
    Fast_CrossEntropyLoss_backward ctx dloss dstride =
      Ok (mk_tensor (shape0 t) (shape1 t) (stride0 t) grad) /\
    length grad = length (storage t) /\
    forall (r : nat) label lse c v,
      saved_labels ctx !! r = Some label -> saved_logsumexp ctx !! r = Some lse ->
      0 <= c < shape1 t ->
      load (storage t) (Z.of_nat r * stride0 t + c) = Some v ->
      load grad (Z.of_nat r * stride0 t + c) =
      Some (grad_entry (context_config ctx) v lse
              (effective_dloss label
                 (default NaN (load dloss (Z.of_nat r * dstride))))
              (c =? label)).
Proof.
  intros [Hwf [Hstride [Hlabels [H32 Hlse]]]] Hdl t.
  assert (0 <= shape1 t) as HV by (destruct Hwf; assumption).
  destruct (ceil_div_cover (shape1 t) 4096 ltac:(lia) HV) as [Hn Hcover].
  destruct (backward_launch_spec t dloss dstride (saved_logsumexp ctx)
              (saved_labels ctx) 4096 (context_config ctx)
              (ceil_div (shape1 t) 4096))
    as [grad [Hrun [Hl Hw]]]; try assumption; try lia.
  exists grad. split; [|split; [exact Hl | exact Hw]].
  unfold Fast_CrossEntropyLoss_backward. fold t.
  unfold context_config in Hrun. rewrite Hrun. reflexivity.
Qed.

(** On reals, and with a zero upstream gradient, the entry is 0. *)
Lemma grad_entry_zero_dloss cfg x lse b :
  softcap_ok cfg -> is_finite x -> is_finite lse ->
  grad_entry cfg x lse (Fin 0) b = Fin 0.
Proof.
  intros Hok Hx Hlse.
  destruct x as [| | |x]; simpl in Hx; try tauto.
  destruct lse as [| | |lse]; simpl in Hlse; try tauto.
  unfold grad_entry, scaled_logit. rewrite pre_transform_Fin by exact Hok.
  unfold softcap_ok in Hok.
  destruct (DO_SOFTCAPPING cfg); [specialize (Hok eq_refl)|];
    destruct (DO_LOGIT_SCALING cfg); destruct b; simpl;
    try (destruct (Req_dec_T (SOFTCAP cfg) 0); [contradiction|]); simpl;
    f_equal; lra.
Qed.

(** C2. Backward gradient formula and order.  After [backward], the cell of
    every row [r] and column [c] of the logits storage holds, for the raw
    logit [x] it held before: [x'], the forward pre-transform of [x];
    [y = exp (x' - logsumexp r)]; minus 1 exactly when [c] is the label;
    then times the scale when scaling is on; then times
    [1 - tanh^2 (scaled x / t)] when softcapping is on; then times the
    upstream gradient of the row (0 for an ignored row). *)
Theorem backward_gradient_formula ctx dloss dstride :
  context_wf ctx ->
  dloss_readable (saved_labels ctx) dloss dstride ->
  let t := saved_logits ctx in
  let cfg := context_config ctx in
  exists grad,
    Fast_CrossEntropyLoss_backward ctx dloss dstride = Ok grad /\
    shape0 grad = shape0 t /\ shape1 grad = shape1 t /\ stride0 grad = stride0 t /\
    length (storage grad) = length (storage t) /\
    forall (r : nat) label lse dl c x,
      saved_labels ctx !! r = Some label ->
      saved_logsumexp ctx !! r = Some lse ->
      (label <> -100 -> load dloss (Z.of_nat r * dstride) = Some dl) ->
      0 <= c < shape1 t ->
      load (storage t) (Z.of_nat r * stride0 t + c) = Some x ->
      load (storage grad) (Z.of_nat r * stride0 t + c) =
      Some (let x' := pre_transform cfg x in
            let y := fexp (fsub x' lse) in
            let y := if c =? label then fsub y (Fin 1) else y in
            let y := if DO_LOGIT_SCALING cfg
                     then fmul y (Fin (LOGIT_SCALE cfg)) else y in
            let y := if DO_SOFTCAPPING cfg
                     then let th := triton_tanh
                                      (fdiv (scaled_logit cfg x) (Fin (SOFTCAP cfg))) in
                          fmul y (fsub (Fin 1) (fmul th th))
                     else y in
            fmul (if label =? -100 then Fin 0 else dl) y).
Proof.
  intros Hwf Hdl t cfg. subst t cfg.
  destruct (backward_spec ctx dloss dstride Hwf Hdl) as [grad [Hbw [Hl Hw]]].
  eexists. split; [exact Hbw|]. cbn [shape0 shape1 stride0 storage].
  split; [reflexivity|]. split; [reflexivity|]. split; [reflexivity|].
  split; [exact Hl|].
  intros r label lse dl c x Hlab Hlse Hdlr Hc Hx.
  rewrite (Hw r label lse c x Hlab Hlse Hc Hx). f_equal.
  unfold grad_entry, effective_dloss. change (-100) with IGNORE in *.
  destruct (label =? IGNORE) eqn:Heq; [reflexivity|].
  apply Z.eqb_neq in Heq. rewrite (Hdlr Heq). reflexivity.
Qed.

Lemma backward_gradient_formula_witness :
  let ctx := mk_context (mk_tensor 1 2 2 [Fin 1; Fin 2]) [Fin 3] [1]
               false 0 false 0 in
  let dloss := [Fin 1] in
  let dstride := 0 in
  let t := saved_logits ctx in
  let cfg := context_config ctx in
  exists grad,
    Fast_CrossEntropyLoss_backward ctx dloss dstride = Ok grad /\
    shape0 grad = shape0 t /\ shape1 grad = shape1 t /\ stride0 grad = stride0 t /\
    length (storage grad) = length (storage t) /\
    forall (r : nat) label lse dl c x,
      saved_labels ctx !! r = Some label ->
      saved_logsumexp ctx !! r = Some lse ->
      (label <> -100 -> load dloss (Z.of_nat r * dstride) = Some dl) ->
      0 <= c < shape1 t ->
      load (storage t) (Z.of_nat r * stride0 t + c) = Some x ->
      load (storage grad) (Z.of_nat r * stride0 t + c) =
      Some (let x' := pre_transform cfg x in
            let y := fexp (fsub x' lse) in
            let y := if c =? label then fsub y (Fin 1) else y in
            let y := if DO_LOGIT_SCALING cfg
                     then fmul y (Fin (LOGIT_SCALE cfg)) else y in
            let y := if DO_SOFTCAPPING cfg
                     then let th := triton_tanh
                                      (fdiv (scaled_logit cfg x) (Fin (SOFTCAP cfg))) in
                          fmul y (fsub (Fin 1) (fmul th th))
                     else y in
            fmul (if label =? -100 then Fin 0 else dl) y).
Proof.
  apply (backward_gradient_formula
           (mk_context (mk_tensor 1 2 2 [Fin 1; Fin 2]) [Fin 3] [1]
              false 0 false 0) [Fin 1] 0).
  - split; [split; simpl; [lia | intros r Hr; lia]|].
    split; [simpl; lia|]. split; [reflexivity|].
    split; [|reflexivity].
    simpl. constructor; [unfold int32_range; lia | constructor].
  - intros r label Hlab Hne. simpl in Hlab.
    destruct r as [|r]; [|destruct r; discriminate].
    eexists. reflexivity.
Defined.

(** ** Ignored rows *)

Lemma backward_ignored_row_zero ctx dloss dstride (r : nat) :
  context_wf ctx ->
  softcap_ok (context_config ctx) ->
  dloss_readable (saved_labels ctx) dloss dstride ->
  saved_labels ctx !! r = Some IGNORE ->
  Forall is_finite (row_of (saved_logits ctx) (Z.of_nat r)) ->
  (exists lse, saved_logsumexp ctx !! r = Some (Fin lse)) ->
  exists grad,
    Fast_CrossEntropyLoss_backward ctx dloss dstride = Ok grad /\
    forall c, 0 <= c < shape1 (saved_logits ctx) ->
      load (storage grad) (Z.of_nat r * stride0 (saved_logits ctx) + c) = Some (Fin 0).
Proof.
  intros Hwf Hok Hdl Hlab Hrow [lse Hlse].
  destruct (backward_spec ctx dloss dstride Hwf Hdl) as [grad [Hbw [Hl Hw]]].
  eexists. split; [exact Hbw|]. cbn [storage].
  intros c Hc.
  destruct Hwf as [Hrows [Hstride [Hlabels _]]].
  assert (0 <= Z.of_nat r < shape0 (saved_logits ctx)) as Hr
    by (apply lookup_lt_Some in Hlab; lia).
  pose proof (row_of_load _ _ c Hrows Hr Hc) as Hload.
  pose proof (row_of_length _ _ Hrows Hr) as Hlen.
  destruct (lookup_lt_is_Some_2 (row_of (saved_logits ctx) (Z.of_nat r))
              (Z.to_nat c)) as [x Hx]; [lia|].
  rewrite Hx in Hload.
  rewrite (Hw r IGNORE (Fin lse) c x Hlab Hlse Hc Hload).
  f_equal. unfold effective_dloss. simpl (IGNORE =? IGNORE).
  apply grad_entry_zero_dloss; [exact Hok | | exact I].
  rewrite Forall_forall in Hrow. apply Hrow, list_elem_of_lookup. eauto.
Qed.

(** For a row labelled -100 the program never reads the upstream gradient:
    it runs the same with any other upstream buffer and stride. *)
Lemma backward_program_ignores_dloss stride dloss dstride dloss' dstride'
    lsebuf labels V B cfg r b buf :
  load labels r = Some IGNORE ->
  _cross_entropy_backward stride dloss' dstride' lsebuf labels V B cfg r b buf =
  _cross_entropy_backward stride dloss dstride lsebuf labels V B cfg r b buf.
Proof.
  intros Hlab. unfold _cross_entropy_backward. rewrite Hlab. reflexivity.
Qed.

(** C9. The zero gradient of an ignored row does not depend on the upstream
    gradient.  For a row labelled -100 the kernel uses 0 in place of the
    upstream value, which it does not load: every program of the row runs
    the same whatever the upstream buffer.  So whatever that buffer holds
    (it only has to be readable at the rows that are not ignored), after
    [backward] every column of the row holds 0. *)
Theorem backward_ignored_row_any_upstream ctx dloss dstride (r : nat) :
  context_wf ctx ->
  softcap_ok (context_config ctx) ->
  dloss_readable (saved_labels ctx) dloss dstride ->
  saved_labels ctx !! r = Some (-100) ->
  Forall is_finite (row_of (saved_logits ctx) (Z.of_nat r)) ->
  (exists lse, saved_logsumexp ctx !! r = Some (Fin lse)) ->
  (forall dloss' dstride' B b buf,
     _cross_entropy_backward (stride0 (saved_logits ctx)) dloss' dstride'
       (saved_logsumexp ctx) (saved_labels ctx) (shape1 (saved_logits ctx)) B
       (context_config ctx) (Z.of_nat r) b buf =
     _cross_entropy_backward (stride0 (saved_logits ctx)) dloss dstride
       (saved_logsumexp ctx) (saved_labels ctx) (shape1 (saved_logits ctx)) B
       (context_config ctx) (Z.of_nat r) b buf) /\
  exists grad,
    Fast_CrossEntropyLoss_backward ctx dloss dstride = Ok grad /\
    forall c, 0 <= c < shape1 (saved_logits ctx) ->
      load (storage grad) (Z.of_nat r * stride0 (saved_logits ctx) + c) = Some (Fin 0).
Proof.
  intros Hwf Hok Hdl Hlab Hrow Hlse. split.
  - intros dloss' dstride' B b buf.
    apply backward_program_ignores_dloss. rewrite load_nat. exact Hlab.
  - apply backward_ignored_row_zero; assumption.
Qed.

Lemma backward_ignored_row_any_upstream_witness :
  let ctx := mk_context (mk_tensor 1 2 2 [Fin 1; Fin 2]) [Fin 3] [-100]
               false 0 false 0 in
  (forall dloss' dstride' B b buf,
     _cross_entropy_backward (stride0 (saved_logits ctx)) dloss' dstride'
       (saved_logsumexp ctx) (saved_labels ctx) (shape1 (saved_logits ctx)) B
       (context_config ctx) (Z.of_nat 0) b buf =
     _cross_entropy_backward (stride0 (saved_logits ctx)) [Fin 5] 1
       (saved_logsumexp ctx) (saved_labels ctx) (shape1 (saved_logits ctx)) B
       (context_config ctx) (Z.of_nat 0) b buf) /\
  exists grad,
    Fast_CrossEntropyLoss_backward ctx [Fin 5] 1 = Ok grad /\
    forall c, 0 <= c < shape1 (saved_logits ctx) ->
      load (storage grad) (Z.of_nat 0 * stride0 (saved_logits ctx) + c) = Some (Fin 0).
Proof.
  apply (backward_ignored_row_any_upstream
           (mk_context (mk_tensor 1 2 2 [Fin 1; Fin 2]) [Fin 3] [-100]
              false 0 false 0) [Fin 5] 1 0%nat).
  - split; [solve_rows_in_bounds|].
    split; [simpl; lia|]. split; [reflexivity|].
    split; [|reflexivity].
    simpl. solve_labels.
  - intros Hs. simpl in Hs. discriminate.
  - intros r label Hlab Hne. simpl in Hlab.
    destruct r as [|r]; [|destruct r; discriminate].
    inversion Hlab; subst. contradiction.
  - reflexivity.
  - simpl. repeat constructor.
  - exists 3%R. reflexivity.
Defined.

Lemma forward_row_logsumexp_finite softcap scale V row :
  (0 <= scale)%R -> Forall is_finite row -> 0 < V -> Z.of_nat (length row) = V ->
  exists lse, forward_row_logsumexp softcap scale V row = Fin lse.
Proof.
  intros Hs Hrow HV Hlen.
  assert (row <> []) as Hne by (intros Hnil; rewrite Hnil in Hlen; simpl in Hlen; lia).
  unfold forward_row_logsumexp.
  destruct (Z.leb_spec V MAX_FUSED_SIZE) as [Hle|Hgt].
  - rewrite row_logsumexp_value; eauto using forward_config_softcap_ok,
      forward_config_pad_low.
  - assert (0 < MAX_FUSED_SIZE) as Hcap by reflexivity.
    pose proof (ceil_div_bounds V MAX_FUSED_SIZE Hcap HV).
    rewrite chunked_row_logsumexp_value; eauto using forward_config_softcap_ok,
      forward_config_pad_low; lia.
Qed.

(** C5. Ignored rows.  A row labelled -100 gets the loss 0 from [forward],
    through the single-pass kernel and through the chunked path (where the
    masking comes after the chunk reduction has been added), whatever the
    block widths; and [backward], run on what [forward] saved, leaves 0 in
    every column of that row. *)
Theorem ignored_rows_zero t labels softcap scale dloss dstride (r : nat) :
  rows_in_bounds t -> 0 < shape1 t <= stride0 t ->
  Z.of_nat (length labels) = shape0 t ->
  Forall int32_range labels -> Forall (valid_label (shape1 t)) labels ->
  (0 <= scale)%R ->
  dloss_readable labels dloss dstride ->
  labels !! r = Some (-100) ->
  Forall is_finite (row_of t (Z.of_nat r)) ->
  (forall B cfg, shape1 t <= B ->
     exists L E, single_pass_path t labels B cfg (torch_empty (shape0 t)) = Some (L, E) /\
                 L !! r = Some (Fin 0)) /\
  (forall N B cfg, 0 < N -> 0 <= B -> shape1 t <= N * B ->
     exists L E, chunked_path t labels N B cfg (torch_empty (shape0 t)) = Some (L, E) /\
                 L !! r = Some (Fin 0)) /\
  exists losses ctx,
    Fast_CrossEntropyLoss_forward t labels softcap scale = Ok (losses, ctx) /\
    losses !! r = Some (Fin 0) /\
    exists grad,
      Fast_CrossEntropyLoss_backward ctx dloss dstride = Ok grad /\
      forall c, 0 <= c < shape1 t ->
        load (storage grad) (Z.of_nat r * stride0 t + c) = Some (Fin 0).
Proof.
  intros Hwf HV Hlabels H32 Hval Hs Hdl Hlab Hrow.
  change (-100) with IGNORE in Hlab.
  assert (Hempty : Z.of_nat (length (torch_empty (shape0 t))) = shape0 t)
    by (unfold torch_empty; rewrite length_replicate; lia).
  split; [|split].
  - intros B cfg HB.
    destruct (single_pass_path_spec t labels B cfg (torch_empty (shape0 t)))
      as [L [E [Hrun [_ [_ Hall]]]]]; try assumption.
    exists L, E. split; [exact Hrun|].
    destruct (Hall r IGNORE Hlab) as [HL _]. exact HL.
  - intros N B cfg HN HB HNB.
    destruct (chunked_path_spec t labels N B cfg (torch_empty (shape0 t)))
      as [L [E [Hrun [_ [_ Hall]]]]]; try assumption.
    exists L, E. split; [exact Hrun|].
    destruct (Hall r IGNORE Hlab) as [HL _]. exact HL.
  - destruct (forward_spec t labels softcap scale)
      as [losses [ctx [Hfw [Hctx [HL [HE Hrows]]]]]]; try assumption; try lia.
    exists losses, ctx. split; [exact Hfw|].
    destruct (Hrows r IGNORE Hlab) as [Hloss Hlse].
    rewrite forward_row_loss_ignored in Hloss. split; [exact Hloss|].
    assert (0 <= Z.of_nat r < shape0 t) as Hr
      by (apply lookup_lt_Some in Hlab; lia).
    destruct (forward_row_logsumexp_finite softcap scale (shape1 t)
                (row_of t (Z.of_nat r))) as [lse Hfin];
      [exact Hs | exact Hrow | lia | apply row_of_length; assumption |].
    destruct (backward_ignored_row_zero ctx dloss dstride r) as [grad [Hbw Hz]].
    + rewrite Hctx. split; [exact Hwf|]. split; [simpl; lia|].
      split; [exact Hlabels|]. split; [exact H32 | exact HE].
    + rewrite Hctx. apply forward_config_softcap_ok.
    + rewrite Hctx. exact Hdl.
    + rewrite Hctx. exact Hlab.
    + rewrite Hctx. exact Hrow.
    + exists lse. rewrite Hlse, Hfin. reflexivity.
    + exists grad. split; [exact Hbw|].
      rewrite Hctx in Hz. exact Hz.
Qed.

Lemma ignored_rows_zero_witness :
  let t := mk_tensor 1 4 4 [Fin 1; Fin 2; Fin 3; Fin 4] in
  let labels := [-100] in
  let dloss := [Fin 5] in
  (forall B cfg, shape1 t <= B ->
     exists L E, single_pass_path t labels B cfg (torch_empty (shape0 t)) = Some (L, E) /\
                 L !! 0%nat = Some (Fin 0)) /\
  (forall N B cfg, 0 < N -> 0 <= B -> shape1 t <= N * B ->
     exists L E, chunked_path t labels N B cfg (torch_empty (shape0 t)) = Some (L, E) /\
                 L !! 0%nat = Some (Fin 0)) /\
  exists losses ctx,
    Fast_CrossEntropyLoss_forward t labels 0 0 = Ok (losses, ctx) /\
    losses !! 0%nat = Some (Fin 0) /\
    exists grad,
      Fast_CrossEntropyLoss_backward ctx dloss 0 = Ok grad /\
      forall c, 0 <= c < shape1 t ->
        load (storage grad) (Z.of_nat 0 * stride0 t + c) = Some (Fin 0).
Proof.
  apply (ignored_rows_zero (mk_tensor 1 4 4 [Fin 1; Fin 2; Fin 3; Fin 4])
           [-100] 0 0 [Fin 5] 0 0%nat).
  - solve_rows_in_bounds.
  - simpl. lia.
  - reflexivity.
  - solve_labels.
  - solve_labels.
  - lra.
  - intros r label Hlab Hne. simpl in Hlab.
    destruct r as [|r]; [|destruct r; discriminate].
    inversion Hlab; subst. contradiction.
  - reflexivity.
  - simpl. repeat constructor.
Defined.

(** ** Faults *)

(** The load of the logit at the label has no mask: when its address is
    outside the storage the program faults. *)
Lemma forward_program_label_fault logits stride labels V B cfg r out label :
  load labels r = Some label -> to_int32 label <> IGNORE ->
  load logits (r * stride + to_int32 label) = None ->
  _cross_entropy_forward logits stride labels V B cfg r out = None.
Proof.
  intros Hlab Hne Hload. destruct out as [L E].
  unfold _cross_entropy_forward. rewrite Hlab. simpl.
  destruct (tl_load_masked _ _ _ _ _); [|reflexivity]. simpl.
  destruct (Z.eqb_spec (to_int32 label) IGNORE); [contradiction|]. simpl.
  rewrite Hload. reflexivity.
Qed.

Lemma chunked_program_label_fault logits stride labels V N B cfg r out label :
  load labels r = Some label -> to_int32 label <> IGNORE ->
  load logits (r * stride + to_int32 label) = None ->
  _chunked_cross_entropy_forward logits stride labels V N B cfg r 0 out = None.
Proof.
  intros Hlab Hne Hload. destruct out as [L E].
  unfold _chunked_cross_entropy_forward. rewrite Hlab. simpl.
  destruct (tl_load_masked _ _ _ _ _); [|reflexivity]. simpl.
  destruct (Z.eqb_spec (to_int32 label) IGNORE); [contradiction|]. simpl.
  rewrite Hload. reflexivity.
Qed.

Lemma forward_label_fault t labels softcap scale (r : nat) label :
  0 < shape1 t -> Z.of_nat (length labels) = shape0 t ->
  labels !! r = Some label -> int32_range label -> label <> IGNORE ->
  load (storage t) (Z.of_nat r * stride0 t + label) = None ->
  Fast_CrossEntropyLoss_forward t labels softcap scale = Raised DeviceFault.
Proof.
  intros HV Hlabels Hlab H32 Hne Hload.
  assert (Z.of_nat r ∈ seqZ 0 (shape0 t)) as Hin
    by (apply elem_of_seqZ; apply lookup_lt_Some in Hlab; lia).
  assert (load labels (Z.of_nat r) = Some label) as Hl
    by (rewrite load_nat; exact Hlab).
  rewrite <- (to_int32_id label H32) in Hne, Hload.
  rewrite forward_branches. cbv zeta.
  assert (0 < MAX_FUSED_SIZE) as Hcap by reflexivity.
  destruct (Z.eqb_spec (ceil_div (shape1 t) MAX_FUSED_SIZE) 1) as [H1|H1].
  - apply ceil_div_one in H1; try assumption.
    rewrite calculate_settings_fits by lia.
    unfold single_pass_path, launch_grid1.
    rewrite (run_programs_fault _ _ (Z.of_nat r) Hin); [reflexivity|].
    intros s. eapply forward_program_label_fault; eassumption.
  - pose proof (ceil_div_bounds (shape1 t) MAX_FUSED_SIZE Hcap HV) as Hb.
    unfold chunked_path, launch_grid2.
    rewrite (run_programs_fault _ _ (Z.of_nat r) Hin); [reflexivity|].
    intros s. apply (run_programs_fault _ _ 0).
    + apply elem_of_seqZ. nia.
    + intros s'. eapply chunked_program_label_fault; eassumption.
Qed.

(** C10. Safety precondition on the labels.  When every label is -100 or a
    column index below the vocabulary size, [forward] completes without a
    fault.  For a label that is neither, both forward kernels read the
    logits storage at [row * stride + label] with no mask; that address
    lies outside the columns of the row, and when it is outside the
    storage the single-pass program, the chunk-0 program and so [forward]
    itself fault. *)
Theorem label_bounds_safety t labels softcap scale :
  rows_in_bounds t -> 0 < shape1 t ->
  Z.of_nat (length labels) = shape0 t ->
  Forall int32_range labels ->
  (Forall (valid_label (shape1 t)) labels ->
     exists losses ctx,
       Fast_CrossEntropyLoss_forward t labels softcap scale = Ok (losses, ctx)) /\
  (forall (r : nat) label,
     labels !! r = Some label -> label <> -100 -> ~ (0 <= label < shape1 t) ->
     let row_ptr := Z.of_nat r * stride0 t in
     ~ (row_ptr <= row_ptr + label < row_ptr + shape1 t) /\
     (load (storage t) (row_ptr + label) = None ->
      (forall B cfg out,
         _cross_entropy_forward (storage t) (stride0 t) labels (shape1 t) B cfg
           (Z.of_nat r) out = None) /\
      (forall N B cfg out,
         _chunked_cross_entropy_forward (storage t) (stride0 t) labels (shape1 t)
           N B cfg (Z.of_nat r) 0 out = None) /\
      Fast_CrossEntropyLoss_forward t labels softcap scale = Raised DeviceFault)).
Proof.
  intros Hwf HV Hlabels H32. split.
  - intros Hval.
    destruct (forward_spec t labels softcap scale Hwf HV Hlabels H32 Hval)
      as [losses [ctx [Hfw _]]]. eauto.
  - intros r label Hlab Hne Hout row_ptr. split; [lia|].
    intros Hload.
    assert (int32_range label) as Hl32 by (eapply Forall_lookup_1 in H32; eauto).
    assert (load labels (Z.of_nat r) = Some label) as Hl
      by (rewrite load_nat; exact Hlab).
    split; [|split].
    + intros B cfg out. eapply forward_program_label_fault; try eassumption;
        rewrite to_int32_id by exact Hl32; assumption.
    + intros N B cfg out. eapply chunked_program_label_fault; try eassumption;
        rewrite to_int32_id by exact Hl32; assumption.
    + eapply forward_label_fault; eassumption.
Qed.

Lemma label_bounds_safety_witness :
  let t := mk_tensor 1 4 4 [Fin 1; Fin 2; Fin 3; Fin 4] in
  let labels := [7] in
  (Forall (valid_label (shape1 t)) labels ->
     exists losses ctx,
       Fast_CrossEntropyLoss_forward t labels 0 0 = Ok (losses, ctx)) /\
  (forall (r : nat) label,
     labels !! r = Some label -> label <> -100 -> ~ (0 <= label < shape1 t) ->
     let row_ptr := Z.of_nat r * stride0 t in
     ~ (row_ptr <= row_ptr + label < row_ptr + shape1 t) /\
     (load (storage t) (row_ptr + label) = None ->
      (forall B cfg out,
         _cross_entropy_forward (storage t) (stride0 t) labels (shape1 t) B cfg
           (Z.of_nat r) out = None) /\
      (forall N B cfg out,
         _chunked_cross_entropy_forward (storage t) (stride0 t) labels (shape1 t)
           N B cfg (Z.of_nat r) 0 out = None) /\
      Fast_CrossEntropyLoss_forward t labels 0 0 = Raised DeviceFault)).
Proof.
  apply (label_bounds_safety (mk_tensor 1 4 4 [Fin 1; Fin 2; Fin 3; Fin 4]) [7] 0 0).
  - solve_rows_in_bounds.
  - simpl. lia.
  - reflexivity.
  - solve_labels.
Defined.

(** A label past the end of the only row: [forward] faults. *)
Example out_of_range_label_faults :
  Fast_CrossEntropyLoss_forward (mk_tensor 1 4 4 [Fin 1; Fin 2; Fin 3; Fin 4])
    [7] 0 0 = Raised DeviceFault.
Proof.
  apply (forward_label_fault _ _ _ _ 0%nat 7).
  - simpl. lia.
  - reflexivity.
  - reflexivity.
  - unfold int32_range. lia.
  - unfold IGNORE. lia.
  - reflexivity.
Qed.

(** ** The two forward paths under softcapping *)

Lemma row_loss_value cfg row B label x :
  softcap_ok cfg -> pad_low cfg -> Forall is_finite row ->
  row !! Z.to_nat label = Some (Fin x) -> label <> IGNORE ->
  row_loss cfg row B label =
  Fin (ln (expsum (map (pre_transform cfg) row) +
           INR (Z.to_nat B - length row) * exp_term (pre_transform cfg NInf))
       - pre_R cfg x).
Proof.
  intros Hok Hpad Hrow Hx Hne. unfold row_loss.
  destruct (Z.eqb_spec label IGNORE); [contradiction|].
  rewrite row_logsumexp_value; try assumption.
  - rewrite (list_lookup_total_correct _ _ _ Hx).
    rewrite pre_transform_Fin by exact Hok. reflexivity.
  - intros Hnil. rewrite Hnil in Hx. discriminate.
Qed.

Lemma chunked_row_loss_value cfg row N B label x :
  softcap_ok cfg -> pad_low cfg -> Forall is_finite row ->
  0 < N -> 0 < B -> (N - 1) * B < Z.of_nat (length row) <= N * B ->
  row !! Z.to_nat label = Some (Fin x) -> label <> IGNORE ->
  chunked_row_loss cfg row N B label =
  Fin (-1 * pre_R cfg x +
       ln (expsum (map (pre_transform cfg) row) +
           INR (Z.to_nat (N * B) - length row) * exp_term (pre_transform cfg NInf))).
Proof.
  intros Hok Hpad Hrow HN HB Hlen Hx Hne. unfold chunked_row_loss, label_term.
  destruct (Z.eqb_spec label IGNORE); [contradiction|].
  rewrite chunked_row_logsumexp_value by assumption.
  rewrite (list_lookup_total_correct _ _ _ Hx).
  rewrite pre_transform_Fin by exact Hok. reflexivity.
Qed.

Lemma tanh_0 : tanh 0 = 0%R.
Proof. unfold tanh. rewrite sinh_0. unfold Rdiv. apply Rmult_0_l. Qed.

Lemma nonzero_1 : nonzero 1 = true.
Proof. apply nonzero_true. lra. Qed.

Lemma nonzero_0 : nonzero 0 = false.
Proof. unfold nonzero. destruct (Req_dec_T 0 0); [reflexivity | contradiction]. Qed.

(** Softcap 1, no scaling: a zero logit stays 0 and a padded lane becomes -1. *)
Lemma softcap_one_zero : pre_R (forward_config 1 0) 0 = 0%R.
Proof.
  unfold pre_R, forward_config. simpl. rewrite nonzero_1, nonzero_0.
  unfold Rdiv. rewrite Rmult_0_l, tanh_0. lra.
Qed.

Lemma softcap_one_padding : pre_transform (forward_config 1 0) NInf = Fin (-1).
Proof.
  rewrite pre_transform_NInf_softcap.
  - simpl. rewrite Rabs_R1. reflexivity.
  - apply nonzero_1.
  - apply nonzero_0.
  - simpl. lra.
Qed.

Lemma expsum_softcap_one_zeros (n : nat) :
  expsum (map (pre_transform (forward_config 1 0)) (replicate n (Fin 0))) = INR n.
Proof.
  change (map ?f ?l) with (f <$> l). rewrite fmap_replicate.
  rewrite pre_transform_Fin by apply forward_config_softcap_ok.
  rewrite softcap_one_zero, expsum_replicate. simpl. rewrite exp_0. lra.
Qed.

Lemma zero_row_logits_row V : row_of (zero_row_logits V) 0 = replicate (Z.to_nat V) (Fin 0).
Proof.
  unfold row_of, zero_row_logits. cbn [shape1 stride0 storage].
  rewrite Z.mul_0_l. change (Z.to_nat 0) with 0%nat.
  rewrite drop_0, take_replicate, Nat.min_id. reflexivity.
Qed.

Lemma zero_row_logits_in_bounds V : 0 <= V -> rows_in_bounds (zero_row_logits V).
Proof.
  intros HV. split; cbn [shape0 shape1 stride0 storage zero_row_logits]; [exact HV|].
  intros r Hr. rewrite length_replicate. lia.
Qed.

(** The losses the two paths store for the row of zeros, label 0, softcap 1:
    each padded lane adds [exp (-1)] under the logarithm. *)
Lemma zero_row_single_loss V B :
  0 < V -> V <= B ->
  row_loss (forward_config 1 0) (replicate (Z.to_nat V) (Fin 0)) B 0 =
  Fin (ln (IZR V + IZR (B - V) * exp (-1))).
Proof.
  intros HV HB.
  rewrite (row_loss_value _ _ _ _ 0%R).
  - rewrite expsum_softcap_one_zeros, softcap_one_padding, softcap_one_zero.
    simpl exp_term. rewrite length_replicate, !INR_IZR_INZ.
    f_equal. replace (Z.of_nat (Z.to_nat V)) with V by lia.
    replace (Z.of_nat (Z.to_nat B - Z.to_nat V)) with (B - V) by lia. lra.
  - apply forward_config_softcap_ok.
  - apply forward_config_pad_low. lra.
  - apply Forall_replicate. exact I.
  - apply lookup_replicate. split; [reflexivity | lia].
  - unfold IGNORE. lia.
Qed.

Lemma zero_row_chunked_loss V N B :
  0 < N -> 0 < B -> (N - 1) * B < V <= N * B ->
  chunked_row_loss (forward_config 1 0) (replicate (Z.to_nat V) (Fin 0)) N B 0 =
  Fin (ln (IZR V + IZR (N * B - V) * exp (-1))).
Proof.
  intros HN HB HV.
  rewrite (chunked_row_loss_value _ _ _ _ _ 0%R).
  - rewrite expsum_softcap_one_zeros, softcap_one_padding, softcap_one_zero.
    simpl exp_term. rewrite length_replicate, !INR_IZR_INZ.
    f_equal. replace (Z.of_nat (Z.to_nat V)) with V by nia.
    replace (Z.of_nat (Z.to_nat (N * B) - Z.to_nat V)) with (N * B - V) by nia. lra.
  - apply forward_config_softcap_ok.
  - apply forward_config_pad_low. lra.
  - apply Forall_replicate. exact I.
  - exact HN.
  - exact HB.
  - rewrite length_replicate. nia.
  - apply lookup_replicate. split; [reflexivity | nia].
  - unfold IGNORE. lia.
Qed.

Lemma ln_pad_differ (S a b : Z) :
  0 < S -> 0 <= a < b ->
  Fin (ln (IZR S + IZR a * exp (-1))) <> Fin (ln (IZR S + IZR b * exp (-1))).
Proof.
  intros HS Hab Heq. inversion Heq as [Hln].
  pose proof (exp_pos (-1)) as He.
  assert (0 < IZR S)%R by (apply IZR_lt; exact HS).
  assert (0 <= IZR a)%R by (apply IZR_le; lia).
  assert (IZR a < IZR b)%R by (apply IZR_lt; lia).
  apply ln_inv in Hln; nra.
Qed.

(** C3, on the code.  One row of 131073 zero logits, label 0, softcap 1, no
    scaling.  [forward] takes the chunked path with 3 chunks of 65536
    lanes, whose 65535 padded lanes each add [exp (-1)] to the sum of
    exponentials; the single-pass kernel run on the same row with the block
    width 262144 pads 131071 lanes.  The two losses differ, and neither is
    the logarithm of 131073. *)
Theorem chunked_and_single_pass_differ_under_softcap :
  let t := zero_row_logits 131073 in
  let cfg := forward_config 1 0 in
  exists losses ctx L E,
    Fast_CrossEntropyLoss_forward t [0] 1 0 = Ok (losses, ctx) /\
    chunked_path t [0] 3 MAX_FUSED_SIZE cfg (torch_empty 1) = Some (losses, saved_logsumexp ctx) /\
    single_pass_path t [0] 262144 cfg (torch_empty 1) = Some (L, E) /\
    losses !! 0%nat = Some (Fin (ln (131073 + 65535 * exp (-1)))) /\
    L !! 0%nat = Some (Fin (ln (131073 + 131071 * exp (-1)))) /\
    losses !! 0%nat <> L !! 0%nat /\
    losses !! 0%nat <> Some (Fin (ln 131073)) /\
    L !! 0%nat <> Some (Fin (ln 131073)).
Proof.
  intros t cfg. unfold t.
  assert (Hwf : rows_in_bounds t) by (apply zero_row_logits_in_bounds; lia).
  assert (H32 : Forall int32_range [0])
    by (constructor; [unfold int32_range; lia | constructor]).
  assert (Hval : Forall (valid_label (shape1 t)) [0])
    by (constructor; [right; simpl; lia | constructor]).
  assert (HN : ceil_div 131073 MAX_FUSED_SIZE = 3) by reflexivity.
  destruct (chunked_path_spec t [0] 3 MAX_FUSED_SIZE cfg (torch_empty 1))
    as [Lc [Ec [Hc [_ [_ Hcr]]]]]; try assumption; try reflexivity;
    try (unfold MAX_FUSED_SIZE; simpl; lia).
  destruct (single_pass_path_spec t [0] 262144 cfg (torch_empty 1))
    as [L [E [Hs [_ [_ Hsr]]]]]; try assumption; try reflexivity;
    try (simpl; lia).
  destruct (Hcr 0%nat 0 eq_refl) as [HLc _].
  destruct (Hsr 0%nat 0 eq_refl) as [HL _].
  change (Z.of_nat 0) with 0 in HLc, HL. unfold t in HLc, HL.
  rewrite zero_row_logits_row in HLc, HL.
  rewrite zero_row_chunked_loss in HLc by (unfold MAX_FUSED_SIZE; lia).
  rewrite zero_row_single_loss in HL by lia.
  change (3 * MAX_FUSED_SIZE - 131073) with 65535 in HLc.
  change (262144 - 131073) with 131071 in HL.
  exists Lc, (saved_context t [0] 1 0 Ec), L, E.
  split.
  { rewrite forward_branches. cbv zeta.
    change (shape1 (zero_row_logits 131073)) with 131073. rewrite HN.
    change (3 =? 1) with false. cbv iota.
    change (shape0 (zero_row_logits 131073)) with 1. fold cfg t. rewrite Hc.
    reflexivity. }
  split; [exact Hc|]. split; [exact Hs|]. split; [exact HLc|]. split; [exact HL|].
  assert (Hexact : Fin (ln 131073) = Fin (ln (131073 + 0 * exp (-1))))
    by (f_equal; f_equal; lra).
  rewrite HLc, HL, Hexact. split; [|split]; intros Heq; inversion Heq as [Hln].
  - apply (ln_pad_differ 131073 65535 131071); [lia | lia |].
    f_equal. exact Hln.
  - apply (ln_pad_differ 131073 0 65535); [lia | lia |].
    f_equal. symmetry. exact Hln.
  - apply (ln_pad_differ 131073 0 131071); [lia | lia |].
    f_equal. symmetry. exact Hln.
Qed.

(** The same defect on a row of three, with an artificially small chunk
    width: chunks of width 1 have no padding and give [ln 3], the
    single-pass kernel with block width 4 pads one lane. *)
Example small_chunks_differ_under_softcap :
  let t := zero_row_logits 3 in
  let cfg := forward_config 1 0 in
  exists Lc Ec L E,
    chunked_path t [0] 3 1 cfg (torch_empty 1) = Some (Lc, Ec) /\
    single_pass_path t [0] 4 cfg (torch_empty 1) = Some (L, E) /\
    Lc !! 0%nat = Some (Fin (ln (3 + 0 * exp (-1)))) /\
    L !! 0%nat = Some (Fin (ln (3 + 1 * exp (-1)))) /\
    Lc !! 0%nat <> L !! 0%nat.
Proof.
  intros t cfg. unfold t.
  assert (Hwf : rows_in_bounds t) by (apply zero_row_logits_in_bounds; lia).
  assert (H32 : Forall int32_range [0])
    by (constructor; [unfold int32_range; lia | constructor]).
  assert (Hval : Forall (valid_label (shape1 t)) [0])
    by (constructor; [right; simpl; lia | constructor]).
  destruct (chunked_path_spec t [0] 3 1 cfg (torch_empty 1))
    as [Lc [Ec [Hc [_ [_ Hcr]]]]]; try assumption; try reflexivity;
    try (simpl; lia).
  destruct (single_pass_path_spec t [0] 4 cfg (torch_empty 1))
    as [L [E [Hs [_ [_ Hsr]]]]]; try assumption; try reflexivity;
    try (simpl; lia).
  destruct (Hcr 0%nat 0 eq_refl) as [HLc _].
  destruct (Hsr 0%nat 0 eq_refl) as [HL _].
  change (Z.of_nat 0) with 0 in HLc, HL. unfold t in HLc, HL.
  rewrite zero_row_logits_row in HLc, HL.
  rewrite zero_row_chunked_loss in HLc by lia.
  rewrite zero_row_single_loss in HL by lia.
  change (3 * 1 - 3) with 0 in HLc. change (4 - 3) with 1 in HL.
  exists Lc, Ec, L, E.
  split; [exact Hc|]. split; [exact Hs|]. split; [exact HLc|]. split; [exact HL|].
  rewrite HLc, HL. intros Heq. inversion Heq as [Hln].
  apply (ln_pad_differ 3 0 1); [lia | lia |].
  f_equal. exact Hln.
Qed.

(** ** Two worked rows *)

Lemma singleton_by_lookup {A : Type} (l : list A) (x : A) :
  length l = 1%nat -> l !! 0%nat = Some x -> l = [x].
Proof.
  intros Hlen H0. destruct l as [|y [|z l]]; try discriminate.
  simpl in H0. congruence.
Qed.

(** Spec section 8: the row [1, 2, 3, 4] with label 2 and no transform has
    the log-sum-exp [ln (e + e^2 + e^3 + e^4)] (about 4.4402) and that minus
    3 as its loss. *)
Example end_to_end_single_row :
  exists losses ctx,
    Fast_CrossEntropyLoss_forward (mk_tensor 1 4 4 [Fin 1; Fin 2; Fin 3; Fin 4])
      [2] 0 0 = Ok (losses, ctx) /\
    saved_logsumexp ctx = [Fin (ln (exp 1 + exp 2 + exp 3 + exp 4))] /\
    losses = [Fin (ln (exp 1 + exp 2 + exp 3 + exp 4) - 3)].
Proof.
  set (t := mk_tensor 1 4 4 [Fin 1; Fin 2; Fin 3; Fin 4]).
  destruct (forward_single_spec t [2] 0 0)
    as [losses [ctx [Hfw [_ [HL [HE Hrows]]]]]].
  - solve_rows_in_bounds.
  - unfold MAX_FUSED_SIZE. simpl. lia.
  - reflexivity.
  - solve_labels.
  - exists losses, ctx. split; [exact Hfw|].
    destruct (Hrows 0%nat 2 eq_refl) as [Hloss Hlse].
    assert (Hcfg : softcap_ok (forward_config 0 0))
      by apply forward_config_softcap_ok.
    assert (Hpad : pad_low (forward_config 0 0))
      by (apply forward_config_pad_low; lra).
    assert (Hpre : forall x, pre_transform (forward_config 0 0) (Fin x) = Fin x).
    { intros x. unfold pre_transform, forward_config. simpl.
      rewrite nonzero_0. reflexivity. }
    assert (Hrow : row_of t (Z.of_nat 0) = [Fin 1; Fin 2; Fin 3; Fin 4])
      by reflexivity.
    rewrite Hrow in Hloss, Hlse.
    assert (HS : expsum (map (pre_transform (forward_config 0 0))
                           [Fin 1; Fin 2; Fin 3; Fin 4]) =
                 (exp 1 + exp 2 + exp 3 + exp 4)%R).
    { simpl map. rewrite !Hpre, !expsum_cons, expsum_nil. simpl. lra. }
    assert (HB : next_power_of_2 (shape1 t) = 4) by reflexivity.
    rewrite HB in Hloss, Hlse.
    rewrite (row_loss_value _ _ _ _ 3%R) in Hloss;
      [| assumption | assumption | repeat constructor | reflexivity
       | unfold IGNORE; lia].
    rewrite row_logsumexp_value in Hlse;
      [| assumption | assumption | repeat constructor | discriminate].
    rewrite HS in Hloss, Hlse. simpl in Hloss, Hlse.
    rewrite Rmult_0_l, Rplus_0_r in Hloss, Hlse.
    assert (Hid : pre_R (forward_config 0 0) 3 = 3%R)
      by (unfold pre_R, forward_config; simpl; rewrite nonzero_0; reflexivity).
    rewrite Hid in Hloss.
    simpl in HL, HE. split.
    + apply singleton_by_lookup; [lia | exact Hlse].
    + apply singleton_by_lookup; [lia | exact Hloss].
Qed.

(** Spec section 8: the row [0, 1, 2] with label 1 cut into chunks of width
    2 (the second one half padded) gets the loss of the single-pass kernel
    (block width 4), no transform being active. *)
Example end_to_end_two_chunks :
  let t := mk_tensor 1 3 3 [Fin 0; Fin 1; Fin 2] in
  let cfg := forward_config 0 0 in
  exists Lc Ec L E,
    chunked_path t [1] 2 2 cfg (torch_empty 1) = Some (Lc, Ec) /\
    single_pass_path t [1] 4 cfg (torch_empty 1) = Some (L, E) /\
    Lc !! 0%nat = L !! 0%nat.
Proof.
  intros t cfg.
  assert (Hwf : rows_in_bounds t) by (split; simpl; [lia | intros r Hr; lia]).
  assert (H32 : Forall int32_range [1])
    by (constructor; [unfold int32_range; lia | constructor]).
  assert (Hval : Forall (valid_label (shape1 t)) [1])
    by (constructor; [right; simpl; lia | constructor]).
  destruct (chunked_path_spec t [1] 2 2 cfg (torch_empty 1))
    as [Lc [Ec [Hc [_ [_ Hcr]]]]]; try assumption; try reflexivity;
    try (simpl; lia).
  destruct (single_pass_path_spec t [1] 4 cfg (torch_empty 1))
    as [L [E [Hs [_ [_ Hsr]]]]]; try assumption; try reflexivity;
    try (simpl; lia).
  destruct (Hcr 0%nat 1 eq_refl) as [HLc _].
  destruct (Hsr 0%nat 1 eq_refl) as [HL _].
  exists Lc, Ec, L, E. split; [exact Hc|]. split; [exact Hs|].
  rewrite HLc, HL. f_equal.
  apply paths_agree_without_softcap.
  - apply nonzero_0.
  - unfold cfg. simpl. rewrite nonzero_0. discriminate.
  - repeat constructor.
  - lia.
  - lia.
  - simpl. lia.
  - simpl. lia.
Qed.

(** * Further properties *)

(** ** Exact values of what [forward] stores *)

Lemma expsum_reals (ys : list R) : expsum (map Fin ys) = Rsum (map exp ys).
Proof.
  induction ys as [|y ys IH]; [reflexivity|].
  simpl. rewrite expsum_cons, IH. reflexivity.
Qed.

Lemma map_pre_reals cfg (xs : list R) :
  softcap_ok cfg ->
  map (pre_transform cfg) (map Fin xs) = map Fin (map (pre_R cfg) xs).
Proof.
  intros Hok. induction xs as [|x xs IH]; [reflexivity|].
  simpl. rewrite pre_transform_Fin by exact Hok. f_equal. exact IH.
Qed.

Lemma Forall_finite_reals (xs : list R) : Forall is_finite (map Fin xs).
Proof. induction xs; simpl; constructor; [exact I | assumption]. Qed.

Lemma lookup_reals (xs : list R) (i : nat) :
  (i < length xs)%nat -> map Fin xs !! i = Some (Fin (nth i xs 0%R)).
Proof.
  revert i. induction xs as [|x xs IH]; intros i Hi; simpl in Hi; [lia|].
  destruct i as [|i]; [reflexivity|]. simpl. apply IH. lia.
Qed.

Lemma Rsum_exp_pos (ys : list R) : ys <> [] -> (0 < Rsum (map exp ys))%R.
Proof.
  intros Hne. rewrite <- expsum_reals. apply expsum_pos.
  destruct ys; [congruence|]. left. exact I.
Qed.

Lemma Rsum_exp_ge (ys : list R) (i : nat) :
  (i < length ys)%nat -> (exp (nth i ys 0) <= Rsum (map exp ys))%R.
Proof.
  revert i. induction ys as [|y ys IH]; intros i Hi; simpl in Hi; [lia|].
  simpl. destruct i as [|i].
  - assert (0 <= Rsum (map exp ys))%R
      by (rewrite <- expsum_reals; apply expsum_nonneg). lra.
  - pose proof (IH i ltac:(lia)). pose proof (exp_pos y). lra.
Qed.

Lemma forward_lanes_cover V : 0 < V -> V <= forward_lanes V.
Proof.
  intros HV. unfold forward_lanes.
  destruct (Z.leb_spec V MAX_FUSED_SIZE).
  - apply next_power_of_2_ge. exact HV.
  - assert (0 < MAX_FUSED_SIZE) as Hcap by reflexivity.
    pose proof (ceil_div_bounds V MAX_FUSED_SIZE Hcap HV). lia.
Qed.

(** The log-sum-exp and the loss [forward] stores for a real row: the
    logarithm of the sum of exponentials of the transformed logits, plus one
    term per padded lane. *)
Lemma forward_row_logsumexp_value softcap scale V (xs : list R) :
  (0 <= scale)%R -> 0 < V -> Z.of_nat (length xs) = V ->
  let cfg := forward_config softcap scale in
  forward_row_logsumexp softcap scale V (map Fin xs) =
  Fin (ln (Rsum (map exp (map (pre_R cfg) xs)) +
           IZR (forward_lanes V - V) * exp_term (pre_transform cfg NInf))).
Proof.
  intros Hs HV Hlen cfg.
  assert (Hok : softcap_ok cfg) by apply forward_config_softcap_ok.
  assert (Hpad : pad_low cfg) by (apply forward_config_pad_low; exact Hs).
  assert (Hne : map Fin xs <> [])
    by (destruct xs; [simpl in Hlen; lia | discriminate]).
  assert (0 < MAX_FUSED_SIZE) as Hcap by reflexivity.
  unfold forward_row_logsumexp, forward_lanes in *. fold cfg.
  destruct (Z.leb_spec V MAX_FUSED_SIZE) as [Hle|Hgt].
  - pose proof (next_power_of_2_ge V HV).
    rewrite row_logsumexp_value; try assumption; [|apply Forall_finite_reals].
    rewrite map_pre_reals, expsum_reals by exact Hok.
    rewrite length_map, INR_IZR_INZ.
    replace (Z.of_nat (Z.to_nat (next_power_of_2 V) - length xs))
      with (next_power_of_2 V - V) by lia.
    reflexivity.
  - pose proof (ceil_div_bounds V MAX_FUSED_SIZE Hcap HV).
    rewrite chunked_row_logsumexp_value; try assumption;
      [|apply Forall_finite_reals | lia | rewrite length_map; lia].
    rewrite map_pre_reals, expsum_reals by exact Hok.
    rewrite length_map, INR_IZR_INZ.
    replace (Z.of_nat (Z.to_nat (ceil_div V MAX_FUSED_SIZE * MAX_FUSED_SIZE)
                       - length xs))
      with (ceil_div V MAX_FUSED_SIZE * MAX_FUSED_SIZE - V) by lia.
    reflexivity.
Qed.

Lemma forward_row_loss_value softcap scale V (xs : list R) label :
  (0 <= scale)%R -> 0 < V -> Z.of_nat (length xs) = V -> 0 <= label < V ->
  let cfg := forward_config softcap scale in
  forward_row_loss softcap scale V (map Fin xs) label =
  Fin (ln (Rsum (map exp (map (pre_R cfg) xs)) +
           IZR (forward_lanes V - V) * exp_term (pre_transform cfg NInf))
       - pre_R cfg (nth (Z.to_nat label) xs 0%R)).
Proof.
  intros Hs HV Hlen Hlab cfg.
  assert (Hok : softcap_ok cfg) by apply forward_config_softcap_ok.
  assert (Hpad : pad_low cfg) by (apply forward_config_pad_low; exact Hs).
  assert (Hx : map Fin xs !! Z.to_nat label =
               Some (Fin (nth (Z.to_nat label) xs 0%R)))
    by (apply lookup_reals; lia).
  assert (Hne : label <> IGNORE) by (unfold IGNORE; lia).
  assert (0 < MAX_FUSED_SIZE) as Hcap by reflexivity.
  unfold forward_row_loss, forward_lanes in *. fold cfg.
  destruct (Z.leb_spec V MAX_FUSED_SIZE) as [Hle|Hgt].
  - pose proof (next_power_of_2_ge V HV).
    rewrite (row_loss_value cfg _ _ _ _ Hok Hpad (Forall_finite_reals xs) Hx Hne).
    rewrite map_pre_reals, expsum_reals by exact Hok.
    rewrite length_map, INR_IZR_INZ.
    replace (Z.of_nat (Z.to_nat (next_power_of_2 V) - length xs))
      with (next_power_of_2 V - V) by lia.
    reflexivity.
  - pose proof (ceil_div_bounds V MAX_FUSED_SIZE Hcap HV).
    rewrite (chunked_row_loss_value cfg _ _ _ _ (nth (Z.to_nat label) xs 0%R));
      try assumption;
      [|apply Forall_finite_reals | lia | rewrite length_map; lia].
    rewrite map_pre_reals, expsum_reals by exact Hok.
    rewrite length_map, INR_IZR_INZ.
    replace (Z.of_nat (Z.to_nat (ceil_div V MAX_FUSED_SIZE * MAX_FUSED_SIZE)
                       - length xs))
      with (ceil_div V MAX_FUSED_SIZE * MAX_FUSED_SIZE - V) by lia.
    f_equal. lra.
Qed.

Lemma finite_list_reals (row : list fval) :
  Forall is_finite row -> exists xs, row = map Fin xs.
Proof.
  induction 1 as [|v row Hv _ [xs ->]]; [exists []; reflexivity|].
  destruct v as [| | |x]; simpl in Hv; try tauto.
  exists (x :: xs). reflexivity.
Qed.

(** What [forward] stores for the rows that hold reals. *)
Lemma forward_real_rows t labels softcap scale :
  rows_in_bounds t -> 0 < shape1 t ->
  Z.of_nat (length labels) = shape0 t ->
  Forall int32_range labels -> Forall (valid_label (shape1 t)) labels ->
  (0 <= scale)%R ->
  let cfg := forward_config softcap scale in
  exists losses ctx,
    Fast_CrossEntropyLoss_forward t labels softcap scale = Ok (losses, ctx) /\
    ctx = saved_context t labels softcap scale (saved_logsumexp ctx) /\
    Z.of_nat (length (saved_logsumexp ctx)) = shape0 t /\
    forall (r : nat) label xs,
      labels !! r = Some label -> row_of t (Z.of_nat r) = map Fin xs ->
      let lse := ln (Rsum (map exp (map (pre_R cfg) xs)) +
                     IZR (forward_lanes (shape1 t) - shape1 t) *
                     exp_term (pre_transform cfg NInf)) in
      Z.of_nat (length xs) = shape1 t /\
      saved_logsumexp ctx !! r = Some (Fin lse) /\
      losses !! r =
        Some (if label =? IGNORE then Fin 0
              else Fin (lse - pre_R cfg (nth (Z.to_nat label) xs 0%R))).
Proof.
  intros Hwf HV Hlabels H32 Hval Hs cfg.
  destruct (forward_spec t labels softcap scale Hwf HV Hlabels H32 Hval)
    as [losses [ctx [Hfw [Hctx [_ [HE Hrows]]]]]].
  exists losses, ctx. split; [exact Hfw|]. split; [exact Hctx|].
  split; [exact HE|].
  intros r label xs Hlab Hrow lse.
  assert (0 <= Z.of_nat r < shape0 t) as Hr by (apply lookup_lt_Some in Hlab; lia).
  pose proof (row_of_length t _ Hwf Hr) as Hlen.
  rewrite Hrow, length_map in Hlen.
  destruct (Hrows r label Hlab) as [Hloss Hlse].
  rewrite Hrow in Hloss, Hlse.
  rewrite forward_row_logsumexp_value in Hlse by assumption.
  split; [exact Hlen|]. split; [exact Hlse|].
  destruct (Z.eqb_spec label IGNORE) as [->|Hne].
  - rewrite forward_row_loss_ignored in Hloss. exact Hloss.
  - assert (valid_label (shape1 t) label) as [?|Hin]
      by (eapply Forall_lookup_1 in Hval; eauto); [contradiction|].
    rewrite forward_row_loss_value in Hloss by assumption. exact Hloss.
Qed.

(** X1. The loss of a row is a non-negative real: for every row of real
    logits, with labels in range and a non-negative scale, [forward] (on
    either path, with or without softcapping) stores a real loss that is at
    least 0. *)
Theorem forward_loss_nonneg t labels softcap scale :
  rows_in_bounds t -> 0 < shape1 t ->
  Z.of_nat (length labels) = shape0 t ->
  Forall int32_range labels -> Forall (valid_label (shape1 t)) labels ->
  (0 <= scale)%R ->
  exists losses ctx,
    Fast_CrossEntropyLoss_forward t labels softcap scale = Ok (losses, ctx) /\
    forall (r : nat), (r < length labels)%nat ->
      Forall is_finite (row_of t (Z.of_nat r)) ->
      exists l, losses !! r = Some (Fin l) /\ (0 <= l)%R.
Proof.
  intros Hwf HV Hlabels H32 Hval Hs.
  destruct (forward_real_rows t labels softcap scale Hwf HV Hlabels H32 Hval Hs)
    as [losses [ctx [Hfw [_ [_ Hrows]]]]].
  exists losses, ctx. split; [exact Hfw|].
  intros r Hr Hfin.
  destruct (lookup_lt_is_Some_2 labels r Hr) as [label Hlab].
  destruct (finite_list_reals _ Hfin) as [xs Hxs].
  destruct (Hrows r label xs Hlab Hxs) as [Hlen [_ Hloss]].
  destruct (Z.eqb_spec label IGNORE) as [->|Hne].
  - exists 0%R. split; [exact Hloss | lra].
  - assert (valid_label (shape1 t) label) as [?|Hin]
      by (eapply Forall_lookup_1 in Hval; eauto); [contradiction|].
    eexists. split; [exact Hloss|].
    set (cfg := forward_config softcap scale).
    set (ys := map (pre_R cfg) xs).
    assert (Hnth : pre_R cfg (nth (Z.to_nat label) xs 0%R) = nth (Z.to_nat label) ys 0%R).
    { unfold ys. rewrite <- (map_nth (pre_R cfg)).
      apply nth_indep. rewrite length_map. lia. }
    rewrite Hnth.
    pose proof (Rsum_exp_ge ys (Z.to_nat label)
                  ltac:(unfold ys; rewrite length_map; lia)) as Hge.
    pose proof (exp_pos (nth (Z.to_nat label) ys 0%R)) as Hpos.
    pose proof (forward_lanes_cover (shape1 t) HV) as Hcov.
    assert (0 <= IZR (forward_lanes (shape1 t) - shape1 t) *
                 exp_term (pre_transform cfg NInf))%R as Hpadnn.
    { apply Rmult_le_pos; [apply IZR_le; lia | apply exp_term_nonneg]. }
    set (S := Rsum (map exp ys)) in *.
    set (p := (IZR (forward_lanes (shape1 t) - shape1 t) *
               exp_term (pre_transform cfg NInf))%R) in *.
    assert (nth (Z.to_nat label) ys 0 <= ln (S + p))%R.
    { rewrite <- (ln_exp (nth (Z.to_nat label) ys 0%R)) at 1.
      destruct (Req_dec_T (exp (nth (Z.to_nat label) ys 0%R)) (S + p)) as [->|Hneq];
        [lra|].
      left. apply ln_increasing; lra. }
    lra.
Qed.

Lemma forward_loss_nonneg_witness :
  let t := mk_tensor 1 4 4 [Fin 1; Fin 2; Fin 3; Fin 4] in
  exists losses ctx,
    Fast_CrossEntropyLoss_forward t [2] 0 0 = Ok (losses, ctx) /\
    forall (r : nat), (r < length [2])%nat ->
      Forall is_finite (row_of t (Z.of_nat r)) ->
      exists l, losses !! r = Some (Fin l) /\ (0 <= l)%R.
Proof.
  apply (forward_loss_nonneg (mk_tensor 1 4 4 [Fin 1; Fin 2; Fin 3; Fin 4])
           [2] 0 0).
  - solve_rows_in_bounds.
  - simpl. lia.
  - reflexivity.
  - solve_labels.
  - solve_labels.
  - lra.
Defined.

Lemma nth_map_lt (f : R -> R) (xs : list R) (i : nat) :
  (i < length xs)%nat -> f (nth i xs 0%R) = nth i (map f xs) 0%R.
Proof.
  intros Hi. rewrite <- (map_nth f). apply nth_indep. rewrite length_map. exact Hi.
Qed.

Lemma pre_R_no_softcap scale x :
  pre_R (forward_config 0 scale) x = (scale_factor scale * x)%R.
Proof.
  unfold pre_R, forward_config, scale_factor. simpl. rewrite nonzero_0.
  destruct (nonzero scale); lra.
Qed.

Lemma padding_no_softcap scale :
  (0 <= scale)%R -> pre_transform (forward_config 0 scale) NInf = NInf.
Proof.
  intros Hs. apply pre_transform_NInf_plain.
  - apply nonzero_0.
  - simpl. intros Hnz. apply nonzero_true in Hnz. lra.
Qed.

Lemma padding_softcap softcap scale :
  softcap <> 0%R -> (0 <= scale)%R ->
  pre_transform (forward_config softcap scale) NInf = Fin (- Rabs softcap).
Proof.
  intros Ht Hs. unfold pre_transform, forward_config.
  cbn [DO_SOFTCAPPING SOFTCAP DO_LOGIT_SCALING LOGIT_SCALE].
  assert (nonzero softcap = true) as -> by (apply nonzero_true; exact Ht).
  assert ((if nonzero scale then fmul (Fin scale) NInf else NInf) = NInf) as ->.
  { destruct (nonzero scale) eqn:Hnz; [|reflexivity].
    apply nonzero_true in Hnz. simpl. rewrite Rsign_pos by lra. reflexivity. }
  apply softcap_of_NInf. exact Ht.
Qed.

(** X2. Without softcapping [forward] computes the cross-entropy exactly: for
    a row of real logits [xs] with a label in range and a non-negative
    scale, the stored loss is [ln (sum (exp (s * x))) - s * x_label] and the
    saved log-sum-exp is [ln (sum (exp (s * x)))], where [s] is the scale
    when it is nonzero and 1 otherwise.  This holds on both paths and for
    every vocabulary width: lanes beyond the row contribute nothing. *)
Theorem forward_is_cross_entropy t labels scale :
  rows_in_bounds t -> 0 < shape1 t ->
  Z.of_nat (length labels) = shape0 t ->
  Forall int32_range labels -> Forall (valid_label (shape1 t)) labels ->
  (0 <= scale)%R ->
  exists losses ctx,
    Fast_CrossEntropyLoss_forward t labels 0 scale = Ok (losses, ctx) /\
    forall (r : nat) label xs,
      labels !! r = Some label -> label <> -100 ->
      row_of t (Z.of_nat r) = map Fin xs ->
      let ys := map (Rmult (scale_factor scale)) xs in
      saved_logsumexp ctx !! r = Some (Fin (ln (Rsum (map exp ys)))) /\
      losses !! r = Some (Fin (cross_entropy ys (Z.to_nat label))).
Proof.
  intros Hwf HV Hlabels H32 Hval Hs.
  destruct (forward_real_rows t labels 0 scale Hwf HV Hlabels H32 Hval Hs)
    as [losses [ctx [Hfw [_ [_ Hrows]]]]].
  exists losses, ctx. split; [exact Hfw|].
  intros r label xs Hlab Hne Hrow ys.
  destruct (Hrows r label xs Hlab Hrow) as [Hlen [Hlse Hloss]].
  assert (valid_label (shape1 t) label) as [?|Hin]
    by (eapply Forall_lookup_1 in Hval; eauto); [contradiction|].
  assert (Hys : map (pre_R (forward_config 0 scale)) xs = ys)
    by (apply map_ext; intros x; apply pre_R_no_softcap).
  rewrite padding_no_softcap in Hlse, Hloss by exact Hs.
  rewrite Hys in Hlse, Hloss. simpl exp_term in Hlse, Hloss.
  rewrite Rmult_0_r, Rplus_0_r in Hlse, Hloss.
  split; [exact Hlse|].
  destruct (Z.eqb_spec label IGNORE) as [?|_]; [contradiction|].
  rewrite Hloss. unfold cross_entropy.
  rewrite pre_R_no_softcap.
  rewrite (nth_map_lt (Rmult (scale_factor scale))) by lia. reflexivity.
Qed.

Lemma forward_is_cross_entropy_witness :
  let t := mk_tensor 1 4 4 [Fin 1; Fin 2; Fin 3; Fin 4] in
  exists losses ctx,
    Fast_CrossEntropyLoss_forward t [2] 0 0 = Ok (losses, ctx) /\
    forall (r : nat) label xs,
      [2] !! r = Some label -> label <> -100 ->
      row_of t (Z.of_nat r) = map Fin xs ->
      let ys := map (Rmult (scale_factor 0)) xs in
      saved_logsumexp ctx !! r = Some (Fin (ln (Rsum (map exp ys)))) /\
      losses !! r = Some (Fin (cross_entropy ys (Z.to_nat label))).
Proof.
  apply (forward_is_cross_entropy (mk_tensor 1 4 4 [Fin 1; Fin 2; Fin 3; Fin 4])
           [2] 0).
  - solve_rows_in_bounds.
  - simpl. lia.
  - reflexivity.
  - solve_labels.
  - solve_labels.
  - lra.
Defined.

(** X3. With softcapping on, the loss [forward] stores carries one extra term
    [exp (- |t|)] per padded lane under the logarithm, so it is the
    cross-entropy of the transformed logits exactly when the row fills all
    the lanes [forward] reduces over (no padded lane). *)
Theorem forward_softcap_loss t labels softcap scale :
  rows_in_bounds t -> 0 < shape1 t ->
  Z.of_nat (length labels) = shape0 t ->
  Forall int32_range labels -> Forall (valid_label (shape1 t)) labels ->
  softcap <> 0%R -> (0 <= scale)%R ->
  exists losses ctx,
    Fast_CrossEntropyLoss_forward t labels softcap scale = Ok (losses, ctx) /\
    forall (r : nat) label xs,
      labels !! r = Some label -> label <> -100 ->
      row_of t (Z.of_nat r) = map Fin xs ->
      let ys := map (pre_R (forward_config softcap scale)) xs in
      let padded_lanes := forward_lanes (shape1 t) - shape1 t in
      losses !! r =
        Some (Fin (ln (Rsum (map exp ys) + IZR padded_lanes * exp (- Rabs softcap))
                   - nth (Z.to_nat label) ys 0%R)) /\
      (losses !! r = Some (Fin (cross_entropy ys (Z.to_nat label)))
       <-> padded_lanes = 0).
Proof.
  intros Hwf HV Hlabels H32 Hval Ht Hs.
  destruct (forward_real_rows t labels softcap scale Hwf HV Hlabels H32 Hval Hs)
    as [losses [ctx [Hfw [_ [_ Hrows]]]]].
  exists losses, ctx. split; [exact Hfw|].
  intros r label xs Hlab Hne Hrow ys padded_lanes.
  destruct (Hrows r label xs Hlab Hrow) as [Hlen [_ Hloss]].
  assert (valid_label (shape1 t) label) as [?|Hin]
    by (eapply Forall_lookup_1 in Hval; eauto); [contradiction|].
  rewrite padding_softcap in Hloss by assumption.
  simpl exp_term in Hloss. fold ys padded_lanes in Hloss.
  destruct (Z.eqb_spec label IGNORE) as [?|_]; [contradiction|].
  rewrite (nth_map_lt (pre_R (forward_config softcap scale))) in Hloss by lia.
  fold ys in Hloss.
  split; [exact Hloss|].
  rewrite Hloss. unfold cross_entropy.
  assert (0 < Rsum (map exp ys))%R as HS.
  { apply Rsum_exp_pos. unfold ys. destruct xs; [simpl in Hlen; lia | discriminate]. }
  pose proof (exp_pos (- Rabs softcap)) as He.
  pose proof (forward_lanes_cover (shape1 t) HV) as Hcov.
  assert (0 <= IZR padded_lanes)%R as Hpl by (apply IZR_le; unfold padded_lanes; lia).
  split.
  - intros Heq. inversion Heq as [Hr].
    assert (ln (Rsum (map exp ys) + IZR padded_lanes * exp (- Rabs softcap)) =
            ln (Rsum (map exp ys))) as Hln by lra.
    apply ln_inv in Hln; [| nra | exact HS].
    assert (IZR padded_lanes = 0%R) as H0 by nra.
    apply eq_IZR_R0 in H0. exact H0.
  - intros H0. rewrite H0, Rmult_0_l, Rplus_0_r. reflexivity.
Qed.

Lemma forward_softcap_loss_witness :
  let t := mk_tensor 1 3 3 [Fin 0; Fin 1; Fin 2] in
  exists losses ctx,
    Fast_CrossEntropyLoss_forward t [1] 30 0 = Ok (losses, ctx) /\
    forall (r : nat) label xs,
      [1] !! r = Some label -> label <> -100 ->
      row_of t (Z.of_nat r) = map Fin xs ->
      let ys := map (pre_R (forward_config 30 0)) xs in
      let padded_lanes := forward_lanes (shape1 t) - shape1 t in
      losses !! r =
        Some (Fin (ln (Rsum (map exp ys) + IZR padded_lanes * exp (- Rabs 30))
                   - nth (Z.to_nat label) ys 0%R)) /\
      (losses !! r = Some (Fin (cross_entropy ys (Z.to_nat label)))
       <-> padded_lanes = 0).
Proof.
  apply (forward_softcap_loss (mk_tensor 1 3 3 [Fin 0; Fin 1; Fin 2]) [1] 30 0).
  - solve_rows_in_bounds.
  - simpl. lia.
  - reflexivity.
  - solve_labels.
  - solve_labels.
  - lra.
  - lra.
Defined.

(** ** [backward] after [forward] *)

(** The gradient entry on reals: the softmax entry from the log-sum-exp,
    minus one at the label, times the derivative factors, times the
    upstream gradient. *)
Lemma grad_entry_real cfg x lse dl (b : bool) :
  softcap_ok cfg ->
  grad_entry cfg (Fin x) (Fin lse) (Fin dl) b =
  Fin (dl * (((exp (pre_R cfg x - lse) - (if b then 1 else 0))
              * scaling_factor cfg) * softcap_factor cfg x)).
Proof.
  intros Hok.
  unfold grad_entry, scaled_logit. rewrite pre_transform_Fin by exact Hok.
  unfold scaling_factor, softcap_factor, softcap_ok in *.
  destruct (DO_SOFTCAPPING cfg); [specialize (Hok eq_refl)|];
    destruct (DO_LOGIT_SCALING cfg); destruct b; simpl;
    try (destruct (Req_dec_T (SOFTCAP cfg) 0); [contradiction|]); simpl;
    f_equal; unfold Rminus; lra.
Qed.

Lemma logit_le_logsumexp (ys : list R) (i : nat) (p : R) :
  (i < length ys)%nat -> (0 <= p)%R ->
  (nth i ys 0 <= ln (Rsum (map exp ys) + p))%R.
Proof.
  intros Hi Hp.
  pose proof (Rsum_exp_ge ys i Hi) as Hge.
  pose proof (exp_pos (nth i ys 0%R)) as Hpos.
  rewrite <- (ln_exp (nth i ys 0%R)) at 1.
  destruct (Req_dec_T (exp (nth i ys 0%R)) (Rsum (map exp ys) + p)) as [->|Hneq];
    [lra|].
  left. apply ln_increasing; lra.
Qed.

Lemma exp_nonpos_le_1 z : (z <= 0)%R -> (0 < exp z <= 1)%R.
Proof.
  intros Hz. split; [apply exp_pos|].
  destruct (Req_dec_T z 0) as [->|Hne]; [rewrite exp_0; lra|].
  rewrite <- exp_0. left. apply exp_increasing. lra.
Qed.

Lemma tanh_sqr_le_1 z : (0 <= 1 - tanh z * tanh z <= 1)%R.
Proof.
  unfold tanh, sinh, cosh.
  pose proof (exp_pos z) as Ha. pose proof (exp_pos (- z)) as Hb.
  set (a := exp z) in *. set (b := exp (- z)) in *.
  assert (Hq : ((a - b) / 2 / ((a + b) / 2) = (a - b) / (a + b))%R)
    by (field; lra).
  rewrite Hq.
  assert (0 < / (a + b))%R as Hinv by (apply Rinv_0_lt_compat; lra).
  assert ((a + b) * / (a + b) = 1)%R as Hone by (apply Rinv_r; lra).
  unfold Rdiv. set (q := (/ (a + b))%R) in *.
  assert (- 1 <= (a - b) * q <= 1)%R as Hth by nra.
  set (th := ((a - b) * q)%R) in *.
  pose proof (Rle_0_sqr th) as Hsq. unfold Rsqr in Hsq.
  assert (0 <= (1 - th) * (1 + th))%R by (apply Rmult_le_pos; lra).
  lra.
Qed.

Lemma scale_factor_pos scale : (0 <= scale)%R -> (0 < scale_factor scale)%R.
Proof.
  intros Hs. unfold scale_factor. destruct (nonzero scale) eqn:Hnz; [|lra].
  apply nonzero_true in Hnz. lra.
Qed.

Lemma forward_config_scaling_factor softcap scale :
  scaling_factor (forward_config softcap scale) = scale_factor scale.
Proof. reflexivity. Qed.

(** Running [backward] on what [forward] saved: the cell of a column of a
    real row, in terms of the logits. *)
Lemma backward_after_forward t labels softcap scale dloss dstride :
  rows_in_bounds t -> 0 < shape1 t <= stride0 t ->
  Z.of_nat (length labels) = shape0 t ->
  Forall int32_range labels -> Forall (valid_label (shape1 t)) labels ->
  (0 <= scale)%R ->
  dloss_readable labels dloss dstride ->
  let cfg := forward_config softcap scale in
  exists losses ctx grad,
    Fast_CrossEntropyLoss_forward t labels softcap scale = Ok (losses, ctx) /\
    Fast_CrossEntropyLoss_backward ctx dloss dstride = Ok grad /\
    forall (r : nat) label xs dl c,
      labels !! r = Some label -> label <> IGNORE ->
      row_of t (Z.of_nat r) = map Fin xs ->
      load dloss (Z.of_nat r * dstride) = Some (Fin dl) ->
      0 <= c < shape1 t ->
      let lse := ln (Rsum (map exp (map (pre_R cfg) xs)) +
                     IZR (forward_lanes (shape1 t) - shape1 t) *
                     exp_term (pre_transform cfg NInf)) in
      let x := nth (Z.to_nat c) xs 0%R in
      load (storage grad) (Z.of_nat r * stride0 t + c) =
      Some (Fin (dl * (((exp (pre_R cfg x - lse) - (if c =? label then 1 else 0))
                        * scale_factor scale) * softcap_factor cfg x))).
Proof.
  intros Hwf HV Hlabels H32 Hval Hs Hdl cfg.
  destruct (forward_real_rows t labels softcap scale Hwf ltac:(lia) Hlabels H32 Hval Hs)
    as [losses [ctx [Hfw [Hctx [HE Hrows]]]]].
  assert (Hcwf : context_wf ctx).
  { rewrite Hctx. split; [exact Hwf|]. split; [simpl; lia|].
    split; [exact Hlabels|]. split; [exact H32 | exact HE]. }
  assert (Hcl : saved_labels ctx = labels) by (rewrite Hctx; reflexivity).
  assert (Hct : saved_logits ctx = t) by (rewrite Hctx; reflexivity).
  assert (Hcc : context_config ctx = cfg) by (rewrite Hctx; reflexivity).
  destruct (backward_spec ctx dloss dstride Hcwf ltac:(rewrite Hcl; exact Hdl))
    as [grad [Hbw [_ Hw]]].
  rewrite Hct, Hcl, Hcc in Hw.
  eexists losses, ctx, _. split; [exact Hfw|]. split; [exact Hbw|].
  intros r label xs dl c Hlab Hne Hrow Hdlr Hc lse x.
  cbn [storage].
  destruct (Hrows r label xs Hlab Hrow) as [Hlen [Hlse _]].
  assert (0 <= Z.of_nat r < shape0 t) as Hr by (apply lookup_lt_Some in Hlab; lia).
  assert (Hx : load (storage t) (Z.of_nat r * stride0 t + c) = Some (Fin x)).
  { rewrite row_of_load by assumption. rewrite Hrow. apply lookup_reals. lia. }
  rewrite (Hw r label _ c (Fin x) Hlab Hlse Hc Hx).
  rewrite Hdlr. simpl default. unfold effective_dloss.
  destruct (Z.eqb_spec label IGNORE) as [?|_]; [contradiction|].
  rewrite grad_entry_real by apply forward_config_softcap_ok.
  reflexivity.
Qed.

(** X4. The fused backward pass recovers the softmax gradient.  Without
    softcapping and with a non-negative scale, running [backward] on what
    [forward] saved leaves in the cell of column [c] of a real row with a
    label in range the value [dl * ((softmax (s * x) c - [c = label]) * s)],
    where [dl] is the upstream gradient of the row and [s] the scale factor
    (the scale when nonzero, else 1). *)
Theorem backward_is_softmax_gradient t labels scale dloss dstride :
  rows_in_bounds t -> 0 < shape1 t <= stride0 t ->
  Z.of_nat (length labels) = shape0 t ->
  Forall int32_range labels -> Forall (valid_label (shape1 t)) labels ->
  (0 <= scale)%R ->
  dloss_readable labels dloss dstride ->
  exists losses ctx grad,
    Fast_CrossEntropyLoss_forward t labels 0 scale = Ok (losses, ctx) /\
    Fast_CrossEntropyLoss_backward ctx dloss dstride = Ok grad /\
    forall (r : nat) label xs dl c,
      labels !! r = Some label -> label <> -100 ->
      row_of t (Z.of_nat r) = map Fin xs ->
      load dloss (Z.of_nat r * dstride) = Some (Fin dl) ->
      0 <= c < shape1 t ->
      let ys := map (Rmult (scale_factor scale)) xs in
      load (storage grad) (Z.of_nat r * stride0 t + c) =
      Some (Fin (dl * ((softmax ys (Z.to_nat c) - (if c =? label then 1 else 0))
                       * scale_factor scale))).
Proof.
  intros Hwf HV Hlabels H32 Hval Hs Hdl.
  destruct (backward_after_forward t labels 0 scale dloss dstride
              Hwf HV Hlabels H32 Hval Hs Hdl)
    as [losses [ctx [grad [Hfw [Hbw Hcells]]]]].
  exists losses, ctx, grad. split; [exact Hfw|]. split; [exact Hbw|].
  intros r label xs dl c Hlab Hne Hrow Hdlr Hc ys.
  rewrite (Hcells r label xs dl c Hlab Hne Hrow Hdlr Hc).
  assert (0 <= Z.of_nat r < shape0 t) as Hr by (apply lookup_lt_Some in Hlab; lia).
  pose proof (row_of_length t _ Hwf Hr) as Hlen.
  rewrite Hrow, length_map in Hlen.
  assert (Hys : map (pre_R (forward_config 0 scale)) xs = ys)
    by (apply map_ext; intros x; apply pre_R_no_softcap).
  rewrite Hys, padding_no_softcap by exact Hs. simpl exp_term.
  rewrite Rmult_0_r, Rplus_0_r.
  rewrite pre_R_no_softcap.
  rewrite (nth_map_lt (Rmult (scale_factor scale))) by lia. fold ys.
  assert (0 < Rsum (map exp ys))%R as HS.
  { apply Rsum_exp_pos. unfold ys. destruct xs; [simpl in Hlen; lia | discriminate]. }
  assert (Hsm : exp (nth (Z.to_nat c) ys 0%R - ln (Rsum (map exp ys))) =
                softmax ys (Z.to_nat c)).
  { unfold softmax, Rminus, Rdiv. rewrite exp_plus, exp_Ropp, exp_ln by exact HS.
    reflexivity. }
  rewrite Hsm.
  assert (Hsf : softcap_factor (forward_config 0 scale)
                  (nth (Z.to_nat c) xs 0%R) = 1%R)
    by (unfold softcap_factor; simpl; rewrite nonzero_0; reflexivity).
  rewrite Hsf. do 2 f_equal. lra.
Qed.

Lemma backward_is_softmax_gradient_witness :
  let t := mk_tensor 1 2 2 [Fin 1; Fin 2] in
  exists losses ctx grad,
    Fast_CrossEntropyLoss_forward t [1] 0 0 = Ok (losses, ctx) /\
    Fast_CrossEntropyLoss_backward ctx [Fin 1] 0 = Ok grad /\
    forall (r : nat) label xs dl c,
      [1] !! r = Some label -> label <> -100 ->
      row_of t (Z.of_nat r) = map Fin xs ->
      load [Fin 1] (Z.of_nat r * 0) = Some (Fin dl) ->
      0 <= c < shape1 t ->
      let ys := map (Rmult (scale_factor 0)) xs in
      load (storage grad) (Z.of_nat r * stride0 t + c) =
      Some (Fin (dl * ((softmax ys (Z.to_nat c) - (if c =? label then 1 else 0))
                       * scale_factor 0))).
Proof.
  apply (backward_is_softmax_gradient (mk_tensor 1 2 2 [Fin 1; Fin 2]) [1] 0
           [Fin 1] 0).
  - solve_rows_in_bounds.
  - simpl. lia.
  - reflexivity.
  - solve_labels.
  - solve_labels.
  - lra.
  - intros r label Hlab Hne. rewrite Z.mul_0_r. eexists. reflexivity.
Defined.

Lemma softcap_factor_range cfg x : (0 <= softcap_factor cfg x <= 1)%R.
Proof.
  unfold softcap_factor. destruct (DO_SOFTCAPPING cfg); [|lra].
  apply tanh_sqr_le_1.
Qed.

(** X5. The gradient never exceeds the upstream gradient times the scale.
    With a non-negative scale, with or without softcapping,
    running [backward] on what [forward] saved leaves in every cell of a
    real row with a label in range a real [g] with
    [|g| <= |dl| * s], where [dl] is the upstream gradient of the row and
    [s] the scale factor (the scale when nonzero, else 1). *)
Theorem backward_gradient_bounded t labels softcap scale dloss dstride :
  rows_in_bounds t -> 0 < shape1 t <= stride0 t ->
  Z.of_nat (length labels) = shape0 t ->
  Forall int32_range labels -> Forall (valid_label (shape1 t)) labels ->
  (0 <= scale)%R ->
  dloss_readable labels dloss dstride ->
  exists losses ctx grad,
    Fast_CrossEntropyLoss_forward t labels softcap scale = Ok (losses, ctx) /\
    Fast_CrossEntropyLoss_backward ctx dloss dstride = Ok grad /\
    forall (r : nat) label xs dl c,
      labels !! r = Some label -> label <> -100 ->
      row_of t (Z.of_nat r) = map Fin xs ->
      load dloss (Z.of_nat r * dstride) = Some (Fin dl) ->
      0 <= c < shape1 t ->
      exists g,
        load (storage grad) (Z.of_nat r * stride0 t + c) = Some (Fin g) /\
        (Rabs g <= Rabs dl * scale_factor scale)%R.
Proof.
  intros Hwf HV Hlabels H32 Hval Hs Hdl.
  destruct (backward_after_forward t labels softcap scale dloss dstride
              Hwf HV Hlabels H32 Hval Hs Hdl)
    as [losses [ctx [grad [Hfw [Hbw Hcells]]]]].
  exists losses, ctx, grad. split; [exact Hfw|]. split; [exact Hbw|].
  intros r label xs dl c Hlab Hne Hrow Hdlr Hc.
  eexists. split; [exact (Hcells r label xs dl c Hlab Hne Hrow Hdlr Hc)|].
  assert (0 <= Z.of_nat r < shape0 t) as Hr by (apply lookup_lt_Some in Hlab; lia).
  pose proof (row_of_length t _ Hwf Hr) as Hlen.
  rewrite Hrow, length_map in Hlen.
  set (cfg := forward_config softcap scale).
  set (x := nth (Z.to_nat c) xs 0%R).
  pose proof (forward_lanes_cover (shape1 t) ltac:(lia)) as Hcov.
  assert (0 <= IZR (forward_lanes (shape1 t) - shape1 t) *
               exp_term (pre_transform cfg NInf))%R as Hpadnn.
  { apply Rmult_le_pos; [apply IZR_le; lia | apply exp_term_nonneg]. }
  pose proof (logit_le_logsumexp (map (pre_R cfg) xs) (Z.to_nat c) _
                ltac:(rewrite length_map; lia) Hpadnn) as Hle.
  rewrite <- (nth_map_lt (pre_R cfg)) in Hle by lia. fold x in Hle.
  set (lse := ln _) in *.
  destruct (exp_nonpos_le_1 (pre_R cfg x - lse) ltac:(lra)) as [Hy0 Hy1].
  set (y := exp (pre_R cfg x - lse)) in *.
  pose proof (softcap_factor_range cfg x) as [Hd0 Hd1].
  set (d := softcap_factor cfg x) in *.
  pose proof (scale_factor_pos scale Hs) as Hsf.
  set (s := scale_factor scale) in *.
  rewrite Rabs_mult. apply Rmult_le_compat_l; [apply Rabs_pos|].
  apply Rabs_le.
  assert (- 1 <= y - (if c =? label then 1 else 0) <= 1)%R as [Hu0 Hu1]
    by (destruct (c =? label); lra).
  set (u := (y - (if c =? label then 1 else 0))%R) in *.
  assert (- s <= u * s <= s)%R as [Hv0 Hv1] by nra.
  set (v := (u * s)%R) in *.
  split; nra.
Qed.

Lemma backward_gradient_bounded_witness :
  let t := mk_tensor 1 2 2 [Fin 1; Fin 2] in
  exists losses ctx grad,
    Fast_CrossEntropyLoss_forward t [1] 30 2 = Ok (losses, ctx) /\
    Fast_CrossEntropyLoss_backward ctx [Fin 1] 0 = Ok grad /\
    forall (r : nat) label xs dl c,
      [1] !! r = Some label -> label <> -100 ->
      row_of t (Z.of_nat r) = map Fin xs ->
      load [Fin 1] (Z.of_nat r * 0) = Some (Fin dl) ->
      0 <= c < shape1 t ->
      exists g,
        load (storage grad) (Z.of_nat r * stride0 t + c) = Some (Fin g) /\
        (Rabs g <= Rabs dl * scale_factor 2)%R.
Proof.
  apply (backward_gradient_bounded (mk_tensor 1 2 2 [Fin 1; Fin 2]) [1] 30 2
           [Fin 1] 0).
  - solve_rows_in_bounds.
  - simpl. lia.
  - reflexivity.
  - solve_labels.
  - solve_labels.
  - lra.
  - intros r label Hlab Hne. rewrite Z.mul_0_r. eexists. reflexivity.
Defined.

(** ** What [backward] leaves alone *)

(** The launch of the backward kernel writes no cell outside the columns of
    the rows. *)
Lemma backward_launch_frame t dloss dstride lsebuf labels B cfg n_blocks grad :
  rows_in_bounds t -> shape1 t <= stride0 t ->
  0 <= B -> 0 <= n_blocks -> shape1 t <= n_blocks * B ->
  Z.of_nat (length labels) = shape0 t -> Forall int32_range labels ->
  Z.of_nat (length lsebuf) = shape0 t ->
  (forall (r : nat) label, labels !! r = Some label -> label <> IGNORE ->
     is_Some (load dloss (Z.of_nat r * dstride))) ->
  launch_grid2 (shape0 t) n_blocks
    (_cross_entropy_backward (stride0 t) dloss dstride lsebuf labels
       (shape1 t) B cfg)
    (storage t) = Some grad ->
  forall a,
    (forall r, 0 <= r < shape0 t -> ~ (0 <= a - r * stride0 t < shape1 t)) ->
    load grad a = load (storage t) a.
Proof.
  intros [HV Hwf] Hstride HB Hn HVn Hlabels H32 Hlse Hdl Hgrad.
  unfold launch_grid2 in Hgrad.
  destruct (run_programs_inv
    (fun i => run_programs
       (_cross_entropy_backward (stride0 t) dloss dstride lsebuf labels
          (shape1 t) B cfg i) (seqZ 0 n_blocks))
    (fun (n : nat) s =>
       length s = length (storage t) /\
       (forall a,
          (forall r, 0 <= r < shape0 t -> ~ (0 <= a - r * stride0 t < shape1 t)) ->
          load s a = load (storage t) a))
    (seqZ 0 (shape0 t)) (storage t)) as [grad' [Hrun [_ Hf]]].
  - split; reflexivity.
  - intros n i s Hn' [Hl Hf].
    apply lookup_seqZ_0 in Hn'. destruct Hn' as [-> Hn'].
    destruct (lookup_lt_is_Some_2 labels n) as [label Hlab]; [lia|].
    destruct (lookup_lt_is_Some_2 lsebuf n) as [lse Hlsen]; [lia|].
    destruct (Hwf (Z.of_nat n) ltac:(lia)) as [Hb0 Hb1].
    set (dl := default NaN (load dloss (Z.of_nat n * dstride))).
    destruct (backward_row_spec (stride0 t) dloss dstride lsebuf labels
                (shape1 t) B cfg (Z.of_nat n) n_blocks s label lse dl)
      as [s' [Hrun [Hl' [_ Hf']]]]; try assumption; try lia.
    + rewrite load_nat. exact Hlab.
    + eapply Forall_lookup_1 in H32; eauto.
    + rewrite load_nat. exact Hlsen.
    + intros Hne. destruct (Hdl n label Hlab Hne) as [d Hd].
      unfold dl. rewrite Hd. reflexivity.
    + exists s'. split; [exact Hrun|]. split; [congruence|].
      intros a Ha. rewrite Hf' by (apply Ha; lia). apply Hf. exact Ha.
  - rewrite Hrun in Hgrad. inversion Hgrad; subst. exact Hf.
Qed.

(** X6. [backward] writes only the logit cells.  The pass overwrites the
    saved logits in place; every cell of the storage that is not a column
    below the vocabulary size of some row (the gaps of a row stride larger
    than the vocabulary, and what lies after the last row) still holds what
    it held before, and the storage keeps its length. *)
Theorem backward_writes_only_logit_cells ctx dloss dstride :
  context_wf ctx ->
  dloss_readable (saved_labels ctx) dloss dstride ->
  let t := saved_logits ctx in
  exists grad,
    Fast_CrossEntropyLoss_backward ctx dloss dstride = Ok grad /\
    length (storage grad) = length (storage t) /\
    forall a,
      (forall r, 0 <= r < shape0 t -> ~ (0 <= a - r * stride0 t < shape1 t)) ->
      load (storage grad) a = load (storage t) a.
Proof.
  intros Hcwf Hdl t.
  destruct (backward_spec ctx dloss dstride Hcwf Hdl) as [grad [Hbw [Hl _]]].
  fold t in Hbw, Hl.
  eexists. split; [exact Hbw|]. split; [exact Hl|].
  cbn [storage].
  destruct Hcwf as [Hwf [Hstride [Hlabels [H32 Hlse]]]]. fold t in Hwf, Hstride, Hlabels, Hlse.
  assert (0 <= shape1 t) as HV by (destruct Hwf; assumption).
  destruct (ceil_div_cover (shape1 t) 4096 ltac:(lia) HV) as [Hn Hcover].
  apply (backward_launch_frame t dloss dstride (saved_logsumexp ctx)
           (saved_labels ctx) 4096 (context_config ctx)
           (ceil_div (shape1 t) 4096)); try assumption; try lia.
  unfold Fast_CrossEntropyLoss_backward in Hbw. fold t in Hbw.
  unfold context_config.
  destruct (launch_grid2 _ _ _ _) as [g|]; [|discriminate].
  inversion Hbw; subst. reflexivity.
Qed.

Lemma backward_writes_only_logit_cells_witness :
  let ctx := mk_context (mk_tensor 2 1 2 [Fin 1; Fin 7; Fin 2; Fin 9])
               [Fin 1; Fin 2] [0; 0] false 0 false 0 in
  let t := saved_logits ctx in
  exists grad,
    Fast_CrossEntropyLoss_backward ctx [Fin 1] 0 = Ok grad /\
    length (storage grad) = length (storage t) /\
    forall a,
      (forall r, 0 <= r < shape0 t -> ~ (0 <= a - r * stride0 t < shape1 t)) ->
      load (storage grad) a = load (storage t) a.
Proof.
  apply (backward_writes_only_logit_cells
           (mk_context (mk_tensor 2 1 2 [Fin 1; Fin 7; Fin 2; Fin 9])
              [Fin 1; Fin 2] [0; 0] false 0 false 0) [Fin 1] 0).
  - split; [solve_rows_in_bounds|].
    split; [simpl; lia|]. split; [reflexivity|].
    split; [|reflexivity].
    simpl. solve_labels.
  - intros r label Hlab Hne. rewrite Z.mul_0_r. eexists. reflexivity.
Defined.

(** ** The entry point on real logits *)

Lemma torch_sum_reals (l : list R) : torch_sum (map Fin l) = Fin (Rsum l).
Proof.
  induction l as [|x l IH]; [reflexivity|].
  unfold torch_sum in *. cbn [map foldr]. rewrite IH. reflexivity.
Qed.

Lemma view_row_reals batch seq_len d (data : list R) (r : nat) :
  0 <= d ->
  row_of (mk_tensor (batch * seq_len) d d (map Fin data)) (Z.of_nat r) =
  map Fin (real_row d data r).
Proof.
  intros Hd. unfold row_of, real_row. cbn [shape1 stride0 storage].
  replace (Z.to_nat (Z.of_nat r * d)) with (r * Z.to_nat d)%nat by nia.
  change (map Fin) with (fmap (M := list) Fin).
  rewrite fmap_take, fmap_drop. reflexivity.
Qed.

(** The entry point on real logits without softcapping. *)
Lemma entry_point_real_mean data labels batch seq_len d scale :
  0 <= batch -> 0 <= seq_len -> 0 < d ->
  Z.of_nat (length data) = batch * seq_len * d ->
  Z.of_nat (length labels) = batch * seq_len ->
  Forall int32_range labels -> Forall (valid_label d) labels ->
  Exists (fun l => l <> IGNORE) labels ->
  (0 <= scale)%R ->
  fast_cross_entropy_loss (mk_tensor3 (batch, seq_len, d) (map Fin data))
    (mk_labels2 (batch, seq_len) labels) 0 scale =
  Ok (Fin (mean_cross_entropy d data labels (scale_factor scale))).
Proof.
  intros Hb Hq Hd Hlen Hllen H32 Hval Hex Hs.
  rewrite (entry_point_unfold _ _ _ _ batch seq_len d) by reflexivity.
  cbn [t3_storage l2_storage].
  set (rows := mk_tensor (batch * seq_len) d d (map Fin data)).
  assert (Hwf : rows_in_bounds rows).
  { apply view_rows_in_bounds; try assumption; try lia.
    rewrite length_map. exact Hlen. }
  destruct (forward_spec rows labels 0 scale Hwf Hd Hllen H32 Hval)
    as [losses [ctx [Hfw [_ [Hll _]]]]].
  destruct (forward_real_rows rows labels 0 scale Hwf Hd Hllen H32 Hval Hs)
    as [losses' [ctx' [Hfw' [_ [_ Hrows]]]]].
  rewrite Hfw in Hfw'. inversion Hfw'; subst losses' ctx'. clear Hfw'.
  rewrite Hfw.
  set (f := fun (r : nat) (label : Z) =>
              if label =? IGNORE then 0%R
              else cross_entropy (map (Rmult (scale_factor scale)) (real_row d data r))
                                 (Z.to_nat label)).
  assert (Hlosses : losses = map Fin (imap f labels)).
  { apply list_eq. intros r.
    change (map Fin) with (fmap (M := list) Fin).
    rewrite list_lookup_fmap, list_lookup_imap.
    destruct (labels !! r) as [label|] eqn:Hlab.
    - destruct (Hrows r label (real_row d data r) Hlab
                  ltac:(apply view_row_reals; lia)) as [Hxs [_ Hloss]].
      rewrite Hloss. simpl. f_equal. unfold f.
      destruct (Z.eqb_spec label IGNORE) as [?|Hne]; [reflexivity|].
      assert (valid_label d label) as [?|Hin]
        by (eapply Forall_lookup_1 in Hval; eauto); [contradiction|].
      rewrite padding_no_softcap by exact Hs. simpl exp_term.
      rewrite Rmult_0_r, Rplus_0_r.
      assert (Hys : map (pre_R (forward_config 0 scale)) (real_row d data r) =
                    map (Rmult (scale_factor scale)) (real_row d data r))
        by (apply map_ext; intros x; apply pre_R_no_softcap).
      rewrite Hys. unfold cross_entropy.
      rewrite pre_R_no_softcap.
      rewrite (nth_map_lt (Rmult (scale_factor scale))) by (cbn [shape1 rows] in Hxs; lia).
      reflexivity.
    - simpl. apply lookup_ge_None. apply lookup_ge_None in Hlab.
      cbn [shape0 rows] in Hll. lia. }
  rewrite Hlosses, torch_sum_reals.
  rewrite fdiv_by_count by (apply count_some_kept; exact Hex).
  reflexivity.
Qed.

(** X7. The entry point returns the mean cross-entropy.  On contiguous real
    logits of shape [(batch, seq_len, d)], labels in range of which at least
    one is not -100, no softcapping and a non-negative scale,
    [fast_cross_entropy_loss] returns the sum over the rows that are not
    ignored of [ln (sum (exp (s * x))) - s * x_label], divided by the number
    of those rows. *)
Theorem entry_point_is_mean_cross_entropy data labels batch seq_len d scale :
  0 <= batch -> 0 <= seq_len -> 0 < d ->
  Z.of_nat (length data) = batch * seq_len * d ->
  Z.of_nat (length labels) = batch * seq_len ->
  Forall int32_range labels -> Forall (valid_label d) labels ->
  Exists (fun l => l <> -100) labels ->
  (0 <= scale)%R ->
  fast_cross_entropy_loss (mk_tensor3 (batch, seq_len, d) (map Fin data))
    (mk_labels2 (batch, seq_len) labels) 0 scale =
  Ok (Fin (mean_cross_entropy d data labels (scale_factor scale))).
Proof.
  intros Hb Hq Hd Hlen Hllen H32 Hval Hex Hs.
  apply entry_point_real_mean; assumption.
Qed.

Lemma entry_point_is_mean_cross_entropy_witness :
  fast_cross_entropy_loss (mk_tensor3 (1, 2, 2) (map Fin [1; 2; 3; 4]%R))
    (mk_labels2 (1, 2) [1; -100]) 0 0 =
  Ok (Fin (mean_cross_entropy 2 [1; 2; 3; 4]%R [1; -100] (scale_factor 0))).
Proof.
  apply (entry_point_is_mean_cross_entropy [1; 2; 3; 4]%R [1; -100] 1 2 2 0).
  - lia.
  - lia.
  - lia.
  - reflexivity.
  - reflexivity.
  - solve_labels.
  - solve_labels.
  - apply Exists_cons_hd. lia.
  - lra.
Defined.

(** ** The loss code the patch installs *)


















(** ** The inference branch *)



(** ** Logits that are not real *)

Lemma tl_max_nan v : NaN ∈ v -> tl_max v = NaN.
Proof.
  induction v as [|x v IH]; intros Hin.
  - apply elem_of_nil in Hin. contradiction.
  - unfold tl_max in *. cbn [foldr].
    apply elem_of_cons in Hin. destruct Hin as [<-|Hin].
    + reflexivity.
    + rewrite (IH Hin). destruct x; reflexivity.
Qed.

Lemma logsumexp_stable_nan v : NaN ∈ v -> logsumexp_stable v = NaN.
Proof.
  intros Hin. unfold logsumexp_stable. rewrite (tl_max_nan v Hin). reflexivity.
Qed.

Lemma pre_transform_NaN cfg : pre_transform cfg NaN = NaN.
Proof.
  unfold pre_transform.
  destruct (DO_LOGIT_SCALING cfg), (DO_SOFTCAPPING cfg); reflexivity.
Qed.

Lemma nan_in_pre cfg (l : list fval) : NaN ∈ l -> NaN ∈ map (pre_transform cfg) l.
Proof.
  intros Hin. apply list_elem_of_In, in_map_iff.
  exists NaN. split; [apply pre_transform_NaN | apply list_elem_of_In; exact Hin].
Qed.

Lemma row_logsumexp_nan cfg row B : NaN ∈ row -> row_logsumexp cfg row B = NaN.
Proof.
  intros Hin. apply logsumexp_stable_nan, nan_in_pre.
  unfold padded. apply elem_of_app. left. exact Hin.
Qed.

Lemma chunked_row_logsumexp_nan cfg row N B :
  NaN ∈ row -> 0 <= N -> 0 <= B -> Z.of_nat (length row) <= N * B ->
  chunked_row_logsumexp cfg row N B = NaN.
Proof.
  intros Hin HN HB Hlen. apply logsumexp_stable_nan.
  assert (Hpad : NaN ∈ padded row (N * B))
    by (unfold padded; apply elem_of_app; left; exact Hin).
  rewrite <- (concat_block_of row N B HN HB Hlen) in Hpad.
  apply list_elem_of_In, in_concat in Hpad. destruct Hpad as [blk [Hblk Hnan]].
  apply in_map_iff in Hblk. destruct Hblk as [k [<- Hk]].
  apply list_elem_of_In, in_map_iff. exists k. split; [|exact Hk].
  apply logsumexp_stable_nan, nan_in_pre, list_elem_of_In. exact Hnan.
Qed.

Lemma forward_row_logsumexp_nan softcap scale V row :
  NaN ∈ row -> 0 < V -> Z.of_nat (length row) = V ->
  forward_row_logsumexp softcap scale V row = NaN.
Proof.
  intros Hin HV Hlen. unfold forward_row_logsumexp.
  destruct (V <=? MAX_FUSED_SIZE).
  - apply row_logsumexp_nan. exact Hin.
  - assert (0 < MAX_FUSED_SIZE) as Hcap by reflexivity.
    destruct (ceil_div_cover V MAX_FUSED_SIZE Hcap ltac:(lia)) as [Hn Hcover].
    apply chunked_row_logsumexp_nan; try assumption; lia.
Qed.

Lemma forward_row_loss_nan softcap scale V row label :
  NaN ∈ row -> 0 < V -> Z.of_nat (length row) = V -> label <> IGNORE ->
  forward_row_loss softcap scale V row label = NaN.
Proof.
  intros Hin HV Hlen Hne.
  pose proof (forward_row_logsumexp_nan softcap scale V row Hin HV Hlen) as Hlse.
  unfold forward_row_loss, forward_row_logsumexp in *.
  destruct (V <=? MAX_FUSED_SIZE).
  - unfold row_loss. destruct (Z.eqb_spec label IGNORE); [contradiction|].
    rewrite Hlse. reflexivity.
  - unfold chunked_row_loss. destruct (Z.eqb_spec label IGNORE); [contradiction|].
    rewrite Hlse. destruct (label_term _ _ _); reflexivity.
Qed.

(** X18. A NaN logit is never hidden.  On either path and with any
    softcap and scale, a row that holds a NaN logit gets a NaN saved
    log-sum-exp, and a NaN loss unless its label is -100. *)
Theorem forward_nan_logit t labels softcap scale :
  rows_in_bounds t -> 0 < shape1 t ->
  Z.of_nat (length labels) = shape0 t ->
  Forall int32_range labels -> Forall (valid_label (shape1 t)) labels ->
  exists losses ctx,
    Fast_CrossEntropyLoss_forward t labels softcap scale = Ok (losses, ctx) /\
    forall (r : nat) label,
      labels !! r = Some label -> NaN ∈ row_of t (Z.of_nat r) ->
      saved_logsumexp ctx !! r = Some NaN /\
      (label <> -100 -> losses !! r = Some NaN).
Proof.
  intros Hwf HV Hlabels H32 Hval.
  destruct (forward_spec t labels softcap scale Hwf HV Hlabels H32 Hval)
    as [losses [ctx [Hfw [_ [_ [_ Hrows]]]]]].
  exists losses, ctx. split; [exact Hfw|].
  intros r label Hlab Hnan.
  assert (0 <= Z.of_nat r < shape0 t) as Hr by (apply lookup_lt_Some in Hlab; lia).
  pose proof (row_of_length t _ Hwf Hr) as Hlen.
  destruct (Hrows r label Hlab) as [Hloss Hlse].
  split.
  - rewrite Hlse. f_equal. apply forward_row_logsumexp_nan; assumption.
  - intros Hne. rewrite Hloss. f_equal. apply forward_row_loss_nan; assumption.
Qed.

Lemma forward_nan_logit_witness :
  let t := mk_tensor 1 2 2 [Fin 1; NaN] in
  exists losses ctx,
    Fast_CrossEntropyLoss_forward t [0] 0 0 = Ok (losses, ctx) /\
    forall (r : nat) label,
      [0] !! r = Some label -> NaN ∈ row_of t (Z.of_nat r) ->
      saved_logsumexp ctx !! r = Some NaN /\
      (label <> -100 -> losses !! r = Some NaN).
Proof.
  apply (forward_nan_logit (mk_tensor 1 2 2 [Fin 1; NaN]) [0] 0 0).
  - solve_rows_in_bounds.
  - simpl. lia.
  - reflexivity.
  - solve_labels.
  - solve_labels.
Defined.

Lemma padded_low_row row n : Forall low row -> Forall low (padded row n).
Proof.
  intros Hrow. unfold padded. apply Forall_app. split; [exact Hrow|].
  apply Forall_replicate. exact I.
Qed.

(** The single-pass log-sum-exp of a row of reals and minus infinities,
    without softcapping. *)
Lemma row_logsumexp_masked scale row B :
  (0 <= scale)%R -> Forall low row -> Exists is_finite row ->
  let cfg := forward_config 0 scale in
  row_logsumexp cfg row B = Fin (ln (expsum (map (pre_transform cfg) row))).
Proof.
  intros Hs Hlow Hex cfg.
  assert (Hok : softcap_ok cfg) by apply forward_config_softcap_ok.
  assert (Hpad : pad_low cfg) by (apply forward_config_pad_low; exact Hs).
  unfold row_logsumexp. rewrite logsumexp_stable_low.
  - rewrite expsum_pre_padded. unfold cfg.
    rewrite padding_no_softcap by exact Hs. simpl exp_term.
    rewrite Rmult_0_r, Rplus_0_r. reflexivity.
  - apply Forall_low_pre; try assumption. apply padded_low_row. exact Hlow.
  - apply Exists_finite_pre; [exact Hok|]. unfold padded.
    apply Exists_app. left. exact Hex.
Qed.

(** X19. Logits of minus infinity mask tokens on the single-pass path.
    Without softcapping, with a non-negative scale and a vocabulary of at
    most 65536, a row of real and minus-infinity logits with at least one
    real one gets the logarithm of the sum of [exp (s * x)] over its real
    logits as saved log-sum-exp; the loss is that minus [s * x_label] when
    the logit of the label is real, and plus infinity when it is minus
    infinity. *)
Theorem forward_masked_logits t labels scale :
  rows_in_bounds t -> 0 < shape1 t <= 65536 ->
  Z.of_nat (length labels) = shape0 t ->
  Forall int32_range labels -> Forall (valid_label (shape1 t)) labels ->
  (0 <= scale)%R ->
  exists losses ctx,
    Fast_CrossEntropyLoss_forward t labels 0 scale = Ok (losses, ctx) /\
    forall (r : nat) label,
      labels !! r = Some label -> label <> -100 ->
      let row := row_of t (Z.of_nat r) in
      Forall low row -> Exists is_finite row ->
      let lse := ln (expsum (map (fmul (Fin (scale_factor scale))) row)) in
      saved_logsumexp ctx !! r = Some (Fin lse) /\
      losses !! r =
        Some (match row !!! Z.to_nat label with
              | Fin x => Fin (lse - scale_factor scale * x)
              | _ => PInf
              end).
Proof.
  intros Hwf HV Hlabels H32 Hval Hs.
  destruct (forward_spec t labels 0 scale Hwf ltac:(lia) Hlabels H32 Hval)
    as [losses [ctx [Hfw [_ [_ [_ Hrows]]]]]].
  exists losses, ctx. split; [exact Hfw|].
  intros r label Hlab Hne row Hlow Hex lse.
  destruct (Hrows r label Hlab) as [Hloss Hlse]. fold row in Hloss, Hlse.
  assert (Hpre : forall v, low v ->
            pre_transform (forward_config 0 scale) v = fmul (Fin (scale_factor scale)) v).
  { intros v Hv. destruct v as [| | |x]; simpl in Hv; try tauto.
    - rewrite padding_no_softcap by exact Hs. simpl.
      rewrite Rsign_pos by (apply scale_factor_pos; exact Hs). reflexivity.
    - rewrite pre_transform_Fin by apply forward_config_softcap_ok.
      rewrite pre_R_no_softcap. reflexivity. }
  assert (Hmap : map (pre_transform (forward_config 0 scale)) row =
                 map (fmul (Fin (scale_factor scale))) row).
  { apply map_ext_in. intros v Hv. apply Hpre.
    rewrite Forall_forall in Hlow. apply Hlow, list_elem_of_In. exact Hv. }
  unfold forward_row_loss, forward_row_logsumexp in Hloss, Hlse.
  replace (shape1 t <=? MAX_FUSED_SIZE) with true in Hloss, Hlse
    by (symmetry; apply Z.leb_le; unfold MAX_FUSED_SIZE; lia).
  unfold row_loss in Hloss.
  rewrite (row_logsumexp_masked scale row _ Hs Hlow Hex), Hmap in Hloss, Hlse.
  fold lse in Hloss, Hlse.
  split; [exact Hlse|].
  rewrite Hloss. change (-100) with IGNORE in Hne.
  destruct (Z.eqb_spec label IGNORE) as [?|_]; [contradiction|].
  f_equal.
  assert (valid_label (shape1 t) label) as [?|Hin]
    by (eapply Forall_lookup_1 in Hval; eauto); [contradiction|].
  assert (0 <= Z.of_nat r < shape0 t) as Hr by (apply lookup_lt_Some in Hlab; lia).
  pose proof (row_of_length t _ Hwf Hr) as Hlen. fold row in Hlen.
  destruct (lookup_lt_is_Some_2 row (Z.to_nat label) ltac:(lia)) as [v Hv].
  rewrite (list_lookup_total_correct _ _ _ Hv).
  assert (low v) as Hlv by (eapply Forall_lookup_1 in Hlow; eauto).
  rewrite (Hpre v Hlv).
  destruct v as [| | |x]; simpl in Hlv; [tauto | | tauto | reflexivity].
  simpl. rewrite Rsign_pos by (apply scale_factor_pos; exact Hs). reflexivity.
Qed.

Lemma forward_masked_logits_witness :
  let t := mk_tensor 1 2 2 [Fin 1; NInf] in
  exists losses ctx,
    Fast_CrossEntropyLoss_forward t [1] 0 0 = Ok (losses, ctx) /\
    forall (r : nat) label,
      [1] !! r = Some label -> label <> -100 ->
      let row := row_of t (Z.of_nat r) in
      Forall low row -> Exists is_finite row ->
      let lse := ln (expsum (map (fmul (Fin (scale_factor 0))) row)) in
      saved_logsumexp ctx !! r = Some (Fin lse) /\
      losses !! r =
        Some (match row !!! Z.to_nat label with
              | Fin x => Fin (lse - scale_factor 0 * x)
              | _ => PInf
              end).
Proof.
  apply (forward_masked_logits (mk_tensor 1 2 2 [Fin 1; NInf]) [1] 0).
  - solve_rows_in_bounds.
  - simpl. lia.
  - reflexivity.
  - solve_labels.
  - solve_labels.
  - lra.
Defined.

(** ** The gradient as a derivative *)

Lemma cosh_pos z : (0 < cosh z)%R.
Proof.
  unfold cosh. pose proof (exp_pos z). pose proof (exp_pos (- z)). lra.
Qed.

Lemma derivable_pt_lim_as (f g : R -> R) x l l' :
  derivable_pt_lim f x l -> (forall z, f z = g z) -> l = l' ->
  derivable_pt_lim g x l'.
Proof.
  intros H Hfg <-. exact (derivable_pt_lim_ext f g x l Hfg H).
Qed.

Lemma derivable_pt_lim_tanh z :
  derivable_pt_lim tanh z (1 - tanh z * tanh z)%R.
Proof.
  pose proof (cosh_pos z) as Hc.
  apply (derivable_pt_lim_as (sinh / cosh)%F tanh z
           ((cosh z * cosh z - sinh z * sinh z) / Rsqr (cosh z))%R).
  - apply derivable_pt_lim_div.
    + apply derivable_pt_lim_sinh.
    + apply derivable_pt_lim_cosh.
    + lra.
  - intros x. reflexivity.
  - unfold tanh, Rsqr. field. lra.
Qed.

Lemma derivable_pt_lim_pre_R cfg z :
  softcap_ok cfg ->
  derivable_pt_lim (pre_R cfg) z (scaling_factor cfg * softcap_factor cfg z)%R.
Proof.
  intros Hok.
  set (a := scaling_factor cfg).
  set (y := fun x : R => if DO_LOGIT_SCALING cfg then (LOGIT_SCALE cfg * x)%R else x).
  assert (Hy : derivable_pt_lim y z a).
  { apply (derivable_pt_lim_as (mult_real_fct a id) y z (a * 1)%R).
    - apply derivable_pt_lim_scal, derivable_pt_lim_id.
    - intros x. unfold mult_real_fct, id, y, a, scaling_factor.
      destruct (DO_LOGIT_SCALING cfg); [reflexivity | lra].
    - lra. }
  unfold pre_R, softcap_factor, softcap_ok in *. fold (y z).
  destruct (DO_SOFTCAPPING cfg).
  - specialize (Hok eq_refl). set (t := SOFTCAP cfg) in *.
    assert (Hin : derivable_pt_lim (fun x => y x / t)%R z (a / t)%R).
    { apply (derivable_pt_lim_as (mult_real_fct (/ t) y) _ z (/ t * a)%R).
      - apply derivable_pt_lim_scal. exact Hy.
      - intros x. unfold mult_real_fct. field. exact Hok.
      - field. exact Hok. }
    pose proof (derivable_pt_lim_comp _ _ z _ _ Hin
                  (derivable_pt_lim_tanh (y z / t)%R)) as Hth.
    pose proof (derivable_pt_lim_scal _ t z _ Hth) as Hall.
    eapply derivable_pt_lim_as; [exact Hall | |].
    + intros x. reflexivity.
    + field. exact Hok.
  - eapply derivable_pt_lim_as; [exact Hy | |].
    + intros x. reflexivity.
    + lra.
Qed.

Lemma derivable_pt_lim_row_loss (f : R -> R) (f' K C : R) (b : bool) z0 :
  derivable_pt_lim f z0 f' -> (0 < exp (f z0) + K)%R ->
  derivable_pt_lim
    (fun z => ln (exp (f z) + K) - (if b then f z else C))%R z0
    ((exp (f z0) / (exp (f z0) + K) - (if b then 1 else 0)) * f')%R.
Proof.
  intros Hf Hpos.
  pose proof (derivable_pt_lim_comp f exp z0 _ _ Hf (derivable_pt_lim_exp (f z0))) as H1.
  pose proof (derivable_pt_lim_plus _ _ z0 _ _ H1 (derivable_pt_lim_const K z0)) as H2.
  pose proof (derivable_pt_lim_comp _ ln z0 _ _ H2
                (derivable_pt_lim_ln _ Hpos)) as H3.
  assert (H4 : derivable_pt_lim (fun z => if b then f z else C) z0
                 (if b then f' else 0)%R).
  { destruct b; [exact Hf | apply (derivable_pt_lim_const C z0)]. }
  pose proof (derivable_pt_lim_minus _ _ z0 _ _ H3 H4) as H5.
  eapply derivable_pt_lim_as; [exact H5 | |].
  - intros z. reflexivity.
  - unfold plus_fct, comp, fct_cte. destruct b; field; lra.
Qed.

Lemma with_logit_in_bounds t r c z :
  rows_in_bounds t -> rows_in_bounds (with_logit t r c z).
Proof.
  intros [HV Hwf]. split; [exact HV|].
  intros r' Hr'. cbn [with_logit shape0 shape1 stride0 storage] in *.
  rewrite length_insert. apply Hwf. exact Hr'.
Qed.

Lemma with_logit_row t (r : nat) c z xs :
  rows_in_bounds t -> 0 <= Z.of_nat r < shape0 t -> 0 <= c < shape1 t ->
  row_of t (Z.of_nat r) = map Fin xs ->
  row_of (with_logit t (Z.of_nat r) c (Fin z)) (Z.of_nat r) =
  map Fin (<[Z.to_nat c := z]> xs).
Proof.
  intros [HV Hwf] Hr Hc Hrow.
  destruct (Hwf (Z.of_nat r) Hr) as [Hb0 Hb1].
  unfold row_of in *. cbn [with_logit shape0 shape1 stride0 storage] in *.
  replace (Z.to_nat (Z.of_nat r * stride0 t + c))
    with (Z.to_nat (Z.of_nat r * stride0 t) + Z.to_nat c)%nat by lia.
  rewrite drop_insert_ge by lia.
  replace (Z.to_nat (Z.of_nat r * stride0 t) + Z.to_nat c -
           Z.to_nat (Z.of_nat r * stride0 t))%nat with (Z.to_nat c) by lia.
  rewrite take_insert_lt by lia. rewrite Hrow.
  change (map Fin) with (fmap (M := list) Fin).
  rewrite list_fmap_insert. reflexivity.
Qed.

Lemma Rsum_map_insert (g : R -> R) (xs : list R) (c : nat) z :
  (c < length xs)%nat ->
  Rsum (map g (<[c := z]> xs)) =
  (g z + (Rsum (map g xs) - g (nth c xs 0%R)))%R.
Proof.
  revert c. induction xs as [|x xs IH]; intros c Hc; [simpl in Hc; lia|].
  destruct c as [|c].
  - simpl. unfold Rsum. simpl. lra.
  - simpl in Hc. cbn [insert list_insert map nth].
    change (<[c:=z]> xs) with (list_insert c z xs) in IH.
    unfold Rsum in *. cbn [foldr]. rewrite IH by lia. lra.
Qed.

Lemma nth_insert_reals (xs : list R) (c l : nat) z :
  (c < length xs)%nat ->
  nth l (<[c := z]> xs) 0%R = if Nat.eqb c l then z else nth l xs 0%R.
Proof.
  revert c l. induction xs as [|x xs IH]; intros c l Hc; [simpl in Hc; lia|].
  destruct c as [|c], l as [|l]; try reflexivity.
  simpl in Hc. cbn [insert list_insert nth Nat.eqb].
  apply IH. lia.
Qed.

(** X20. [backward] computes the derivative of what [forward] computes.
    Take a real row with a label other than -100 and one of its columns
    [c]; let [L z] be the loss [forward] stores for the row when the logit
    of column [c] is [z] and all else is unchanged.  With a non-negative
    scale, on either path and with or without softcapping, [L] is
    differentiable at the logit the row holds, and the cell [backward]
    writes for column [c] is the upstream gradient of the row times that
    derivative. *)
Theorem backward_is_derivative_of_forward t labels softcap scale dloss dstride
    (r : nat) label xs dl c :
  rows_in_bounds t -> 0 < shape1 t <= stride0 t ->
  Z.of_nat (length labels) = shape0 t ->
  Forall int32_range labels -> Forall (valid_label (shape1 t)) labels ->
  (0 <= scale)%R ->
  dloss_readable labels dloss dstride ->
  labels !! r = Some label -> label <> -100 ->
  row_of t (Z.of_nat r) = map Fin xs ->
  load dloss (Z.of_nat r * dstride) = Some (Fin dl) ->
  0 <= c < shape1 t ->
  exists (L : R -> R) (g : R),
    (forall z, exists losses ctx,
       Fast_CrossEntropyLoss_forward (with_logit t (Z.of_nat r) c (Fin z))
         labels softcap scale = Ok (losses, ctx) /\
       losses !! r = Some (Fin (L z))) /\
    derivable_pt_lim L (nth (Z.to_nat c) xs 0%R) g /\
    exists losses ctx grad,
      Fast_CrossEntropyLoss_forward t labels softcap scale = Ok (losses, ctx) /\
      Fast_CrossEntropyLoss_backward ctx dloss dstride = Ok grad /\
      load (storage grad) (Z.of_nat r * stride0 t + c) = Some (Fin (dl * g)).
Proof.
  intros Hwf HV Hlabels H32 Hval Hs Hdl Hlab Hne Hrow Hdlr Hc.
  change (-100) with IGNORE in Hne.
  set (cfg := forward_config softcap scale).
  set (p := (IZR (forward_lanes (shape1 t) - shape1 t) *
             exp_term (pre_transform cfg NInf))%R).
  set (x := nth (Z.to_nat c) xs 0%R).
  set (S := Rsum (map exp (map (pre_R cfg) xs))).
  assert (0 <= Z.of_nat r < shape0 t) as Hr by (apply lookup_lt_Some in Hlab; lia).
  pose proof (row_of_length t _ Hwf Hr) as Hlen.
  rewrite Hrow, length_map in Hlen.
  assert (valid_label (shape1 t) label) as [?|Hin]
    by (eapply Forall_lookup_1 in Hval; eauto); [contradiction|].
  assert (Hp : (0 <= p)%R).
  { pose proof (forward_lanes_cover (shape1 t) ltac:(lia)).
    apply Rmult_le_pos; [apply IZR_le; lia | apply exp_term_nonneg]. }
  assert (HS : (0 < S)%R).
  { apply Rsum_exp_pos. destruct xs; [simpl in Hlen; lia | discriminate]. }
  pose proof (Rsum_exp_ge (map (pre_R cfg) xs) (Z.to_nat c)
                ltac:(rewrite length_map; lia)) as Hge.
  rewrite <- (nth_map_lt (pre_R cfg)) in Hge by lia. fold x S in Hge.
  exists (fun z =>
            ln (Rsum (map exp (map (pre_R cfg) (<[Z.to_nat c := z]> xs))) + p) -
            pre_R cfg (nth (Z.to_nat label) (<[Z.to_nat c := z]> xs) 0))%R.
  exists (((exp (pre_R cfg x - ln (S + p)) - (if c =? label then 1 else 0))
           * scale_factor scale) * softcap_factor cfg x)%R.
  split; [|split].
  - intros z.
    destruct (forward_real_rows (with_logit t (Z.of_nat r) c (Fin z)) labels
                softcap scale (with_logit_in_bounds _ _ _ _ Hwf)
                ltac:(simpl; lia) Hlabels H32 Hval Hs)
      as [losses [ctx [Hfw [_ [_ Hrows]]]]].
    exists losses, ctx. split; [exact Hfw|].
    destruct (Hrows r label (<[Z.to_nat c := z]> xs) Hlab
                (with_logit_row t r c z xs Hwf Hr Hc Hrow)) as [_ [_ Hloss]].
    destruct (Z.eqb_spec label IGNORE) as [?|_]; [contradiction|].
    exact Hloss.
  - set (K := (S - exp (pre_R cfg x) + p)%R).
    apply (derivable_pt_lim_as
             (fun z => ln (exp (pre_R cfg z) + K) -
                       (if Nat.eqb (Z.to_nat c) (Z.to_nat label)
                        then pre_R cfg z
                        else pre_R cfg (nth (Z.to_nat label) xs 0)))%R
             _ x
             ((exp (pre_R cfg x) / (exp (pre_R cfg x) + K) -
               (if Nat.eqb (Z.to_nat c) (Z.to_nat label) then 1 else 0)) *
              (scaling_factor cfg * softcap_factor cfg x))%R).
    + apply derivable_pt_lim_row_loss.
      * apply derivable_pt_lim_pre_R, forward_config_softcap_ok.
      * unfold K. lra.
    + intros z. rewrite map_map.
      rewrite (Rsum_map_insert (fun v => exp (pre_R cfg v))) by lia.
      rewrite nth_insert_reals by lia. fold x.
      unfold K, S. rewrite map_map.
      destruct (Nat.eqb (Z.to_nat c) (Z.to_nat label)); f_equal; f_equal; lra.
    + assert (Hb : Nat.eqb (Z.to_nat c) (Z.to_nat label) = (c =? label)).
      { destruct (Z.eqb_spec c label) as [->|Hcl];
          [apply Nat.eqb_refl | apply Nat.eqb_neq; lia]. }
      rewrite Hb.
      assert (HK : (exp (pre_R cfg x) + K = S + p)%R) by (unfold K; lra).
      rewrite HK.
      assert (He : exp (pre_R cfg x - ln (S + p)) = (exp (pre_R cfg x) / (S + p))%R).
      { unfold Rminus, Rdiv. rewrite exp_plus, exp_Ropp, exp_ln by lra. reflexivity. }
      rewrite He. change (scaling_factor cfg) with (scale_factor scale). ring.
  - destruct (backward_after_forward t labels softcap scale dloss dstride
                Hwf HV Hlabels H32 Hval Hs Hdl)
      as [losses [ctx [grad [Hfw [Hbw Hcells]]]]].
    exists losses, ctx, grad. split; [exact Hfw|]. split; [exact Hbw|].
    rewrite (Hcells r label xs dl c Hlab Hne Hrow Hdlr Hc).
    reflexivity.
Qed.

Lemma backward_is_derivative_of_forward_witness :
  let t := mk_tensor 1 2 2 [Fin 1; Fin 2] in
  exists (L : R -> R) (g : R),
    (forall z, exists losses ctx,
       Fast_CrossEntropyLoss_forward (with_logit t (Z.of_nat 0) 0 (Fin z))
         [1] 30 2 = Ok (losses, ctx) /\
       losses !! 0%nat = Some (Fin (L z))) /\
    derivable_pt_lim L (nth (Z.to_nat 0) [1; 2]%R 0%R) g /\
    exists losses ctx grad,
      Fast_CrossEntropyLoss_forward t [1] 30 2 = Ok (losses, ctx) /\
      Fast_CrossEntropyLoss_backward ctx [Fin 1] 0 = Ok grad /\
      load (storage grad) (Z.of_nat 0 * stride0 t + 0) = Some (Fin (1 * g)).
Proof.
  apply (backward_is_derivative_of_forward (mk_tensor 1 2 2 [Fin 1; Fin 2]) [1]
           30 2 [Fin 1] 0 0%nat 1 [1; 2]%R 1 0).
  - solve_rows_in_bounds.
  - simpl. lia.
  - reflexivity.
  - solve_labels.
  - solve_labels.
  - lra.
  - intros r label Hlab Hne. rewrite Z.mul_0_r. eexists. reflexivity.
  - reflexivity.
  - lia.
  - reflexivity.
  - reflexivity.
  - simpl. lia.
Defined.

(** ** A negative scale *)

Lemma tl_max_not_nan v : Forall (fun x => x <> NaN) v -> tl_max v <> NaN.
Proof.
  induction 1 as [|x v Hx Hv IH]; [discriminate|].
  unfold tl_max in *. cbn [foldr].
  destruct x, (foldr fmax NInf v); simpl; congruence.
Qed.

Lemma tl_max_pinf v :
  Forall (fun x => x <> NaN) v -> PInf ∈ v -> tl_max v = PInf.
Proof.
  induction 1 as [|x v Hx Hv IH]; intros Hin.
  - apply elem_of_nil in Hin. contradiction.
  - pose proof (tl_max_not_nan v Hv) as Hm.
    unfold tl_max in *. cbn [foldr].
    apply elem_of_cons in Hin. destruct Hin as [<-|Hin].
    + destruct (foldr fmax NInf v); simpl; congruence.
    + rewrite (IH Hin). destruct x; simpl; congruence.
Qed.

Lemma tl_sum_nan v : NaN ∈ v -> tl_sum v = NaN.
Proof.
  induction v as [|x v IH]; intros Hin.
  - apply elem_of_nil in Hin. contradiction.
  - unfold tl_sum in *. cbn [foldr].
    apply elem_of_cons in Hin. destruct Hin as [<-|Hin].
    + reflexivity.
    + rewrite (IH Hin). destruct x; reflexivity.
Qed.

(** A lane of plus infinity: the shifted lane is [inf - inf]. *)
Lemma logsumexp_stable_pinf v :
  Forall (fun x => x <> NaN) v -> PInf ∈ v -> logsumexp_stable v = NaN.
Proof.
  intros Hv Hin. unfold logsumexp_stable.
  rewrite (tl_max_pinf v Hv Hin).
  rewrite tl_sum_nan; [reflexivity|].
  apply list_elem_of_In, in_map_iff. exists PInf.
  split; [reflexivity | apply list_elem_of_In; exact Hin].
Qed.

Lemma pre_transform_NInf_negative scale :
  (scale < 0)%R -> pre_transform (forward_config 0 scale) NInf = PInf.
Proof.
  intros Hs. unfold pre_transform, forward_config.
  cbn [DO_SOFTCAPPING SOFTCAP DO_LOGIT_SCALING LOGIT_SCALE].
  rewrite nonzero_0.
  assert (nonzero scale = true) as -> by (apply nonzero_true; lra).
  simpl. unfold Rsign. destruct (Rlt_dec scale 0); [reflexivity | contradiction].
Qed.

Lemma pre_block_not_nan scale (blk : list fval) :
  (scale < 0)%R -> Forall low blk ->
  Forall (fun x => x <> NaN) (map (pre_transform (forward_config 0 scale)) blk).
Proof.
  intros Hs Hlow. apply Forall_map. eapply Forall_impl; [exact Hlow|].
  intros v Hv. simpl. destruct v as [| | |x]; simpl in Hv; try tauto.
  - rewrite pre_transform_NInf_negative by exact Hs. discriminate.
  - rewrite pre_transform_Fin by apply forward_config_softcap_ok. discriminate.
Qed.

Lemma pre_block_pinf scale (blk : list fval) :
  (scale < 0)%R -> NInf ∈ blk ->
  PInf ∈ map (pre_transform (forward_config 0 scale)) blk.
Proof.
  intros Hs Hin. apply list_elem_of_In, in_map_iff. exists NInf.
  split; [apply pre_transform_NInf_negative; exact Hs | apply list_elem_of_In; exact Hin].
Qed.

Lemma padded_has_pad row n :
  Z.of_nat (length row) < n -> NInf ∈ padded row n.
Proof.
  intros Hlt. unfold padded. apply elem_of_app. right.
  destruct (Z.to_nat n - length row)%nat as [|k] eqn:Hk; [lia|].
  simpl. apply elem_of_cons. left. reflexivity.
Qed.

Lemma forward_row_logsumexp_negative scale V row :
  (scale < 0)%R -> 0 < V -> Z.of_nat (length row) = V ->
  forward_lanes V <> V -> Forall is_finite row ->
  forward_row_logsumexp 0 scale V row = NaN.
Proof.
  intros Hs HV Hlen Hpad Hrow.
  pose proof (forward_lanes_cover V HV) as Hcov.
  unfold forward_row_logsumexp, forward_lanes in *.
  destruct (V <=? MAX_FUSED_SIZE).
  - unfold row_logsumexp. apply logsumexp_stable_pinf.
    + apply pre_block_not_nan; [exact Hs|]. apply padded_low. exact Hrow.
    + apply pre_block_pinf; [exact Hs|]. apply padded_has_pad. lia.
  - assert (0 < MAX_FUSED_SIZE) as Hcap by reflexivity.
    destruct (ceil_div_cover V MAX_FUSED_SIZE Hcap ltac:(lia)) as [Hn _].
    set (N := ceil_div V MAX_FUSED_SIZE) in *.
    unfold chunked_row_logsumexp. apply logsumexp_stable_nan.
    assert (Hin : NInf ∈ padded row (N * MAX_FUSED_SIZE))
      by (apply padded_has_pad; lia).
    rewrite <- (concat_block_of row N MAX_FUSED_SIZE Hn ltac:(lia) ltac:(lia)) in Hin.
    apply list_elem_of_In, in_concat in Hin. destruct Hin as [blk [Hblk Hin]].
    apply in_map_iff in Hblk. destruct Hblk as [k [<- Hk]].
    apply list_elem_of_In, in_map_iff. exists k. split; [|exact Hk].
    unfold chunk_logsumexp. apply logsumexp_stable_pinf.
    + apply pre_block_not_nan; [exact Hs|].
      unfold block_of. apply Forall_take, Forall_drop, padded_low. exact Hrow.
    + apply pre_block_pinf; [exact Hs|]. apply list_elem_of_In. exact Hin.
Qed.

(** X21. A negative scale turns the masked lanes into plus infinity.
    Without softcapping and with a negative scale, when the lanes of the
    launch exceed the vocabulary (a vocabulary that is not a power of two,
    or above 65536 and not a multiple of it) every row of real logits gets
    a NaN saved log-sum-exp, and a NaN loss unless its label is -100: the
    results on real rows above need the scale to be non-negative. *)
Theorem forward_negative_scale t labels scale :
  rows_in_bounds t -> 0 < shape1 t ->
  Z.of_nat (length labels) = shape0 t ->
  Forall int32_range labels -> Forall (valid_label (shape1 t)) labels ->
  (scale < 0)%R ->
  forward_lanes (shape1 t) <> shape1 t ->
  exists losses ctx,
    Fast_CrossEntropyLoss_forward t labels 0 scale = Ok (losses, ctx) /\
    forall (r : nat) label,
      labels !! r = Some label -> Forall is_finite (row_of t (Z.of_nat r)) ->
      saved_logsumexp ctx !! r = Some NaN /\
      (label <> -100 -> losses !! r = Some NaN).
Proof.
  intros Hwf HV Hlabels H32 Hval Hs Hpad.
  destruct (forward_spec t labels 0 scale Hwf HV Hlabels H32 Hval)
    as [losses [ctx [Hfw [_ [_ [_ Hrows]]]]]].
  exists losses, ctx. split; [exact Hfw|].
  intros r label Hlab Hfin.
  assert (0 <= Z.of_nat r < shape0 t) as Hr by (apply lookup_lt_Some in Hlab; lia).
  pose proof (row_of_length t _ Hwf Hr) as Hlen.
  destruct (Hrows r label Hlab) as [Hloss Hlse].
  pose proof (forward_row_logsumexp_negative scale (shape1 t) _ Hs HV Hlen Hpad Hfin)
    as Hnan.
  split; [rewrite Hlse, Hnan; reflexivity|].
  intros Hne. change (-100) with IGNORE in Hne.
  rewrite Hloss. f_equal.
  unfold forward_row_loss, forward_row_logsumexp in *.
  destruct (shape1 t <=? MAX_FUSED_SIZE).
  - unfold row_loss. destruct (Z.eqb_spec label IGNORE); [contradiction|].
    rewrite Hnan. reflexivity.
  - unfold chunked_row_loss. destruct (Z.eqb_spec label IGNORE); [contradiction|].
    rewrite Hnan. destruct (label_term _ _ _); reflexivity.
Qed.

Lemma forward_negative_scale_witness :
  let t := mk_tensor 1 3 3 [Fin 1; Fin 2; Fin 3] in
  exists losses ctx,
    Fast_CrossEntropyLoss_forward t [0] 0 (-1) = Ok (losses, ctx) /\
    forall (r : nat) label,
      [0] !! r = Some label -> Forall is_finite (row_of t (Z.of_nat r)) ->
      saved_logsumexp ctx !! r = Some NaN /\
      (label <> -100 -> losses !! r = Some NaN).
Proof.
  apply (forward_negative_scale (mk_tensor 1 3 3 [Fin 1; Fin 2; Fin 3]) [0] (-1)).
  - solve_rows_in_bounds.
  - simpl. lia.
  - reflexivity.
  - solve_labels.
  - solve_labels.
  - lra.
  - vm_compute. discriminate.
Defined.

(** ** The text of the patched class *)

Lemma is_prefix_app (p r : list Ascii.ascii) : Patch.is_prefix p (p ++ r) = true.
Proof.
  induction p as [|a p IH]; [reflexivity|].
  simpl. rewrite Ascii.eqb_refl. exact IH.
Qed.

Lemma is_prefix_true (p s : list Ascii.ascii) :
  Patch.is_prefix p s = true -> exists r, s = p ++ r.
Proof.
  revert s. induction p as [|a p IH]; intros s Hp.
  - exists s. reflexivity.
  - destruct s as [|b s]; [discriminate|]. simpl in Hp.
    apply andb_true_iff in Hp. destruct Hp as [Hab Hp].
    apply Ascii.eqb_eq in Hab. subst b.
    destruct (IH s Hp) as [r ->]. exists r. reflexivity.
Qed.

Lemma find_from_eq sub s i :
  Patch.find_from sub s i =
  if Patch.is_prefix sub s then i
  else match s with
       | [] => -1
       | _ :: s' => Patch.find_from sub s' (i + 1)
       end.
Proof. destruct s; reflexivity. Qed.

Lemma find_from_first sub s n i :
  Patch.first_at sub s n -> (n <= length s)%nat ->
  Patch.find_from sub s i = i + Z.of_nat n.
Proof.
  revert s i. induction n as [|n IH]; intros s i [Hp Hn] Hlen.
  - rewrite drop_0 in Hp. rewrite find_from_eq, Hp. lia.
  - destruct s as [|c s]; [simpl in Hlen; lia|].
    pose proof (Hn 0%nat ltac:(lia)) as H0. rewrite drop_0 in H0.
    rewrite find_from_eq, H0.
    rewrite IH; [lia | | simpl in Hlen; lia].
    split; [exact Hp|]. intros j Hj. apply (Hn (S j)). lia.
Qed.

Lemma find_from_none sub s i :
  (forall j, Patch.is_prefix sub (drop j s) = false) ->
  Patch.find_from sub s i = -1.
Proof.
  revert i. induction s as [|c s IH]; intros i Hn.
  - pose proof (Hn 0%nat) as H0. rewrite drop_0 in H0.
    rewrite find_from_eq, H0. reflexivity.
  - pose proof (Hn 0%nat) as H0. rewrite drop_0 in H0.
    rewrite find_from_eq, H0. apply IH.
    intros j. apply (Hn (S j)).
Qed.

Lemma first_at_le sub s n :
  Patch.is_prefix sub [] = false -> Patch.first_at sub s n -> (n <= length s)%nat.
Proof.
  intros Hne [Hp _].
  destruct (le_lt_dec n (length s)) as [?|Hgt]; [assumption|].
  rewrite drop_ge in Hp by lia. congruence.
Qed.

Lemma slice_index_nat s (n : nat) : Patch.slice_index s (Z.of_nat n) = n.
Proof.
  unfold Patch.slice_index.
  replace (Z.of_nat n <? 0) with false by (symmetry; apply Z.ltb_ge; lia). lia.
Qed.

Lemma slice_index_last s : Patch.slice_index s (-1) = (length s - 1)%nat.
Proof. unfold Patch.slice_index. simpl. lia. Qed.

(** The splice, from the places of the two markers. *)
Lemma function_spliced_at function a b :
  Patch.first_at Patch.loss_marker function a ->
  Patch.first_at Patch.return_marker function b ->
  Patch.function_spliced function =
  take a function ++ Patch.replacement ++ drop b function.
Proof.
  intros Ha Hb. unfold Patch.function_spliced, Patch.find.
  pose proof (first_at_le Patch.loss_marker _ _ eq_refl Ha) as Hla.
  pose proof (first_at_le Patch.return_marker _ _ eq_refl Hb) as Hlb.
  rewrite (find_from_first _ _ a 0 Ha Hla), (find_from_first _ _ b 0 Hb Hlb).
  unfold Patch.slice_to, Patch.slice_from. rewrite !Z.add_0_l, !slice_index_nat.
  reflexivity.
Qed.

Lemma replacement_last_line :
  Patch.replacement =
  take (length Patch.replacement - 5) Patch.replacement ++
  [Patch.nl] ++ repeat Patch.sp 4.
Proof. vm_compute. reflexivity. Qed.

(** X13. The splice keeps what precedes the first marker and what starts
    at the second.  When ["    loss = None"] first occurs at index [a] of
    the function text and ["    if not return_dict"] first occurs at index
    [b], the spliced text is the first [a] characters, then [replacement],
    then the text from index [b] on: the loss code between the markers is
    gone.  As [replacement] ends in a line of four spaces, the second marker
    (which starts with four spaces itself) stands four spaces further
    right on its line than in the function text. *)
Theorem splice_replaces_loss_code function a b :
  Patch.first_at Patch.loss_marker function a ->
  Patch.first_at Patch.return_marker function b ->
  Patch.function_spliced function =
    take a function ++ Patch.replacement ++ drop b function /\
  exists r rest,
    drop b function = Patch.return_marker ++ rest /\
    Patch.function_spliced function =
      take a function ++ r ++ [Patch.nl] ++ repeat Patch.sp 4 ++
      Patch.return_marker ++ rest.
Proof.
  intros Ha Hb.
  pose proof (function_spliced_at function a b Ha Hb) as Heq.
  split; [exact Heq|].
  destruct Hb as [Hp _]. apply is_prefix_true in Hp. destruct Hp as [rest Hrest].
  exists (take (length Patch.replacement - 5) Patch.replacement), rest.
  split; [exact Hrest|].
  rewrite Heq, Hrest. rewrite replacement_last_line at 1.
  rewrite <- !app_assoc. reflexivity.
Qed.

Lemma splice_replaces_loss_code_witness :
  let function := repeat Patch.dq 2 ++ Patch.loss_marker ++ repeat Patch.dq 2 ++
                  Patch.return_marker ++ repeat Patch.dq 2 in
  Patch.function_spliced function =
    take 2 function ++ Patch.replacement ++ drop 19 function /\
  exists r rest,
    drop 19 function = Patch.return_marker ++ rest /\
    Patch.function_spliced function =
      take 2 function ++ r ++ [Patch.nl] ++ repeat Patch.sp 4 ++
      Patch.return_marker ++ rest.
Proof.
  apply (splice_replaces_loss_code
           (repeat Patch.dq 2 ++ Patch.loss_marker ++ repeat Patch.dq 2 ++
            Patch.return_marker ++ repeat Patch.dq 2) 2 19).
  - split; [reflexivity|].
    intros j Hj. do 2 (destruct j as [|j]; [reflexivity|]). lia.
  - split; [reflexivity|].
    intros j Hj. do 19 (destruct j as [|j]; [reflexivity|]). lia.
Defined.

(** X14. A missing marker is not an error.  When ["    loss = None"] does
    not occur in the function text, [find] gives -1 and the slice keeps
    everything but the last character: the old loss code stays in the
    text, followed by [replacement]. *)
Theorem splice_without_loss_marker function :
  (forall j, Patch.is_prefix Patch.loss_marker (drop j function) = false) ->
  Patch.function_spliced function =
  take (length function - 1) function ++ Patch.replacement ++
  Patch.slice_from function (Patch.find Patch.return_marker function).
Proof.
  intros Hn. unfold Patch.function_spliced.
  unfold Patch.find at 1. rewrite (find_from_none _ _ _ Hn).
  unfold Patch.slice_to. rewrite slice_index_last. reflexivity.
Qed.

Lemma splice_without_loss_marker_witness :
  let function := repeat Patch.dq 8 in
  Patch.function_spliced function =
  take (length function - 1) function ++ Patch.replacement ++
  Patch.slice_from function (Patch.find Patch.return_marker function).
Proof.
  apply (splice_without_loss_marker (repeat Patch.dq 8)).
  intros j. do 8 (destruct j as [|j]; [reflexivity|]).
  destruct j; reflexivity.
Defined.

Lemma split_nl_cons c s :
  Patch.split_nl (c :: s) =
  if Ascii.eqb c Patch.nl then [] :: Patch.split_nl s
  else match Patch.split_nl s with
       | l :: ls => (c :: l) :: ls
       | [] => [[c]]
       end.
Proof. reflexivity. Qed.

Lemma split_nl_app l s :
  Forall (fun c => c <> Patch.nl) l ->
  Patch.split_nl (l ++ Patch.nl :: s) = l :: Patch.split_nl s.
Proof.
  induction 1 as [|c l Hc Hl IH].
  - reflexivity.
  - change ((c :: l) ++ Patch.nl :: s) with (c :: (l ++ Patch.nl :: s)).
    rewrite split_nl_cons, IH.
    destruct (Ascii.eqb_spec c Patch.nl) as [?|_]; [contradiction | reflexivity].
Qed.

Lemma split_nl_line l :
  Forall (fun c => c <> Patch.nl) l -> Patch.split_nl l = [l].
Proof.
  induction 1 as [|c l Hc Hl IH].
  - reflexivity.
  - rewrite split_nl_cons, IH.
    destruct (Ascii.eqb_spec c Patch.nl) as [?|_]; [contradiction | reflexivity].
Qed.

Lemma split_nl_lines s :
  Forall (Forall (fun c => c <> Patch.nl)) (Patch.split_nl s).
Proof.
  induction s as [|c s IH].
  - repeat constructor.
  - rewrite split_nl_cons.
    destruct (Ascii.eqb_spec c Patch.nl) as [?|Hc].
    + constructor; [constructor | exact IH].
    + destruct (Patch.split_nl s) as [|l ls].
      * repeat constructor. exact Hc.
      * inversion IH; subst. constructor; [constructor; assumption | assumption].
Qed.

Lemma split_join ls :
  ls <> [] -> Forall (Forall (fun c => c <> Patch.nl)) ls ->
  Patch.split_nl (Patch.join_nl ls) = ls.
Proof.
  intros Hne Hall. destruct ls as [|l ls]; [contradiction|]. clear Hne.
  revert l Hall. induction ls as [|l' ls IH]; intros l Hall.
  - simpl. rewrite app_nil_r. apply split_nl_line. inversion Hall; assumption.
  - inversion Hall as [|? ? Hl Hrest]; subst.
    change (Patch.join_nl (l :: l' :: ls))
      with (l ++ Patch.nl :: Patch.join_nl (l' :: ls)).
    rewrite split_nl_app by exact Hl. rewrite IH by exact Hrest. reflexivity.
Qed.

Lemma class_header_line : Forall (fun c => c <> Patch.nl) Patch.class_header.
Proof. repeat (constructor; [discriminate|]). constructor. Qed.

Lemma spaces_line n : Forall (fun c => c <> Patch.nl) (repeat Patch.sp n).
Proof. induction n; constructor; [discriminate | assumption]. Qed.

(** X15. The method line is indented twice.  In the text handed to [exec]
    the class header is followed by the lines of the method text, the
    first one behind eight spaces and every other one behind four, and by
    an empty last line: the first line, where [def] stands, moves four
    spaces further to the right than the lines after it. *)
Theorem patched_function_indentation source body l0 rest :
  Patch.patched_body source = Some body ->
  Patch.split_nl body = l0 :: rest ->
  exists text,
    Patch.patched_function source = Some text /\
    Patch.split_nl text =
      Patch.class_header :: (repeat Patch.sp 8 ++ l0) ::
      map (fun x => repeat Patch.sp 4 ++ x) rest ++ [[]].
Proof.
  intros Hbody Hsplit.
  unfold Patch.patched_function. rewrite Hbody.
  eexists. split; [reflexivity|].
  unfold Patch.function_indented. cbv zeta. rewrite Hsplit.
  pose proof (split_nl_lines body) as Hlines. rewrite Hsplit in Hlines.
  inversion Hlines as [|? ? Hl0 Hrest]; subst.
  set (f := fun x => repeat Patch.sp 4 ++ x).
  assert (Htext :
    Patch.class_header ++ [Patch.nl] ++ repeat Patch.sp 4 ++
      Patch.join_nl (map f (l0 :: rest)) ++ [Patch.nl] =
    Patch.join_nl (Patch.class_header :: (repeat Patch.sp 8 ++ l0) ::
                   map f rest ++ [[]])).
  { unfold Patch.join_nl. cbn [map concat].
    rewrite map_app, concat_app. cbn [map concat].
    change (repeat Patch.sp 8) with (repeat Patch.sp 4 ++ repeat Patch.sp 4).
    unfold f at 1. rewrite <- !app_assoc. reflexivity. }
  transitivity
    (Patch.split_nl
       (Patch.join_nl (Patch.class_header :: (repeat Patch.sp 8 ++ l0) ::
                       map f rest ++ [[]])));
    [f_equal; exact Htext|].
  apply split_join; [discriminate|].
  constructor; [apply class_header_line|].
  constructor; [apply Forall_app; split; [apply spaces_line | exact Hl0]|].
  apply Forall_app. split; [|repeat constructor].
  apply Forall_map. eapply Forall_impl; [exact Hrest|].
  intros l Hl. apply Forall_app. split; [apply spaces_line | exact Hl].
Qed.

Lemma patched_function_indentation_witness :
  let source := [Patch.sp; Patch.dq; Patch.nl; Patch.sp; Patch.dq] in
  let body := default [] (Patch.patched_body source) in
  let l0 := hd [] (Patch.split_nl body) in
  let rest := tail (Patch.split_nl body) in
  exists text,
    Patch.patched_function source = Some text /\
    Patch.split_nl text =
      Patch.class_header :: (repeat Patch.sp 8 ++ l0) ::
      map (fun x => repeat Patch.sp 4 ++ x) rest ++ [[]].
Proof.
  apply (patched_function_indentation
           [Patch.sp; Patch.dq; Patch.nl; Patch.sp; Patch.dq]
           (default [] (Patch.patched_body
                          [Patch.sp; Patch.dq; Patch.nl; Patch.sp; Patch.dq]))).
  - vm_compute. reflexivity.
  - vm_compute. reflexivity.
Defined.

(** X17. Every line loses as many characters as the first line has leading
    spaces.  When the text is built, the lines of the dedented text are the
    lines of the source without their first [i] characters each, [i] being
    the number of leading spaces of the first line, whatever those
    characters are. *)
Theorem function_dedented_lines source function :
  Patch.function_dedented source = Some function ->
  let i := Patch.leading_spaces (hd [] (Patch.split_nl source)) in
  (0 < i)%nat /\
  Patch.split_nl function = map (drop i) (Patch.split_nl source).
Proof.
  intros Hf i.
  unfold Patch.function_dedented, Patch.re_match_spaces_end in Hf.
  fold i in Hf. cbv zeta in Hf.
  destruct (Nat.eqb_spec i 0) as [?|Hi]; [discriminate|].
  inversion Hf as [Heq]. clear Hf Heq.
  split; [lia|].
  assert (Hmap : map (fun x => Patch.slice_from x (Z.of_nat i)) (Patch.split_nl source) =
                 map (drop i) (Patch.split_nl source)).
  { apply map_ext. intros x. unfold Patch.slice_from.
    rewrite slice_index_nat. reflexivity. }
  rewrite Hmap. apply split_join.
  - destruct (Patch.split_nl source) eqn:Hs; [|discriminate].
    pose proof (split_nl_lines source) as Hl. exfalso.
    destruct source as [|c s]; [discriminate|].
    rewrite split_nl_cons in Hs.
    destruct (Ascii.eqb c Patch.nl); [discriminate|].
    destruct (Patch.split_nl s); discriminate.
  - apply Forall_map. eapply Forall_impl; [apply split_nl_lines|].
    intros l Hl. simpl. apply Forall_drop. exact Hl.
Qed.

Lemma function_dedented_lines_witness :
  let source := [Patch.sp; Patch.sp; Patch.dq; Patch.nl; Patch.sp; Patch.dq] in
  let function := [Patch.dq; Patch.nl] in
  let i := Patch.leading_spaces (hd [] (Patch.split_nl source)) in
  (0 < i)%nat /\
  Patch.split_nl function = map (drop i) (Patch.split_nl source).
Proof.
  apply (function_dedented_lines
           [Patch.sp; Patch.sp; Patch.dq; Patch.nl; Patch.sp; Patch.dq]
           [Patch.dq; Patch.nl]).
  vm_compute. reflexivity.
Defined.

Lemma hd_split_nl_spaces source :
  Patch.leading_spaces (hd [] (Patch.split_nl source)) = 0%nat <->
  forall rest, source <> Patch.sp :: rest.
Proof.
  destruct source as [|c s].
  - split; [intros _ rest; discriminate | reflexivity].
  - rewrite split_nl_cons.
    destruct (Ascii.eqb_spec c Patch.nl) as [->|Hnl].
    + split; [intros _ rest; discriminate | reflexivity].
    + assert (Hhd : exists l, hd [] (match Patch.split_nl s with
                                     | l :: ls => (c :: l) :: ls
                                     | [] => [[c]]
                                     end) = c :: l)
        by (destruct (Patch.split_nl s); eexists; reflexivity).
      destruct Hhd as [l ->]. simpl.
      destruct (Ascii.eqb_spec c Patch.sp) as [->|Hsp].
      * split; [discriminate | intros H; exfalso; apply (H s); reflexivity].
      * split; [intros _ rest Heq; inversion Heq; contradiction | reflexivity].
Qed.

(** X16. The patch needs a source that starts with a space.  The text is
    built exactly when the source text of the method begins with a space;
    otherwise (a source without indentation, or an empty one) the match of
    the leading spaces fails and nothing is built. *)
Theorem patched_function_needs_leading_space source :
  Patch.patched_function source = None <->
  forall rest, source <> Patch.sp :: rest.
Proof.
  rewrite <- hd_split_nl_spaces.
  unfold Patch.patched_function, Patch.patched_body, Patch.function_dedented,
    Patch.re_match_spaces_end.
  destruct (Patch.leading_spaces (hd [] (Patch.split_nl source))) as [|n];
    simpl; split; intros H; try reflexivity; discriminate.
Qed.
